(** * gemma.cpp, ops/dot-inl.h: dot-product kernels and the condition-number
      diagnostic, embedded over the IEEE-754 specification of the Standard
      Library ([SpecFloat]).

    Vectors of the SIMD library are lists of lanes; a tag carries the lane
    type and the lane count of the target.  Functions that the C++ code
    updates through references return the updated values. *)

From Stdlib Require Import ZArith List Bool Lia PeanoNat.
From Stdlib Require Import SpecFloat.
From Stdlib Require Import Reals Lra Psatz.
Import ListNotations.

Set Implicit Arguments.

(* ------------------------------------------------------------------ *)
(** ** IEEE-754 scalars *)

Module IEEE.

(** The lane types the file computes in: [double], [float] and
    [hwy::bfloat16_t]. *)
Inductive LaneType := F64 | F32 | BF16.

Definition prec (t : LaneType) : Z :=
  match t with F64 => 53 | F32 => 24 | BF16 => 8 end%Z.

Definition emax (t : LaneType) : Z :=
  match t with F64 => 1024 | F32 => 128 | BF16 => 128 end%Z.

Definition sizeof (t : LaneType) : nat :=
  match t with F64 => 8 | F32 => 4 | BF16 => 2 end.

Definition float := spec_float.

Definition pzero : float := S754_zero false.
Definition pinf : float := S754_infinity false.
Definition nan : float := S754_nan.

Definition add (t : LaneType) : float -> float -> float := SFadd (prec t) (emax t).
Definition mul (t : LaneType) : float -> float -> float := SFmul (prec t) (emax t).
Definition div (t : LaneType) : float -> float -> float := SFdiv (prec t) (emax t).
Definition abs : float -> float := SFabs.
Definition eqb : float -> float -> bool := SFeqb.
Definition leb : float -> float -> bool := SFleb.
Definition ltb : float -> float -> bool := SFltb.

(** Conversion between formats ([static_cast], promotion, demotion):
    the value is rounded to nearest-even in the target format; zeros,
    infinities and NaN are kept. *)
Definition convert (t : LaneType) (x : float) : float :=
  match x with
  | S754_finite s m e => binary_round (prec t) (emax t) s m e
  | _ => x
  end.

(** Fused multiply-add [x * y + z] with a single rounding: the product of
    two finite operands is kept exact (an unnormalised mantissa and
    exponent) and handed to the addition, which rounds once. *)
Definition fma (t : LaneType) (x y z : float) : float :=
  match x, y with
  | S754_finite sx mx ex, S754_finite sy my ey =>
      match z with
      | S754_zero _ => mul t x y
      | _ => add t (S754_finite (xorb sx sy) (mx * my) (ex + ey)) z
      end
  | _, _ => add t (mul t x y) z
  end.

(** Literals. *)
Definition of_Z (t : LaneType) (z : Z) : float :=
  binary_normalize (prec t) (emax t) z 0 false.

(** [m * 2^e], rounded into the format. *)
Definition of_dyadic (t : LaneType) (m e : Z) : float :=
  binary_normalize (prec t) (emax t) m e false.

(** The exact value of a zero or finite float as mantissa and exponent. *)
Definition dyadic (x : float) : option (Z * Z) :=
  match x with
  | S754_zero _ => Some (0, 0)%Z
  | S754_finite s m e => Some (cond_Zopp s (Zpos m), e)
  | _ => None
  end.

(** Exact sum and difference of two dyadic numbers. *)
Definition dy_align (m e e' : Z) : Z := (m * 2 ^ (e - e'))%Z.

Definition dy_add (a b : Z * Z) : Z * Z :=
  let e := Z.min (snd a) (snd b) in
  ((dy_align (fst a) (snd a) e + dy_align (fst b) (snd b) e)%Z, e).

Definition dy_opp (a : Z * Z) : Z * Z := ((- fst a)%Z, snd a).

Definition dy_sub (a b : Z * Z) : Z * Z := dy_add a (dy_opp b).

Definition dy_mul (a b : Z * Z) : Z * Z :=
  ((fst a * fst b)%Z, (snd a + snd b)%Z).

End IEEE.

Import IEEE.

(* ------------------------------------------------------------------ *)
(** ** The SIMD library: tags and lane-wise operations *)

Module hn.

Definition Vec := list float.

(** A tag: lane type, lane count of the target and its compile-time upper
    bound. *)
Record Tag := { tag_lane : LaneType; Lanes : nat; MaxLanes : nat }.

(** The target: the lane counts of [ScalableTag<T>]. *)
Record Target := { TargetLanes : LaneType -> nat; TargetMaxLanes : LaneType -> nat }.

Definition ScalableTag (tg : Target) (t : LaneType) : Tag :=
  {| tag_lane := t; Lanes := TargetLanes tg t; MaxLanes := TargetMaxLanes tg t |}.

Definition ceil_div (a b : nat) : nat := (a + b - 1) / b.

(** [Repartition<T, D>]: same vector size, lanes of type [T] (rounded up,
    so never fewer than one lane for a non-empty vector). *)
Definition Repartition (t : LaneType) (d : Tag) : Tag :=
  {| tag_lane := t;
     Lanes := ceil_div (Lanes d * sizeof (tag_lane d)) (sizeof t);
     MaxLanes := ceil_div (MaxLanes d * sizeof (tag_lane d)) (sizeof t) |}.

Definition Zero (d : Tag) : Vec := repeat pzero (Lanes d).
Definition Inf (d : Tag) : Vec := repeat pinf (Lanes d).
Definition GetLane (v : Vec) : float := hd pzero v.

Fixpoint map2 {A B C} (f : A -> B -> C) (a : list A) (b : list B) : list C :=
  match a, b with
  | x :: a', y :: b' => f x y :: map2 f a' b'
  | _, _ => []
  end.

Fixpoint map3 {A B C D} (f : A -> B -> C -> D)
  (a : list A) (b : list B) (c : list C) : list D :=
  match a, b, c with
  | x :: a', y :: b', z :: c' => f x y z :: map3 f a' b' c'
  | _, _, _ => []
  end.

Definition Add (t : LaneType) (a b : Vec) : Vec := map2 (add t) a b.
Definition Mul (t : LaneType) (a b : Vec) : Vec := map2 (mul t) a b.
Definition Abs (a : Vec) : Vec := map abs a.

(** [MulAdd(a, b, c)]: [a * b + c], fused. *)
Definition MulAdd (t : LaneType) (a b c : Vec) : Vec := map3 (fma t) a b c.

(** [ReduceSum]: the sum of all lanes, taken from the first lane on. *)
Definition ReduceSum (d : Tag) (v : Vec) : float :=
  match v with
  | [] => pzero
  | x :: xs => fold_left (add (tag_lane d)) xs x
  end.

(** [Load(d, p + pos)]: [Lanes d] consecutive elements. *)
Definition Load (d : Tag) (p : list float) (pos : nat) : Vec :=
  firstn (Lanes d) (skipn pos p).

(** [WidenMulPairwiseAdd(df, a, b)]: lane [i] of the result is
    [a[2i+1] * b[2i+1] + a[2i] * b[2i]] in the wider type. *)
Fixpoint WidenMulPairwiseAdd (df : Tag) (a b : Vec) : Vec :=
  match a, b with
  | a0 :: a1 :: a', b0 :: b1 :: b' =>
      let t := tag_lane df in
      add t (mul t (convert t a1) (convert t b1))
            (mul t (convert t a0) (convert t b0))
        :: WidenMulPairwiseAdd df a' b'
  | _, _ => []
  end.

End hn.

Import hn.

(** [hwy::ScalarAbs]. *)
Definition ScalarAbs (x : float) : float := abs x.

(* ------------------------------------------------------------------ *)
(** ** Operand types and spans *)

(** The element types of operands: the lane types ([float], [BF16], ...)
    and the packed stream types of the compression codec. *)
Inductive ElemType := T_lane (t : LaneType) | T_packed (codec : nat).

Definition T_float : ElemType := T_lane F32.
Definition T_BF16 : ElemType := T_lane BF16.

Definition IsF32 (t : ElemType) : bool :=
  match t with T_lane F32 => true | _ => false end.

(** A span: the elements from its base pointer on (as the values the codec
    yields for them) and the logical element count. *)
Record PackedSpan := { ptr : list float; num : nat }.

Definition MakeSpan (p : list float) (n : nat) : PackedSpan := {| ptr := p; num := n |}.
Definition MakeConstSpan (p : list float) (n : nat) : PackedSpan := MakeSpan p n.

(** [CompressedArray<MatT, kCapacity>]: the stored elements and the scale. *)
Record CompressedArray := { data : list float; scale : float }.

(* ------------------------------------------------------------------ *)
(** ** Interfaces of the collaborators *)

(** ops/fp_arith-inl.h: the error-free transforms and the cascaded sums.
    Each function returns what the C++ writes through its reference
    parameters: [TwoSums] and [TwoProducts] the pair (result, [err]), the
    cascaded updates the pair ([sum], [sum_err]). *)
Class FpArith := {
  TwoSums : Tag -> Vec -> Vec -> Vec * Vec;
  TwoProducts : Tag -> Vec -> Vec -> Vec * Vec;
  UpdateCascadedSums : Tag -> Vec -> Vec -> Vec -> Vec * Vec;
  AssimilateCascadedSums : Tag -> Vec -> Vec -> Vec -> Vec -> Vec * Vec;
  ReduceCascadedSums : Tag -> Vec -> Vec -> float
}.

(** compression/compress-inl.h: decoding into raw lanes.  [Decompress2]
    returns the two vectors it writes; [DecompressAndZeroPad] returns the
    contents of the scratch buffer, whose capacity it is given in place of
    the buffer. *)
Class Compress := {
  Decompress2 : Tag -> PackedSpan -> nat -> Vec * Vec;
  DecompressAndZeroPad : Tag -> PackedSpan -> nat -> nat -> nat -> list float
}.

(* ------------------------------------------------------------------ *)
(** ** ConditionNumber *)

(** The four accumulators of [ConditionNumber]. *)
Record CondState := {
  cs_sum : Vec; cs_sum_err : Vec; cs_sum_abs : Vec; cs_sum_abs_err : Vec
}.

(** What a call yields: a value, or nothing when [HWY_ASSERT] aborts it. *)
Definition HWY_ASSERT (b : bool) (x : float) : option float :=
  if b then Some x else None.

Section ConditionNumber.
Context {FA : FpArith} {CO : Compress}.
Variable tg : Target.

(** Body of the main loop of the two-operand overload (lines 73-81). *)
Definition cn_body2 (df : Tag) (packed_w packed_v : PackedSpan) (i : nat)
  (st : CondState) : CondState :=
  let '(w0, w1) := Decompress2 df packed_w i in
  let '(v0, v1) := Decompress2 df packed_v i in
  let mul0 := Mul F32 w0 v0 in
  let mul1 := Mul F32 w1 v1 in
  let '(sum, sum_err) := UpdateCascadedSums df mul0 (cs_sum st) (cs_sum_err st) in
  let '(sum, sum_err) := UpdateCascadedSums df mul1 sum sum_err in
  let '(sum_abs, sum_abs_err) :=
    UpdateCascadedSums df (Abs mul0) (cs_sum_abs st) (cs_sum_abs_err st) in
  let '(sum_abs, sum_abs_err) := UpdateCascadedSums df (Abs mul1) sum_abs sum_abs_err in
  {| cs_sum := sum; cs_sum_err := sum_err;
     cs_sum_abs := sum_abs; cs_sum_abs_err := sum_abs_err |}.

(** [for (; i <= num - 2 * N; i += 2 * N)]; the fuel bounds the number of
    iterations. *)
Fixpoint cn_loop2 (fuel : nat) (df : Tag) (packed_w packed_v : PackedSpan)
  (n i : nat) (st : CondState) : nat * CondState :=
  match fuel with
  | 0 => (i, st)
  | S fuel' =>
      if i <=? n - 2 * Lanes df
      then cn_loop2 fuel' df packed_w packed_v n (i + 2 * Lanes df)
             (cn_body2 df packed_w packed_v i st)
      else (i, st)
  end.

(** Body of the remainder loop of the two-operand overload (lines 95-99). *)
Definition cn_tail_body2 (df : Tag) (padded_w padded_v : list float)
  (padded_pos : nat) (st : CondState) : CondState :=
  let w0 := Load df padded_w padded_pos in
  let v0 := Load df padded_v padded_pos in
  let mul := Mul F32 w0 v0 in
  let '(sum, sum_err) := UpdateCascadedSums df mul (cs_sum st) (cs_sum_err st) in
  let '(sum_abs, sum_abs_err) :=
    UpdateCascadedSums df (Abs mul) (cs_sum_abs st) (cs_sum_abs_err st) in
  {| cs_sum := sum; cs_sum_err := sum_err;
     cs_sum_abs := sum_abs; cs_sum_abs_err := sum_abs_err |}.

(** [for (padded_pos = 0; padded_pos < remaining; padded_pos += N)]. *)
Fixpoint cn_tail2 (fuel : nat) (df : Tag) (padded_w padded_v : list float)
  (remaining padded_pos : nat) (st : CondState) : CondState :=
  match fuel with
  | 0 => st
  | S fuel' =>
      if padded_pos <? remaining
      then cn_tail2 fuel' df padded_w padded_v remaining (padded_pos + Lanes df)
             (cn_tail_body2 df padded_w padded_v padded_pos st)
      else st
  end.

(** Lines 58-101: the accumulators after both loops. *)
Definition cn_sums2 (w v : list float) (num : nat) : CondState :=
  let df := ScalableTag tg F32 in
  let N := Lanes df in
  let st := {| cs_sum := Zero df; cs_sum_err := Zero df;
               cs_sum_abs := Zero df; cs_sum_abs_err := Zero df |} in
  let packed_w := MakeSpan w num in
  let packed_v := MakeSpan v num in
  let '(i, st) :=
    if 2 * N <=? num then cn_loop2 num df packed_w packed_v num 0 st else (0, st) in
  let remaining := num - i in
  if negb (remaining =? 0) then
    let padded_w := DecompressAndZeroPad df packed_w i (2 * MaxLanes df) remaining in
    let padded_v := DecompressAndZeroPad df packed_v i (2 * MaxLanes df) remaining in
    cn_tail2 remaining df padded_w padded_v remaining 0 st
  else st.

(** Lines 103-108 (and 152-157): from the accumulators to the result. *)
Definition cn_result (st : CondState) : option float :=
  let df := ScalableTag tg F32 in
  let div := ScalarAbs (ReduceCascadedSums df (cs_sum st) (cs_sum_err st)) in
  if eqb div pzero then Some (convert F64 (GetLane (Inf df)))
  else
    let cond :=
      IEEE.div F64
        (mul F64 (of_Z F64 2)
           (convert F64 (ReduceCascadedSums df (cs_sum_abs st) (cs_sum_abs_err st))))
        (convert F64 div) in
    HWY_ASSERT (leb pzero cond) cond.

(** [ConditionNumber(w, v, num)]. *)
Definition ConditionNumber (w v : list float) (num : nat) : option float :=
  cn_result (cn_sums2 w v num).

(** Body of the main loop of the single-operand overload (lines 129-134). *)
Definition cn_body1 (df : Tag) (packed_v : PackedSpan) (i : nat)
  (st : CondState) : CondState :=
  let '(v0, v1) := Decompress2 df packed_v i in
  let '(sum, sum_err) := UpdateCascadedSums df v0 (cs_sum st) (cs_sum_err st) in
  let '(sum, sum_err) := UpdateCascadedSums df v1 sum sum_err in
  let '(sum_abs, sum_abs_err) :=
    UpdateCascadedSums df (Abs v0) (cs_sum_abs st) (cs_sum_abs_err st) in
  let '(sum_abs, sum_abs_err) := UpdateCascadedSums df (Abs v1) sum_abs sum_abs_err in
  {| cs_sum := sum; cs_sum_err := sum_err;
     cs_sum_abs := sum_abs; cs_sum_abs_err := sum_abs_err |}.

Fixpoint cn_loop1 (fuel : nat) (df : Tag) (packed_v : PackedSpan)
  (n i : nat) (st : CondState) : nat * CondState :=
  match fuel with
  | 0 => (i, st)
  | S fuel' =>
      if i <=? n - 2 * Lanes df
      then cn_loop1 fuel' df packed_v n (i + 2 * Lanes df) (cn_body1 df packed_v i st)
      else (i, st)
  end.

(** Body of the remainder loop of the single-operand overload (lines 146-148). *)
Definition cn_tail_body1 (df : Tag) (padded_v : list float)
  (padded_pos : nat) (st : CondState) : CondState :=
  let v0 := Load df padded_v padded_pos in
  let '(sum, sum_err) := UpdateCascadedSums df v0 (cs_sum st) (cs_sum_err st) in
  let '(sum_abs, sum_abs_err) :=
    UpdateCascadedSums df (Abs v0) (cs_sum_abs st) (cs_sum_abs_err st) in
  {| cs_sum := sum; cs_sum_err := sum_err;
     cs_sum_abs := sum_abs; cs_sum_abs_err := sum_abs_err |}.

Fixpoint cn_tail1 (fuel : nat) (df : Tag) (padded_v : list float)
  (remaining padded_pos : nat) (st : CondState) : CondState :=
  match fuel with
  | 0 => st
  | S fuel' =>
      if padded_pos <? remaining
      then cn_tail1 fuel' df padded_v remaining (padded_pos + Lanes df)
             (cn_tail_body1 df padded_v padded_pos st)
      else st
  end.

(** Lines 115-150. *)
Definition cn_sums1 (v : list float) (num : nat) : CondState :=
  let df := ScalableTag tg F32 in
  let N := Lanes df in
  let st := {| cs_sum := Zero df; cs_sum_err := Zero df;
               cs_sum_abs := Zero df; cs_sum_abs_err := Zero df |} in
  let packed_v := MakeSpan v num in
  let '(i, st) :=
    if 2 * N <=? num then cn_loop1 num df packed_v num 0 st else (0, st) in
  let remaining := num - i in
  if negb (remaining =? 0) then
    let padded_v := DecompressAndZeroPad df packed_v i (2 * MaxLanes df) remaining in
    cn_tail1 remaining df padded_v remaining 0 st
  else st.

(** [ConditionNumber(v, num)]. *)
Definition ConditionNumber1 (v : list float) (num : nat) : option float :=
  cn_result (cn_sums1 v num).

End ConditionNumber.

(* ------------------------------------------------------------------ *)
(** ** The kernels *)

(** The accumulators a kernel works on: four partial sums and their four
    compensation terms. *)
Record Accum := {
  sum0 : Vec; sum1 : Vec; sum2 : Vec; sum3 : Vec;
  comp0 : Vec; comp1 : Vec; comp2 : Vec; comp3 : Vec
}.

(** What the driver asks of a kernel: the raw and state lane types, the
    four-wide update, the single-wide update (on [sum0] and [comp0]) and the
    final reduction. *)
Record Kernel := {
  Raw : ElemType -> ElemType -> LaneType;
  State : LaneType;
  Update4 : Tag -> Vec -> Vec -> Vec -> Vec -> Vec -> Vec -> Vec -> Vec -> Accum -> Accum;
  Update1 : Tag -> Vec -> Vec -> Vec -> Vec -> Vec * Vec;
  Reduce : Tag -> Accum -> float
}.

(** *** DotKernelDouble *)

Definition DotKernelDouble_Update4 (dd : Tag) (w0 w1 w2 w3 v0 v1 v2 v3 : Vec)
  (acc : Accum) : Accum :=
  let sum0' := MulAdd F64 w0 v0 (sum0 acc) in
  let sum1' := MulAdd F64 w1 v1 (sum1 acc) in
  let sum2' := MulAdd F64 w2 v2 (sum2 acc) in
  let sum3' := MulAdd F64 w3 v3 (sum3 acc) in
  {| sum0 := sum0'; sum1 := sum1'; sum2 := sum2'; sum3 := sum3';
     comp0 := comp0 acc; comp1 := comp1 acc; comp2 := comp2 acc; comp3 := comp3 acc |}.

Definition DotKernelDouble_Update1 (dd : Tag) (w0 v0 : Vec) (sum0 comp0 : Vec)
  : Vec * Vec :=
  (MulAdd F64 w0 v0 sum0, comp0).

Definition DotKernelDouble_Reduce (dd : Tag) (acc : Accum) : float :=
  let sum0' := Add F64 (sum0 acc) (sum1 acc) in
  let sum2' := Add F64 (sum2 acc) (sum3 acc) in
  let sum0'' := Add F64 sum0' sum2' in
  convert F32 (ReduceSum dd sum0'').

Definition DotKernelDouble : Kernel :=
  {| Raw := fun _ _ => F64;
     State := F64;
     Update4 := DotKernelDouble_Update4;
     Update1 := DotKernelDouble_Update1;
     Reduce := DotKernelDouble_Reduce |}.

(** *** DotKernelCompensated *)

Section DotKernelCompensated.
Context {FA : FpArith}.

(** [Update4], Raw = float. *)
Definition DotKernelCompensated_Update4 (df : Tag) (w0 w1 w2 w3 v0 v1 v2 v3 : Vec)
  (acc : Accum) : Accum :=
  let '(prod0, perr0) := TwoProducts df w0 v0 in
  let '(prod1, perr1) := TwoProducts df w1 v1 in
  let '(prod2, perr2) := TwoProducts df w2 v2 in
  let '(prod3, perr3) := TwoProducts df w3 v3 in
  let '(sum0', serr0) := TwoSums df prod0 (sum0 acc) in
  let '(sum1', serr1) := TwoSums df prod1 (sum1 acc) in
  let '(sum2', serr2) := TwoSums df prod2 (sum2 acc) in
  let '(sum3', serr3) := TwoSums df prod3 (sum3 acc) in
  let comp0' := Add F32 (comp0 acc) (Add F32 perr0 serr0) in
  let comp1' := Add F32 (comp1 acc) (Add F32 perr1 serr1) in
  let comp2' := Add F32 (comp2 acc) (Add F32 perr2 serr2) in
  let comp3' := Add F32 (comp3 acc) (Add F32 perr3 serr3) in
  {| sum0 := sum0'; sum1 := sum1'; sum2 := sum2'; sum3 := sum3';
     comp0 := comp0'; comp1 := comp1'; comp2 := comp2'; comp3 := comp3' |}.

(** [Update4], Raw = BF16, State = float. *)
Definition DotKernelCompensated_Update4_BF16 (draw : Tag)
  (w0 w1 w2 w3 v0 v1 v2 v3 : Vec) (acc : Accum) : Accum :=
  let df := Repartition F32 draw in
  let prod0 := WidenMulPairwiseAdd df w0 v0 in
  let prod1 := WidenMulPairwiseAdd df w1 v1 in
  let prod2 := WidenMulPairwiseAdd df w2 v2 in
  let prod3 := WidenMulPairwiseAdd df w3 v3 in
  let '(sum0', serr0) := TwoSums df prod0 (sum0 acc) in
  let '(sum1', serr1) := TwoSums df prod1 (sum1 acc) in
  let '(sum2', serr2) := TwoSums df prod2 (sum2 acc) in
  let '(sum3', serr3) := TwoSums df prod3 (sum3 acc) in
  let comp0' := Add F32 (comp0 acc) serr0 in
  let comp1' := Add F32 (comp1 acc) serr1 in
  let comp2' := Add F32 (comp2 acc) serr2 in
  let comp3' := Add F32 (comp3 acc) serr3 in
  {| sum0 := sum0'; sum1 := sum1'; sum2 := sum2'; sum3 := sum3';
     comp0 := comp0'; comp1 := comp1'; comp2 := comp2'; comp3 := comp3' |}.

(** [Update1], Raw = float. *)
Definition DotKernelCompensated_Update1 (df : Tag) (w0 v0 : Vec) (sum0 comp0 : Vec)
  : Vec * Vec :=
  let '(prod0, perr0) := TwoProducts df w0 v0 in
  let '(sum0', serr0) := TwoSums df prod0 sum0 in
  let comp0' := Add F32 comp0 (Add F32 perr0 serr0) in
  (sum0', comp0').

(** [Update1], Raw = BF16, State = float. *)
Definition DotKernelCompensated_Update1_BF16 (draw : Tag) (w0 v0 : Vec)
  (sum0 comp0 : Vec) : Vec * Vec :=
  let df := Repartition F32 draw in
  let prod0 := WidenMulPairwiseAdd df w0 v0 in
  let '(sum0', serr0) := TwoSums df prod0 sum0 in
  let comp0' := Add F32 comp0 serr0 in
  (sum0', comp0').

Definition DotKernelCompensated_Reduce (df : Tag) (acc : Accum) : float :=
  let '(sum0', comp0') :=
    AssimilateCascadedSums df (sum1 acc) (comp1 acc) (sum0 acc) (comp0 acc) in
  let '(sum2', comp2') :=
    AssimilateCascadedSums df (sum3 acc) (comp3 acc) (sum2 acc) (comp2 acc) in
  let '(sum0'', comp0'') := AssimilateCascadedSums df sum2' comp2' sum0' comp0' in
  ReduceCascadedSums df sum0'' comp0''.

(** The overloads of [Update4] and [Update1] are chosen by the lane type of
    the raw tag; there is none for [double] lanes, which [Raw] never
    yields. *)
Definition DotKernelCompensated : Kernel :=
  {| Raw := fun VT WT => if IsF32 VT || IsF32 WT then F32 else BF16;
     State := F32;
     Update4 := fun draw w0 w1 w2 w3 v0 v1 v2 v3 acc =>
       match tag_lane draw with
       | F32 => DotKernelCompensated_Update4 draw w0 w1 w2 w3 v0 v1 v2 v3 acc
       | BF16 => DotKernelCompensated_Update4_BF16 draw w0 w1 w2 w3 v0 v1 v2 v3 acc
       | F64 => acc
       end;
     Update1 := fun draw w0 v0 sum0 comp0 =>
       match tag_lane draw with
       | F32 => DotKernelCompensated_Update1 draw w0 v0 sum0 comp0
       | BF16 => DotKernelCompensated_Update1_BF16 draw w0 v0 sum0 comp0
       | F64 => (sum0, comp0)
       end;
     Reduce := DotKernelCompensated_Reduce |}.

End DotKernelCompensated.

(* ------------------------------------------------------------------ *)
(** ** The generic reduce driver *)

Section Driver.
Context {CO : Compress}.

Definition set_sum0_comp0 (acc : Accum) (sc : Vec * Vec) : Accum :=
  {| sum0 := fst sc; sum1 := sum1 acc; sum2 := sum2 acc; sum3 := sum3 acc;
     comp0 := snd sc; comp1 := comp1 acc; comp2 := comp2 acc; comp3 := comp3 acc |}.

(** Modelled from the spec: the block loop of the driver
    (compression/compress-inl.h is not among the sources).  Section 4.4:
    both inputs are decoded into the kernel's raw precision in blocks of
    four SIMD-width lanes, and the four-wide update is invoked per block.
    The weight span is read from its offset on. *)
Fixpoint dac_loop (fuel : nat) (kernel : Kernel) (d_raw : Tag)
  (w : PackedSpan) (w_ofs : nat) (vec : PackedSpan) (i : nat) (acc : Accum)
  : nat * Accum :=
  match fuel with
  | 0 => (i, acc)
  | S fuel' =>
      let N := Lanes d_raw in
      if i <=? num vec - 4 * N then
        let '(w0, w1) := Decompress2 d_raw w (w_ofs + i) in
        let '(w2, w3) := Decompress2 d_raw w (w_ofs + i + 2 * N) in
        let '(v0, v1) := Decompress2 d_raw vec i in
        let '(v2, v3) := Decompress2 d_raw vec (i + 2 * N) in
        dac_loop fuel' kernel d_raw w w_ofs vec (i + 4 * N)
          (Update4 kernel d_raw w0 w1 w2 w3 v0 v1 v2 v3 acc)
      else (i, acc)
  end.

(** Modelled from the spec: the remainder loop of the driver.  Section 4.4:
    the single-wide update is invoked across however many whole lanes the
    padded remainder yields. *)
Fixpoint dac_tail (fuel : nat) (kernel : Kernel) (d_raw : Tag)
  (padded_w padded_v : list float) (remaining padded_pos : nat) (acc : Accum)
  : Accum :=
  match fuel with
  | 0 => acc
  | S fuel' =>
      if padded_pos <? remaining then
        let w0 := Load d_raw padded_w padded_pos in
        let v0 := Load d_raw padded_v padded_pos in
        dac_tail fuel' kernel d_raw padded_w padded_v remaining
          (padded_pos + Lanes d_raw)
          (set_sum0_comp0 acc (Update1 kernel d_raw w0 v0 (sum0 acc) (comp0 acc)))
      else acc
  end.

(** Modelled from the spec: the driver on the raw and state tags
    (compression/compress-inl.h is not among the sources).  Section 4.4:
    blocks of four lane-widths go through the four-wide update; the
    remainder is zero-padded into a scratch buffer and goes through the
    single-wide update, across however many whole lanes the padded
    remainder yields; then the kernel's reduce yields one single-precision
    scalar.  Section 3: the accumulators start from zero and are combined
    once, by the reduce.  A stride of four lane-widths leaves fewer than
    four lane-widths, so the scratch buffer holds four maximum-width
    vectors: every element of the remainder is decoded and the last vector
    is padded with zeros to a whole one (sections 4.4 and 8; the two
    lane-widths of section 4.4 are those of the diagnostic, whose stride is
    two). *)
Definition dac_run (kernel : Kernel) (d_raw d_state : Tag) (w : PackedSpan)
  (w_ofs : nat) (vec : PackedSpan) : float :=
  let N := Lanes d_raw in
  let acc := {| sum0 := Zero d_state; sum1 := Zero d_state;
                sum2 := Zero d_state; sum3 := Zero d_state;
                comp0 := Zero d_state; comp1 := Zero d_state;
                comp2 := Zero d_state; comp3 := Zero d_state |} in
  let '(i, acc) :=
    if 4 * N <=? num vec then dac_loop (num vec) kernel d_raw w w_ofs vec 0 acc
    else (0, acc) in
  let remaining := num vec - i in
  let acc :=
    if negb (remaining =? 0) then
      let padded_w := DecompressAndZeroPad d_raw w (w_ofs + i) (4 * MaxLanes d_raw) remaining in
      let padded_v := DecompressAndZeroPad d_raw vec i (4 * MaxLanes d_raw) remaining in
      dac_tail remaining kernel d_raw padded_w padded_v remaining 0 acc
    else acc in
  Reduce kernel d_state acc.

(** Modelled from the spec: [DecompressAndCall], the generic reduce
    driver.  Section 4.4: the inputs are decoded into the kernel's
    required raw precision; the tag only fixes the vector size, the raw
    and state tags are its repartitions. *)
Definition DecompressAndCall (WT VT : ElemType) (d : Tag) (w : PackedSpan)
  (w_ofs : nat) (vec : PackedSpan) (kernel : Kernel) : float :=
  let d_raw := Repartition (Raw kernel WT VT) d in
  let d_state := Repartition (State kernel) d in
  dac_run kernel d_raw d_state w w_ofs vec.

End Driver.

(* ------------------------------------------------------------------ *)
(** ** Dot and its adapters *)

Section Dot.
Context {FA : FpArith} {CO : Compress}.

(** [CanDecompressToDouble<WT, VT>()] of compression/compress.h, a
    compile-time constant per type pair. *)
Variable CanDecompressToDouble : ElemType -> ElemType -> bool.
Variable tg : Target.

Definition DotDouble (WT VT : ElemType) (d : Tag) (w : PackedSpan) (w_ofs : nat)
  (vec : list float) (num : nat) : float :=
  DecompressAndCall WT VT d w w_ofs (MakeSpan vec num) DotKernelDouble.

Definition DotKernelDefault (WT VT : ElemType) : Kernel :=
  if CanDecompressToDouble WT VT then DotKernelDouble else DotKernelCompensated.

(** [Dot(d, w, w_ofs, vec, num)]. *)
Definition Dot (WT VT : ElemType) (d : Tag) (w : PackedSpan) (w_ofs : nat)
  (vec : list float) (num : nat) : float :=
  DecompressAndCall WT VT d w w_ofs (MakeSpan vec num) (DotKernelDefault WT VT).

(** Adapter for two pointers. *)
Definition Dot_ptr (WT : ElemType) (VT : LaneType) (w : list float)
  (vec : list float) (num : nat) : float :=
  let d := ScalableTag tg VT in
  Dot WT (T_lane VT) d (MakeConstSpan w num) 0 vec num.

(** Adapter for [std::array<float, kCapacity>]. *)
Definition Dot_array (kCapacity : nat) (VT : LaneType) (w : list float)
  (w_ofs : nat) (vec : list float) (num : nat) : float :=
  let d := ScalableTag tg VT in
  Dot T_float (T_lane VT) d (MakeConstSpan w kCapacity) w_ofs vec num.

(** Adapter for [CompressedArray<MatT, kCapacity>]. *)
Definition Dot_compressed (MatT : ElemType) (kCapacity : nat) (VT : LaneType)
  (w : CompressedArray) (w_ofs : nat) (vec : list float) (num : nat) : float :=
  let d := ScalableTag tg VT in
  mul F32 (scale w)
    (Dot MatT (T_lane VT) d (MakeConstSpan (data w) kCapacity) w_ofs vec num).

End Dot.

(* ------------------------------------------------------------------ *)
(** ** The collaborators, from their contracts *)

Definition lift2 (f : Z * Z -> Z * Z -> Z * Z) (a b : option (Z * Z)) : option (Z * Z) :=
  match a, b with
  | Some x, Some y => Some (f x y)
  | _, _ => None
  end.

(** Modelled from the spec: the residual of an error-free transform
    (ops/fp_arith-inl.h is not among the sources).  Section 6: [e] is the
    exact residual, with [a+b == s+e] (or [a*b == s+e]) in exact arithmetic.
    [exact] is the exact sum or product; where it or [s] is not a number
    the residual is NaN. *)
Definition exact_residual (exact : option (Z * Z)) (s : float) : float :=
  match lift2 dy_sub exact (dyadic s) with
  | Some r => of_dyadic F32 (fst r) (snd r)
  | None => nan
  end.

(** Modelled from the spec: the error-free sum of two scalars.  Section 6:
    [s = round(a+b)] and [e] the exact residual. *)
Definition two_sum (a b : float) : float * float :=
  let s := add F32 a b in
  (s, exact_residual (lift2 dy_add (dyadic a) (dyadic b)) s).

(** Modelled from the spec: the error-free product of two scalars.
    Section 6: [s = round(a*b)] and [e] the exact residual. *)
Definition two_product (a b : float) : float * float :=
  let s := mul F32 a b in
  (s, exact_residual (lift2 dy_mul (dyadic a) (dyadic b)) s).

Definition lanewise2 (f : float -> float -> float * float) (a b : Vec) : Vec * Vec :=
  (map2 (fun x y => fst (f x y)) a b, map2 (fun x y => snd (f x y)) a b).

(** Modelled from the spec: [TwoSums], the error-free sum on every lane. *)
Definition spec_TwoSums (df : Tag) (a b : Vec) : Vec * Vec := lanewise2 two_sum a b.

(** Modelled from the spec: [TwoProducts], the error-free product on every
    lane. *)
Definition spec_TwoProducts (df : Tag) (a b : Vec) : Vec * Vec :=
  lanewise2 two_product a b.

(** Modelled from the spec: [UpdateCascadedSums].  Glossary, compensated
    summation: each addition's rounding error is accumulated separately. *)
Definition spec_UpdateCascadedSums (df : Tag) (v sum sum_err : Vec) : Vec * Vec :=
  let '(sum', err) := spec_TwoSums df sum v in
  (sum', Add F32 sum_err err).

(** Modelled from the spec: [AssimilateCascadedSums].  Section 4.3: a combine
    step folds the consumed (sum, compensation) pair into the other one. *)
Definition spec_AssimilateCascadedSums (df : Tag)
  (other_sum other_sum_err sum sum_err : Vec) : Vec * Vec :=
  let '(sum', sum_err') := spec_UpdateCascadedSums df other_sum sum sum_err in
  (sum', Add F32 sum_err' other_sum_err).

(** Modelled from the spec: one lane of the horizontal reduction.  The
    lane's sum joins the running total by the error-free sum; its
    compensation and the rounding error join the running compensation. *)
Definition reduce_lane (acc lane : float * float) : float * float :=
  let '(total, err) := two_sum (fst acc) (fst lane) in
  (total, add F32 (add F32 (snd acc) (snd lane)) err).

(** Modelled from the spec: [ReduceCascadedSums].  Section 4.3: one final
    horizontal reduction of the combined sum plus residual compensation;
    section 8 asks the compensated result to survive cancellation between
    elements, which fall into different lanes, so the lanes are combined as
    a cascaded sum and the compensation is added at the very end. *)
Definition spec_ReduceCascadedSums (df : Tag) (sum sum_err : Vec) : float :=
  let '(total, total_err) :=
    fold_left reduce_lane (combine sum sum_err) (pzero, pzero) in
  add F32 total total_err.

#[global] Instance fp_arith_spec : FpArith :=
  {| TwoSums := spec_TwoSums;
     TwoProducts := spec_TwoProducts;
     UpdateCascadedSums := spec_UpdateCascadedSums;
     AssimilateCascadedSums := spec_AssimilateCascadedSums;
     ReduceCascadedSums := spec_ReduceCascadedSums |}.

(** Modelled from the spec: [Decompress2] (compression/compress-inl.h is not
    among the sources).  Section 4.4: the inputs are decoded into the
    kernel's raw precision; here two consecutive vectors from index [i]. *)
Definition spec_Decompress2 (d : Tag) (packed : PackedSpan) (i : nat) : Vec * Vec :=
  (map (convert (tag_lane d)) (Load d (ptr packed) i),
   map (convert (tag_lane d)) (Load d (ptr packed) (i + Lanes d))).

(** Modelled from the spec: [DecompressAndZeroPad].  Section 4.4: the
    remainder is decoded and zero-padded into a scratch buffer. *)
Definition spec_DecompressAndZeroPad (d : Tag) (packed : PackedSpan) (i : nat)
  (capacity remaining : nat) : list float :=
  map (convert (tag_lane d)) (firstn remaining (skipn i (ptr packed)))
    ++ repeat pzero (capacity - remaining).

#[global] Instance compress_spec : Compress :=
  {| Decompress2 := spec_Decompress2;
     DecompressAndZeroPad := spec_DecompressAndZeroPad |}.

(** A target with [n] lanes of every type. *)
Definition uniform_target (n : nat) : Target :=
  {| TargetLanes := fun _ => n; TargetMaxLanes := fun _ => n |}.

(** A target with [bytes]-wide vectors. *)
Definition vector_target (bytes : nat) : Target :=
  {| TargetLanes := fun t => bytes / sizeof t; TargetMaxLanes := fun t => bytes / sizeof t |}.

(** Single-precision literals used in the scenarios. *)
Definition f32 (z : Z) : float := of_Z F32 z.

(* ------------------------------------------------------------------ *)
(** ** The sums of the diagnostic, as the specification words them *)

Section CascadedSums.
Context {FA : FpArith} {CO : Compress}.
Variable tg : Target.

(** A cascaded sum of a sequence of vectors: the pair ([sum], [sum_err])
    after feeding them, in order, to [UpdateCascadedSums]. *)
Definition cascade_from (df : Tag) (init : Vec * Vec) (chunks : list Vec) : Vec * Vec :=
  fold_left (fun se x => UpdateCascadedSums df x (fst se) (snd se)) chunks init.

Definition cascade (df : Tag) (chunks : list Vec) : Vec * Vec :=
  cascade_from df (Zero df, Zero df) chunks.

(** Where the block loop of [ConditionNumber] stops. *)
Fixpoint blocks_end (fuel : nat) (df : Tag) (n i : nat) : nat :=
  match fuel with
  | 0 => i
  | S fuel' =>
      if i <=? n - 2 * Lanes df then blocks_end fuel' df n (i + 2 * Lanes df) else i
  end.

(** The vectors of a span, two per block. *)
Fixpoint block_vectors (fuel : nat) (df : Tag) (packed : PackedSpan) (n i : nat)
  : list Vec :=
  match fuel with
  | 0 => []
  | S fuel' =>
      if i <=? n - 2 * Lanes df then
        fst (Decompress2 df packed i) :: snd (Decompress2 df packed i)
          :: block_vectors fuel' df packed n (i + 2 * Lanes df)
      else []
  end.

(** The vectors of the zero-padded remainder. *)
Fixpoint tail_vectors (fuel : nat) (df : Tag) (padded : list float)
  (remaining padded_pos : nat) : list Vec :=
  match fuel with
  | 0 => []
  | S fuel' =>
      if padded_pos <? remaining then
        Load df padded padded_pos
          :: tail_vectors fuel' df padded remaining (padded_pos + Lanes df)
      else []
  end.

(** All vectors of [v], in the order the diagnostic visits them. *)
Definition vectors_of (v : list float) (n : nat) : list Vec :=
  let df := ScalableTag tg F32 in
  let packed := MakeSpan v n in
  let i := if 2 * Lanes df <=? n then blocks_end n df n 0 else 0 in
  let remaining := n - i in
  (if 2 * Lanes df <=? n then block_vectors n df packed n 0 else [])
    ++ (if negb (remaining =? 0) then
          tail_vectors remaining df
            (DecompressAndZeroPad df packed i (2 * MaxLanes df) remaining) remaining 0
        else []).

(** The lane-wise products [w .* v]. *)
Definition products_of (w v : list float) (n : nat) : list Vec :=
  map2 (Mul F32) (vectors_of w n) (vectors_of v n).

Definition reduce_cascade (chunks : list Vec) : float :=
  let df := ScalableTag tg F32 in
  ReduceCascadedSums df (fst (cascade df chunks)) (snd (cascade df chunks)).

(** [sum(w .* v)] and [sum(|w .* v|)], cascaded in single precision. *)
Definition SignedSum2 (w v : list float) (n : nat) : float :=
  reduce_cascade (products_of w v n).
Definition AbsSum2 (w v : list float) (n : nat) : float :=
  reduce_cascade (map Abs (products_of w v n)).

(** [sum(v)] and [sum(|v|)], cascaded in single precision. *)
Definition SignedSum1 (v : list float) (n : nat) : float :=
  reduce_cascade (vectors_of v n).
Definition AbsSum1 (v : list float) (n : nat) : float :=
  reduce_cascade (map Abs (vectors_of v n)).

(** [2 * abs_sum / |signed_sum|] in double precision. *)
Definition ratio (signed_sum abs_sum : float) : float :=
  IEEE.div F64 (mul F64 (of_Z F64 2) (convert F64 abs_sum))
    (convert F64 (ScalarAbs signed_sum)).

End CascadedSums.

(** The accumulators as two cascaded sums. *)
Definition cond_state (signed absolute : Vec * Vec) : CondState :=
  {| cs_sum := fst signed; cs_sum_err := snd signed;
     cs_sum_abs := fst absolute; cs_sum_abs_err := snd absolute |}.

(** The same arithmetic with another product transform. *)
Definition with_TwoProducts (FA : FpArith) (tp : Tag -> Vec -> Vec -> Vec * Vec) : FpArith :=
  {| TwoSums := TwoSums (FpArith := FA);
     TwoProducts := tp;
     UpdateCascadedSums := UpdateCascadedSums (FpArith := FA);
     AssimilateCascadedSums := AssimilateCascadedSums (FpArith := FA);
     ReduceCascadedSums := ReduceCascadedSums (FpArith := FA) |}.

(** A vector whose lanes past those of [l] are zero. *)
Definition padded (l : Vec) (k : nat) : Vec := l ++ repeat pzero k.

(** The operands of the scenario [w = [1,2,3,4]], [v = [4,3,2,1]]. *)
Definition w1234 : list float := [f32 1; f32 2; f32 3; f32 4].
Definition v4321 : list float := [f32 4; f32 3; f32 2; f32 1].

(** The largest finite single-precision number. *)
Definition max_f32 : float := of_dyadic F32 (2 ^ 24 - 1) 104.

(** Finite numbers whose signed sum is 1 while the sum of their absolute
    values overflows in the first lane. *)
Definition v_overflow : list float :=
  [max_f32; f32 0; f32 0; f32 0; SFopp max_f32; f32 0; f32 0; f32 0; f32 1].

(** Finite operands whose signed product sum is [max_f32] while the sum of
    the absolute products rounds to infinity in the final addition. *)
Definition w_inf_ratio : list float :=
  [max_f32; f32 0; f32 0; f32 0; SFopp (of_dyadic F32 1 102); f32 0; f32 0; f32 0;
   of_dyadic F32 1 102].
Definition v_nine_ones : list float :=
  [f32 1; f32 1; f32 1; f32 1; f32 1; f32 1; f32 1; f32 1; f32 1].

(** The operands of the cancellation scenario. *)
Definition w_cancel : list float := [f32 100000000; f32 1; f32 (-100000000); f32 1].
Definition v_ones : list float := [f32 1; f32 1; f32 1; f32 1].

(* ------------------------------------------------------------------ *)
(** ** Vocabulary of the further properties *)

(** Zeros of either sign. *)
Definition is_zero (x : float) : bool :=
  match x with S754_zero _ => true | _ => false end.
Definition zero_lane (x : float) : Prop := is_zero x = true.
Definition all_zero (v : Vec) : Prop := Forall zero_lane v.

(** A vector of [n] lanes. *)
Definition lanes (n : nat) (x : Vec) : Prop := length x = n.

(** The accumulators a call starts from. *)
Definition zero_accum (d : Tag) : Accum :=
  {| sum0 := Zero d; sum1 := Zero d; sum2 := Zero d; sum3 := Zero d;
     comp0 := Zero d; comp1 := Zero d; comp2 := Zero d; comp3 := Zero d |}.

(** A kernel whose updates do not tell [w] from [v]. *)
Definition symmetric_kernel (K : Kernel) : Prop :=
  (forall d w0 w1 w2 w3 v0 v1 v2 v3 acc,
     Update4 K d w0 w1 w2 w3 v0 v1 v2 v3 acc = Update4 K d v0 v1 v2 v3 w0 w1 w2 w3 acc) /\
  (forall d w v s c, Update1 K d w v s c = Update1 K d v w s c).

(** The compensation registers and the sums of an accumulator state. *)
Definition comps (acc : Accum) : Vec * Vec * Vec * Vec :=
  (comp0 acc, comp1 acc, comp2 acc, comp3 acc).
Definition sums (acc : Accum) : Vec * Vec * Vec * Vec :=
  (sum0 acc, sum1 acc, sum2 acc, sum3 acc).

(** Nine elements: one block and a remainder of one on a four-lane target. *)
Definition x_input : list float :=
  [f32 3; f32 (-1); f32 4; f32 1; f32 (-5); f32 9; f32 2; f32 (-6); f32 5].
Definition x_zeros : list float := repeat (f32 0) 9.
Definition x_with_nan : list float :=
  [f32 3; f32 (-1); f32 4; f32 1; f32 (-5); nan; f32 2; f32 (-6); f32 5].
Definition x_weights : list float :=
  [f32 2; f32 7; f32 1; f32 8; f32 2; f32 8; f32 1; f32 8; f32 2].

(* ------------------------------------------------------------------ *)
(** ** Vocabulary of the accuracy bound *)

Unset Implicit Arguments.
Open Scope Z_scope.

(** The records the right shift of [binary_round_aux] goes through: [m0]
    shifted by [k] bits, the round bit and the sticky bit. *)
Definition shr_inv (m0 k : Z) (mrs : shr_record) : Prop :=
  0 <= shr_m mrs /\
  exists t, 2 * m0 = shr_m mrs * 2 ^ (k + 1) + (if shr_r mrs then 2 ^ k else 0) + t /\
            0 <= t < 2 ^ k /\ (shr_s mrs = false <-> t = 0).

Open Scope R_scope.

(** Powers of two, and the real number a float stands for (zero for the
    infinities and NaN, which [is_fin] sets apart). *)
Definition pow2 (e : Z) : R := powerRZ 2 e.

Definition value (x : spec_float) : R :=
  match x with
  | S754_finite s m e => IZR (cond_Zopp s (Zpos m)) * pow2 e
  | _ => 0
  end.

Definition is_fin (x : spec_float) : bool :=
  match x with S754_zero _ | S754_finite _ _ _ => true | _ => false end.

(** A zero or finite number of the format of precision [prec] and largest
    exponent [emax]. *)
Definition fin (prec emax : Z) (x : spec_float) : Prop :=
  is_fin x = true /\ valid_binary prec emax x = true.

(** The exponent of a finite number is at least [L]. *)
Definition expo_ge (L : Z) (x : spec_float) : Prop :=
  match x with S754_finite _ _ e => (L <= e)%Z | _ => True end.

(** The sign of a float as a real factor. *)
Definition sg (s : bool) : R := if s then -1 else 1.

Close Scope R_scope.
Close Scope Z_scope.
Open Scope R_scope.

(** Numbers of a lane type, its unit roundoff and its least exponent. *)
Definition fint (t : LaneType) (x : float) : Prop := fin (prec t) (emax t) x.

Definition ulp_half (t : LaneType) : R := pow2 (- prec t).

Definition emin_of (t : LaneType) : Z := SpecFloat.emin (prec t) (emax t).

(** The real number a (mantissa, exponent) pair stands for. *)
Definition dyv (p : Z * Z) : R := IZR (fst p) * pow2 (snd p).

(** The exponent a dyadic number sits on is at least [L]. *)
Definition dy_ge (L : Z) (p : Z * Z) : Prop := (L <= snd p)%Z.

(** Three lists related lane by lane. *)
Inductive Forall3 {A B C : Type} (P : A -> B -> C -> Prop) :
  list A -> list B -> list C -> Prop :=
| Forall3_nil : Forall3 P [] [] []
| Forall3_cons x y z l1 l2 l3 :
    P x y z -> Forall3 P l1 l2 l3 -> Forall3 P (x :: l1) (y :: l2) (z :: l3).

(** For every lane of a register: the exact sum it stands for, and the sum
    of the absolute values of the terms of that sum. *)
Definition ghost := list (R * R).

Definition gsum (G : ghost) : R := fold_right (fun p t => fst p + t) 0 G.

Definition asum (G : ghost) : R := fold_right (fun p t => snd p + t) 0 G.

(** One more product goes into a lane, and into every lane of a register. *)
Definition gstep (x y : float) (ga : R * R) : R * R :=
  (value x * value y + fst ga, Rabs (value x * value y) + snd ga).

Definition gadd (w v : Vec) (G : ghost) : ghost := map3 gstep w v G.

(** The exact dot product of two lists of numbers, and the sum of the
    absolute values of its terms. *)
Definition dotR (w v : list float) : R :=
  fold_right Rplus 0 (map2 (fun x y => value x * value y) w v).

Definition absR (w v : list float) : R :=
  fold_right Rplus 0 (map2 (fun x y => Rabs (value x * value y)) w v).

(** A register pair at level [k]: every lane stands for its exact sum, as
    the relation [P] of the kernel has it. *)
Definition reg (P : nat -> float -> float -> R * R -> Prop) (N k : nat)
  (s c : Vec) (G : ghost) : Prop :=
  Forall3 (P k) s c G /\ length G = N.

(** The accumulators after the products of [lw] and [lv] went in. *)
Definition acc_inv (P : nat -> float -> float -> R * R -> Prop) (N k : nat)
  (lw lv : list float) (acc : Accum) : Prop :=
  exists G0 G1 G2 G3,
    reg P N k (sum0 acc) (comp0 acc) G0 /\ reg P N k (sum1 acc) (comp1 acc) G1 /\
    reg P N k (sum2 acc) (comp2 acc) G2 /\ reg P N k (sum3 acc) (comp3 acc) G3 /\
    gsum G0 + gsum G1 + gsum G2 + gsum G3 = dotR lw lv /\
    asum G0 + asum G1 + asum G2 + asum G3 = absR lw lv.

(** The accumulators after one single-wide update of each register. *)
Definition update_each (K : Kernel) (d : Tag) (w0 w1 w2 w3 v0 v1 v2 v3 : Vec)
  (acc : Accum) : Accum :=
  {| sum0 := fst (Update1 K d w0 v0 (sum0 acc) (comp0 acc));
     sum1 := fst (Update1 K d w1 v1 (sum1 acc) (comp1 acc));
     sum2 := fst (Update1 K d w2 v2 (sum2 acc) (comp2 acc));
     sum3 := fst (Update1 K d w3 v3 (sum3 acc) (comp3 acc));
     comp0 := snd (Update1 K d w0 v0 (sum0 acc) (comp0 acc));
     comp1 := snd (Update1 K d w1 v1 (sum1 acc) (comp1 acc));
     comp2 := snd (Update1 K d w2 v2 (sum2 acc) (comp2 acc));
     comp3 := snd (Update1 K d w3 v3 (sum3 acc) (comp3 acc)) |}.

(** A lane of the double kernel at level [k]: a double within
    [2 k 2^-53] of its exact sum, relative to the sum of the absolute
    values. *)
Definition Pd (k : nat) (s c : float) (ga : R * R) : Prop :=
  fint F64 s /\
  Rabs (value s - fst ga) <= 2 * INR k * ulp_half F64 * snd ga /\
  Rabs (fst ga) <= snd ga.

(** Decoded operands of the double kernel, and the largest sum of absolute
    values its lanes are followed to. *)
Definition Good64 (x : float) : Prop := fint F64 x /\ expo_ge (-201) x.

Definition Amax64 : R := pow2 1000.

(** Two lanes put together. *)
Definition gmerge (p q : R * R) : R * R := (fst p + fst q, snd p + snd q).

(** A (sum, compensation) pair at level [m]: the compensation is of first
    order, and sum plus compensation is within second order of the exact
    sum, relative to the sum of the absolute values. *)
Definition Cst (m : nat) (s c : float) (ga : R * R) : Prop :=
  fint F32 s /\ fint F32 c /\
  Rabs (value c) <= 4 * INR m * ulp_half F32 * snd ga /\
  Rabs (value s + value c - fst ga)
    <= 10 * (INR m * INR m) * (ulp_half F32 * ulp_half F32) * snd ga /\
  Rabs (fst ga) <= snd ga.

Definition Pc (k : nat) (s c : float) (ga : R * R) : Prop := Cst (S k) s c ga.

(** Decoded operands of the compensated kernel, and the largest sum of
    absolute values its lanes are followed to. *)
Definition Good32 (x : float) : Prop := fint F32 x /\ expo_ge (-74) x.

Definition Amax32 : R := pow2 120.

(** [c] is the twice-rounded sum of three numbers. *)
Definition three_sum (c x y z : float) : Prop :=
  fint F32 c /\
  Rabs (value c - (value x + value y + value z))
    <= / 4000000 * (Rabs (value x) + Rabs (value y) + Rabs (value z)).

(** Operands in range: zero, or a normal single-precision number of
    magnitude at least [2^-32] and less than [2^32]. *)
Definition operand_ok (x : float) : bool :=
  match x with
  | S754_zero _ => true
  | S754_finite _ m e => valid_binary 24 128 x && (-55 <=? e)%Z && (e <=? 8)%Z
  | _ => false
  end.

Definition ok (x : float) : Prop := operand_ok x = true.

(** A finite number whose exponent is at least -149 (every single-precision
    number is one) in units of [2^-149]. *)
Definition units (x : float) : Z :=
  match x with
  | S754_finite s m e => (cond_Zopp s (Zpos m) * 2 ^ (e + 149))%Z
  | _ => 0%Z
  end.

(** The exact dot product of the first [n] elements, and the sum of the
    absolute values of its terms, in units of [2^-298]. *)
Definition dot_units (w v : list float) (n : nat) : Z :=
  fold_right Z.add 0%Z (map2 (fun x y => (units x * units y)%Z) (firstn n w) (firstn n v)).

Definition abs_units (w v : list float) (n : nat) : Z :=
  fold_right Z.add 0%Z
    (map2 (fun x y => Z.abs (units x * units y)) (firstn n w) (firstn n v)).

(** [r] is a number, and within a relative error of [1 / den] of the exact
    value [X] given in units of [2^-298]: [den * |r - X| <= |X|]. *)
Definition within (den : Z) (r : float) (X : Z) : bool :=
  is_fin r && (den * Z.abs (units r * 2 ^ 149 - X) <=? Z.abs X)%Z.

(** The number of additions a product goes through, at most: block and
    remainder updates, the combination of the registers and of the lanes. *)
Definition steps (n N : nat) : nat := n / (2 * N) + N + 7.

Close Scope R_scope.

(** Modelled from the spec: the reference double-precision dot product of
    section 8, the products of the promoted elements added one after the
    other in double precision. *)
Definition reference_double (w v : list float) (n : nat) : float :=
  fold_left (fun s p => add F64 s (mul F64 (convert F64 (fst p)) (convert F64 (snd p))))
    (combine (firstn n w) (firstn n v)) pzero.

(** Two times the largest single-precision number overflows single
    precision. *)
Definition w_max2 : list float := [max_f32; max_f32].
Definition v_one2 : list float := [f32 1; f32 1].

(** The least positive single-precision number and one half: their product
    [2^-150] is a double, and rounds to zero in single precision. *)
Definition w_underflow : list float := [of_dyadic F32 1 (-149)].
Definition v_underflow : list float := [of_dyadic F32 1 (-1)].

(** Operands in range whose exact dot product is 1 while the sum of the
    absolute values of the products is above [2^61]. *)
Definition w_cancel_double : list float :=
  [of_dyadic F32 1 30; pzero; pzero; pzero; of_dyadic F32 (-1) 30; pzero; f32 1; pzero].
Definition v_cancel_double : list float :=
  [of_dyadic F32 1 30; pzero; pzero; pzero; of_dyadic F32 1 30; pzero; f32 1; pzero].

(** Operands in range whose exact dot product is [2^-46] while the sum of
    the absolute values of the products is above 10. *)
Definition w_cancel_compensated : list float :=
  [f32 2; pzero; of_dyadic F32 (2 ^ 23 + 1) (-23); pzero; f32 (-5); pzero;
   of_dyadic F32 (-1) (-22)].
Definition v_cancel_compensated : list float :=
  [f32 2; pzero; of_dyadic F32 (2 ^ 23 + 1) (-23); pzero; f32 1; pzero; f32 1].

Set Implicit Arguments.

(* ------------------------------------------------------------------ *)
(** * Properties *)

(** ** The loops of the diagnostic compute the two cascaded sums *)

Section CondLoops.
Context {FA : FpArith} {CO : Compress}.

Lemma cond_state_eta (st : CondState) :
  st = cond_state (cs_sum st, cs_sum_err st) (cs_sum_abs st, cs_sum_abs_err st).
Proof. destruct st; reflexivity. Qed.

Lemma cascade_from_cons df init x xs :
  cascade_from df init (x :: xs) =
  cascade_from df (UpdateCascadedSums df x (fst init) (snd init)) xs.
Proof. reflexivity. Qed.

Lemma cn_loop1_cascade fuel df packed n : forall i s a,
  cn_loop1 fuel df packed n i (cond_state s a) =
  (blocks_end fuel df n i,
   cond_state (cascade_from df s (block_vectors fuel df packed n i))
              (cascade_from df a (map Abs (block_vectors fuel df packed n i)))).
Proof.
  induction fuel as [|fuel IH]; intros i [s e] [a ae]; cbn [cn_loop1 blocks_end block_vectors].
  - reflexivity.
  - destruct (i <=? n - 2 * Lanes df); [|reflexivity].
    unfold cn_body1. destruct (Decompress2 df packed i) as [v0 v1].
    cbn [cond_state cs_sum cs_sum_err cs_sum_abs cs_sum_abs_err fst snd map].
    rewrite !cascade_from_cons. cbn [fst snd].
    destruct (UpdateCascadedSums df v0 s e) as [s1 e1].
    destruct (UpdateCascadedSums df v1 s1 e1) as [s2 e2] eqn:E2.
    destruct (UpdateCascadedSums df (Abs v0) a ae) as [a1 ae1].
    destruct (UpdateCascadedSums df (Abs v1) a1 ae1) as [a2 ae2] eqn:E4.
    cbn [fst snd]. rewrite E2, E4.
    apply (IH (i + 2 * Lanes df) (s2, e2) (a2, ae2)).
Qed.

Lemma cn_tail1_cascade fuel df padded remaining : forall pos s a,
  cn_tail1 fuel df padded remaining pos (cond_state s a) =
  cond_state (cascade_from df s (tail_vectors fuel df padded remaining pos))
             (cascade_from df a (map Abs (tail_vectors fuel df padded remaining pos))).
Proof.
  induction fuel as [|fuel IH]; intros pos [s e] [a ae]; cbn [cn_tail1 tail_vectors].
  - reflexivity.
  - destruct (pos <? remaining); [|reflexivity].
    unfold cn_tail_body1.
    cbn [cond_state cs_sum cs_sum_err cs_sum_abs cs_sum_abs_err fst snd map].
    rewrite !cascade_from_cons. cbn [fst snd].
    destruct (UpdateCascadedSums df (Load df padded pos) s e) as [s1 e1] eqn:E1.
    destruct (UpdateCascadedSums df (Abs (Load df padded pos)) a ae) as [a1 ae1] eqn:E2.
    apply (IH (pos + Lanes df) (s1, e1) (a1, ae1)).
Qed.

Lemma cascade_from_app df init xs ys :
  cascade_from df init (xs ++ ys) = cascade_from df (cascade_from df init xs) ys.
Proof. unfold cascade_from. apply fold_left_app. Qed.

(** The single-operand accumulators are the cascaded sums of the vectors
    of [v] and of their absolute values. *)
Lemma cn_sums1_cascade tg v n :
  cn_sums1 tg v n =
  cond_state (cascade (ScalableTag tg F32) (vectors_of tg v n))
             (cascade (ScalableTag tg F32) (map Abs (vectors_of tg v n))).
Proof.
  unfold cn_sums1, vectors_of, cascade.
  set (df := ScalableTag tg F32).
  change {| cs_sum := Zero df; cs_sum_err := Zero df;
            cs_sum_abs := Zero df; cs_sum_abs_err := Zero df |}
    with (cond_state (Zero df, Zero df) (Zero df, Zero df)).
  rewrite map_app, !cascade_from_app.
  destruct (2 * Lanes df <=? n).
  - rewrite cn_loop1_cascade.
    destruct (negb (n - blocks_end n df n 0 =? 0)).
    + apply cn_tail1_cascade.
    + reflexivity.
  - cbn [map cascade_from fold_left].
    destruct (negb (n - 0 =? 0)).
    + apply cn_tail1_cascade.
    + reflexivity.
Qed.

Lemma map2_app {A B C} (f : A -> B -> C) a a' b b' :
  length a = length b ->
  map2 f (a ++ a') (b ++ b') = map2 f a b ++ map2 f a' b'.
Proof.
  revert b; induction a as [|x a IH]; intros [|y b] L; try discriminate L.
  - reflexivity.
  - cbn [app map2]. f_equal. apply IH. now injection L.
Qed.

Lemma block_vectors_length fuel df packed packed' n : forall i,
  length (block_vectors fuel df packed n i) = length (block_vectors fuel df packed' n i).
Proof.
  induction fuel as [|fuel IH]; intros i; cbn [block_vectors]; [reflexivity|].
  destruct (i <=? n - 2 * Lanes df); cbn [length]; [|reflexivity].
  now rewrite (IH (i + 2 * Lanes df)).
Qed.

Lemma cn_loop2_cascade fuel df packed_w packed_v n : forall i s a,
  cn_loop2 fuel df packed_w packed_v n i (cond_state s a) =
  (blocks_end fuel df n i,
   cond_state
     (cascade_from df s
        (map2 (Mul F32) (block_vectors fuel df packed_w n i)
                        (block_vectors fuel df packed_v n i)))
     (cascade_from df a
        (map Abs (map2 (Mul F32) (block_vectors fuel df packed_w n i)
                                 (block_vectors fuel df packed_v n i))))).
Proof.
  induction fuel as [|fuel IH]; intros i [s e] [a ae]; cbn [cn_loop2 blocks_end block_vectors].
  - reflexivity.
  - destruct (i <=? n - 2 * Lanes df); [|reflexivity].
    unfold cn_body2.
    destruct (Decompress2 df packed_w i) as [w0 w1].
    destruct (Decompress2 df packed_v i) as [v0 v1].
    cbn [cond_state cs_sum cs_sum_err cs_sum_abs cs_sum_abs_err fst snd map map2].
    rewrite !cascade_from_cons. cbn [fst snd].
    destruct (UpdateCascadedSums df (Mul F32 w0 v0) s e) as [s1 e1].
    destruct (UpdateCascadedSums df (Mul F32 w1 v1) s1 e1) as [s2 e2] eqn:E2.
    destruct (UpdateCascadedSums df (Abs (Mul F32 w0 v0)) a ae) as [a1 ae1].
    destruct (UpdateCascadedSums df (Abs (Mul F32 w1 v1)) a1 ae1) as [a2 ae2] eqn:E4.
    cbn [fst snd]. rewrite E2, E4.
    apply (IH (i + 2 * Lanes df) (s2, e2) (a2, ae2)).
Qed.

Lemma cn_tail2_cascade fuel df padded_w padded_v remaining : forall pos s a,
  cn_tail2 fuel df padded_w padded_v remaining pos (cond_state s a) =
  cond_state
    (cascade_from df s
       (map2 (Mul F32) (tail_vectors fuel df padded_w remaining pos)
                       (tail_vectors fuel df padded_v remaining pos)))
    (cascade_from df a
       (map Abs (map2 (Mul F32) (tail_vectors fuel df padded_w remaining pos)
                                (tail_vectors fuel df padded_v remaining pos)))).
Proof.
  induction fuel as [|fuel IH]; intros pos [s e] [a ae]; cbn [cn_tail2 tail_vectors].
  - reflexivity.
  - destruct (pos <? remaining); [|reflexivity].
    unfold cn_tail_body2.
    cbn [cond_state cs_sum cs_sum_err cs_sum_abs cs_sum_abs_err fst snd map map2].
    rewrite !cascade_from_cons. cbn [fst snd].
    destruct (UpdateCascadedSums df
                (Mul F32 (Load df padded_w pos) (Load df padded_v pos)) s e)
      as [s1 e1] eqn:E1.
    destruct (UpdateCascadedSums df
                (Abs (Mul F32 (Load df padded_w pos) (Load df padded_v pos))) a ae)
      as [a1 ae1] eqn:E2.
    apply (IH (pos + Lanes df) (s1, e1) (a1, ae1)).
Qed.

(** The two-operand accumulators are the cascaded sums of the lane-wise
    products and of their absolute values. *)
Lemma cn_sums2_cascade tg w v n :
  cn_sums2 tg w v n =
  cond_state (cascade (ScalableTag tg F32) (products_of tg w v n))
             (cascade (ScalableTag tg F32) (map Abs (products_of tg w v n))).
Proof.
  unfold cn_sums2, products_of, vectors_of, cascade.
  set (df := ScalableTag tg F32).
  change {| cs_sum := Zero df; cs_sum_err := Zero df;
            cs_sum_abs := Zero df; cs_sum_abs_err := Zero df |}
    with (cond_state (Zero df, Zero df) (Zero df, Zero df)).
  rewrite map2_app.
  2:{ destruct (2 * Lanes df <=? n); [apply block_vectors_length|reflexivity]. }
  rewrite map_app, !cascade_from_app.
  destruct (2 * Lanes df <=? n).
  - rewrite cn_loop2_cascade.
    destruct (negb (n - blocks_end n df n 0 =? 0)).
    + apply cn_tail2_cascade.
    + reflexivity.
  - cbn [map map2 cascade_from fold_left].
    destruct (negb (n - 0 =? 0)).
    + apply cn_tail2_cascade.
    + reflexivity.
Qed.

(** The block loop stops by its test, not for lack of fuel: what remains
    is less than two vectors (the [HWY_DASSERT] after the loop). *)
Lemma blocks_end_remaining df n :
  0 < Lanes df -> 2 * Lanes df <= n ->
  n - blocks_end n df n 0 < 2 * Lanes df /\ blocks_end n df n 0 <= n.
Proof.
  intros HN Hn.
  assert (G : forall fuel i, i <= n -> n - i < 2 * Lanes df + 2 * fuel ->
              n - blocks_end fuel df n i < 2 * Lanes df /\ blocks_end fuel df n i <= n).
  { induction fuel as [|fuel IH]; intros i Hi Hf; cbn [blocks_end].
    - split; lia.
    - destruct (Nat.leb_spec i (n - 2 * Lanes df)).
      + apply IH; lia.
      + split; lia. }
  apply G; lia.
Qed.

End CondLoops.

(** ** The result of the diagnostic *)

Section CondResult.
Context {FA : FpArith} {CO : Compress}.

Lemma GetLane_Inf df : 0 < Lanes df -> GetLane (Inf df) = pinf.
Proof.
  unfold GetLane, Inf. destruct (Lanes df); [lia|reflexivity].
Qed.

Lemma cn_result_cascade tg signed absolute :
  cn_result tg (cond_state signed absolute) =
  let df := ScalableTag tg F32 in
  let s := ReduceCascadedSums df (fst signed) (snd signed) in
  let a := ReduceCascadedSums df (fst absolute) (snd absolute) in
  if eqb (ScalarAbs s) pzero then Some (convert F64 (GetLane (Inf df)))
  else HWY_ASSERT (leb pzero (ratio s a)) (ratio s a).
Proof. reflexivity. Qed.

(** The two-operand overload, in terms of the two sums. *)
Lemma ConditionNumber_sums tg w v n :
  ConditionNumber tg w v n =
  let s := SignedSum2 tg w v n in
  let r := ratio s (AbsSum2 tg w v n) in
  if eqb (ScalarAbs s) pzero
  then Some (convert F64 (GetLane (Inf (ScalableTag tg F32))))
  else HWY_ASSERT (leb pzero r) r.
Proof.
  unfold ConditionNumber. rewrite cn_sums2_cascade, cn_result_cascade. reflexivity.
Qed.

(** The single-operand overload, in terms of the two sums. *)
Lemma ConditionNumber1_sums tg v n :
  ConditionNumber1 tg v n =
  let s := SignedSum1 tg v n in
  let r := ratio s (AbsSum1 tg v n) in
  if eqb (ScalarAbs s) pzero
  then Some (convert F64 (GetLane (Inf (ScalableTag tg F32))))
  else HWY_ASSERT (leb pzero r) r.
Proof.
  unfold ConditionNumber1. rewrite cn_sums1_cascade, cn_result_cascade. reflexivity.
Qed.

Lemma HWY_ASSERT_pinf r :
  HWY_ASSERT (leb pzero r) r = Some pinf <-> r = pinf.
Proof.
  unfold HWY_ASSERT. split.
  - destruct (leb pzero r); [intros E; now injection E | discriminate].
  - intros ->. reflexivity.
Qed.

(** C4, as amended.  [ConditionNumber(w, v, num)] returns positive
    infinity whenever the cascaded single-precision signed product sum
    rounds to exactly 0, whatever the absolute-product sum is; when the
    signed sum is not 0 it forms the ratio
    [2 * sum(|w.*v|) / |sum(w.*v)|] in double precision and returns it if
    it is [>= 0], the assertion stopping the call otherwise.  So the
    result is positive infinity exactly when the signed sum rounds to 0
    or the ratio itself is positive infinity. *)
Theorem C4_condition_number_cases tg w v n :
  0 < TargetLanes tg F32 ->
  let s := SignedSum2 tg w v n in
  let r := ratio s (AbsSum2 tg w v n) in
  (eqb (ScalarAbs s) pzero = true -> ConditionNumber tg w v n = Some pinf) /\
  (eqb (ScalarAbs s) pzero = false ->
     ConditionNumber tg w v n = HWY_ASSERT (leb pzero r) r) /\
  (ConditionNumber tg w v n = Some pinf <->
     eqb (ScalarAbs s) pzero = true \/ r = pinf).
Proof.
  intros HN s r. rewrite ConditionNumber_sums. fold s. fold r.
  rewrite GetLane_Inf by exact HN. cbn [convert].
  destruct (eqb (ScalarAbs s) pzero) eqn:E.
  - repeat split; auto. discriminate.
  - repeat split; auto; try discriminate.
    + intros H. right. now apply HWY_ASSERT_pinf.
    + intros [H|H]; [discriminate | now apply HWY_ASSERT_pinf].
Qed.

(** C5, as amended.  For every input, the value returned by either
    overload of [ConditionNumber], when the call returns one, is
    non-negative or exactly positive infinity.  The assertion that the
    computed ratio is [>= 0] can fail: the call returns no value if and only
    if the signed sum does not round to 0 and the ratio is not [>= 0]. *)
Theorem C5_condition_number_nonneg tg w v n :
  (match ConditionNumber tg w v n with
   | Some c => leb pzero c = true
   | None => True
   end /\
   (ConditionNumber tg w v n = None <->
    eqb (ScalarAbs (SignedSum2 tg w v n)) pzero = false /\
    leb pzero (ratio (SignedSum2 tg w v n) (AbsSum2 tg w v n)) = false)) /\
  (match ConditionNumber1 tg v n with
   | Some c => leb pzero c = true
   | None => True
   end /\
   (ConditionNumber1 tg v n = None <->
    eqb (ScalarAbs (SignedSum1 tg v n)) pzero = false /\
    leb pzero (ratio (SignedSum1 tg v n) (AbsSum1 tg v n)) = false)).
Proof.
  assert (I : leb pzero (convert F64 (GetLane (Inf (ScalableTag tg F32)))) = true).
  { unfold GetLane, Inf. destruct (Lanes (ScalableTag tg F32)); reflexivity. }
  rewrite ConditionNumber_sums, ConditionNumber1_sums. cbv zeta. split.
  - destruct (eqb (ScalarAbs (SignedSum2 tg w v n)) pzero).
    + split; [exact I|]. split; [discriminate | intros [F _]; discriminate F].
    + unfold HWY_ASSERT.
      destruct (leb pzero (ratio (SignedSum2 tg w v n) (AbsSum2 tg w v n))) eqn:L.
      * split; [exact L|]. split; [discriminate | intros [_ F]; discriminate F].
      * split; [exact Logic.I|]. split; auto.
  - destruct (eqb (ScalarAbs (SignedSum1 tg v n)) pzero).
    + split; [exact I|]. split; [discriminate | intros [F _]; discriminate F].
    + unfold HWY_ASSERT.
      destruct (leb pzero (ratio (SignedSum1 tg v n) (AbsSum1 tg v n))) eqn:L.
      * split; [exact L|]. split; [discriminate | intros [_ F]; discriminate F].
      * split; [exact Logic.I|]. split; auto.
Qed.

End CondResult.

Section CondSingle.
Context {FA : FpArith} {CO : Compress}.

(** C6, as amended.  For every vector whose cascaded single-precision
    signed sum does not round to zero, the single-operand overload forms
    [2 * sum(|v|) / |sum(v)|] in double precision, from sums of the
    vectors of [v] themselves (no product is taken), and returns it if it
    is [>= 0], the assertion stopping the call otherwise.  The value need
    not be that of the two-operand overload on [v] and [v]: for
    [v = [1, -2]] on a four-lane target the two differ. *)
Theorem C6_single_operand_ratio tg v n :
  let s := SignedSum1 tg v n in
  let r := ratio s (AbsSum1 tg v n) in
  (eqb (ScalarAbs s) pzero = false ->
     ConditionNumber1 tg v n = HWY_ASSERT (leb pzero r) r) /\
  ConditionNumber1 (FA := fp_arith_spec) (CO := compress_spec)
      (uniform_target 4) [f32 1; f32 (-2)] 2 <>
  ConditionNumber (FA := fp_arith_spec) (CO := compress_spec)
      (uniform_target 4) [f32 1; f32 (-2)] [f32 1; f32 (-2)] 2.
Proof.
  intros s r. split.
  - intros E. rewrite ConditionNumber1_sums. cbv zeta. subst r s. now rewrite E.
  - vm_compute. discriminate.
Qed.

End CondSingle.

(** ** The diagnostic on concrete inputs *)

Lemma reduce_zero_lanes k :
  fold_left reduce_lane (repeat (pzero, pzero) k) (pzero, pzero) = (pzero, pzero).
Proof. induction k as [|k IH]; [reflexivity|exact IH]. Qed.

Lemma combine_repeat {A B} (x : A) (y : B) k :
  combine (repeat x k) (repeat y k) = repeat (x, y) k.
Proof. induction k as [|k IH]; cbn [repeat combine]; [reflexivity|now rewrite IH]. Qed.

(** With no lane to add, the cascaded reduction yields exactly zero. *)
Lemma ReduceCascadedSums_Zero df :
  ReduceCascadedSums (FpArith := fp_arith_spec) df (Zero df) (Zero df) = pzero.
Proof.
  cbn [ReduceCascadedSums fp_arith_spec]. unfold spec_ReduceCascadedSums, Zero.
  rewrite combine_repeat, reduce_zero_lanes. reflexivity.
Qed.

Section EmptyInput.
Context {CO : Compress}.

Lemma vectors_of_empty tg v :
  0 < TargetLanes tg F32 -> vectors_of tg v 0 = [].
Proof.
  intros HN. unfold vectors_of. cbn [ScalableTag Lanes].
  destruct (Nat.leb_spec (2 * TargetLanes tg F32) 0); [lia|reflexivity].
Qed.

Lemma reduce_cascade_nil tg :
  reduce_cascade (FA := fp_arith_spec) tg [] = pzero.
Proof. unfold reduce_cascade, cascade. cbn [cascade_from fold_left fst snd].
       apply ReduceCascadedSums_Zero. Qed.

(** C10.  For [num = 0] both overloads of [ConditionNumber] return
    positive infinity: no vector is visited, the signed sum and the
    absolute sum are both exactly zero, and the test of the divisor
    against zero returns before the ratio is formed. *)
Theorem C10_empty_input_is_infinite tg w v :
  0 < TargetLanes tg F32 ->
  SignedSum2 (FA := fp_arith_spec) tg w v 0 = pzero /\
  AbsSum2 (FA := fp_arith_spec) tg w v 0 = pzero /\
  SignedSum1 (FA := fp_arith_spec) tg v 0 = pzero /\
  AbsSum1 (FA := fp_arith_spec) tg v 0 = pzero /\
  ConditionNumber (FA := fp_arith_spec) tg w v 0 = Some pinf /\
  ConditionNumber1 (FA := fp_arith_spec) tg v 0 = Some pinf.
Proof.
  intros HN.
  assert (S2 : SignedSum2 (FA := fp_arith_spec) tg w v 0 = pzero).
  { unfold SignedSum2, products_of. rewrite !vectors_of_empty by exact HN.
    apply reduce_cascade_nil. }
  assert (A2 : AbsSum2 (FA := fp_arith_spec) tg w v 0 = pzero).
  { unfold AbsSum2, products_of. rewrite !vectors_of_empty by exact HN.
    apply reduce_cascade_nil. }
  assert (S1 : SignedSum1 (FA := fp_arith_spec) tg v 0 = pzero).
  { unfold SignedSum1. rewrite vectors_of_empty by exact HN.
    apply reduce_cascade_nil. }
  assert (A1 : AbsSum1 (FA := fp_arith_spec) tg v 0 = pzero).
  { unfold AbsSum1. rewrite vectors_of_empty by exact HN.
    apply reduce_cascade_nil. }
  repeat split; auto.
  - rewrite ConditionNumber_sums, S2. cbv zeta. cbn [ScalarAbs abs SFabs].
    rewrite GetLane_Inf by exact HN. reflexivity.
  - rewrite ConditionNumber1_sums, S1. cbv zeta.
    rewrite GetLane_Inf by exact HN. reflexivity.
Qed.

End EmptyInput.

Lemma C10_empty_input_is_infinite_witness :
  0 < TargetLanes (uniform_target 4) F32 /\
  ConditionNumber (uniform_target 4) [] [] 0 = Some pinf /\
  ConditionNumber1 (uniform_target 4) [] 0 = Some pinf.
Proof.
  assert (HN : 0 < TargetLanes (uniform_target 4) F32) by (cbn; lia).
  split; [exact HN|].
  destruct (C10_empty_input_is_infinite (uniform_target 4) [] [] HN)
    as (_ & _ & _ & _ & H2 & H1).
  split; [exact H2 | exact H1].
Defined.

Lemma C4_condition_number_cases_witness :
  0 < TargetLanes (uniform_target 4) F32 /\
  ConditionNumber (uniform_target 4)
    [f32 1; f32 2; f32 3; f32 4] [f32 4; f32 3; f32 2; f32 1] 4 = Some (of_Z F64 2).
Proof.
  assert (HN : 0 < TargetLanes (uniform_target 4) F32) by (cbn; lia).
  split; [exact HN|].
  destruct (C4_condition_number_cases (uniform_target 4)
              [f32 1; f32 2; f32 3; f32 4] [f32 4; f32 3; f32 2; f32 1] 4 HN)
    as (_ & H & _).
  rewrite H; vm_compute; reflexivity.
Defined.

(** C4, as stated, fails.  On an all-zero input the result is positive
    infinity although the absolute-product sum is not greater than 0.  In
    the other cases the finite ratio need not come back: with a NaN among
    the inputs the assertion stops the call, and on [w_inf_ratio] the signed
    sum is not 0 and the returned ratio is positive infinity. *)
Lemma C4_counterexample :
  ~ (ConditionNumber (uniform_target 4) [f32 0] [f32 0] 1 = Some pinf <->
     eqb (SignedSum2 (uniform_target 4) [f32 0] [f32 0] 1) pzero = true /\
     ltb pzero (AbsSum2 (uniform_target 4) [f32 0] [f32 0] 1) = true) /\
  ConditionNumber (uniform_target 4) [nan] [f32 1] 1 = None /\
  (eqb (SignedSum2 (uniform_target 4) w_inf_ratio v_nine_ones 9) pzero = false /\
   ConditionNumber (uniform_target 4) w_inf_ratio v_nine_ones 9 = Some pinf).
Proof.
  split; [|split; [|split]]; try (vm_compute; reflexivity).
  intros [H _].
  assert (E : ConditionNumber (uniform_target 4) [f32 0] [f32 0] 1 = Some pinf)
    by (vm_compute; reflexivity).
  destruct (H E) as [_ L]. vm_compute in L. discriminate L.
Qed.

(** C5, as stated, fails: on these inputs the assertion that the ratio is
    [>= 0] fails and no value is returned.  With a NaN operand the ratio is
    NaN, for either overload; on the finite [v_overflow] the signed sum is 1
    and the sum of the absolute values is not a number. *)
Lemma C5_counterexample :
  ConditionNumber (uniform_target 4) [nan] [f32 1] 1 = None /\
  ConditionNumber1 (uniform_target 4) [nan] 1 = None /\
  ConditionNumber1 (uniform_target 4) v_overflow 9 = None.
Proof. repeat split; vm_compute; reflexivity. Qed.

(** C6, as stated, fails: the signed sum of [[NaN]] does not round to
    zero, yet the call is stopped by the assertion and does not return the
    ratio; likewise on the finite [v_overflow], whose signed sum is 1. *)
Lemma C6_counterexample :
  (eqb (ScalarAbs (SignedSum1 (uniform_target 4) [nan] 1)) pzero = false /\
   ConditionNumber1 (uniform_target 4) [nan] 1 <>
     Some (ratio (SignedSum1 (uniform_target 4) [nan] 1)
                 (AbsSum1 (uniform_target 4) [nan] 1))) /\
  (SignedSum1 (uniform_target 4) v_overflow 9 = f32 1 /\
   ConditionNumber1 (uniform_target 4) v_overflow 9 <>
     Some (ratio (SignedSum1 (uniform_target 4) v_overflow 9)
                 (AbsSum1 (uniform_target 4) v_overflow 9))).
Proof.
  repeat split; try (vm_compute; reflexivity); vm_compute; discriminate.
Qed.

Lemma C6_single_operand_ratio_witness :
  eqb (ScalarAbs (SignedSum1 (uniform_target 4) [f32 1; f32 (-2)] 2)) pzero = false /\
  ConditionNumber1 (uniform_target 4) [f32 1; f32 (-2)] 2 = Some (of_Z F64 6).
Proof.
  assert (E : eqb (ScalarAbs (SignedSum1 (uniform_target 4) [f32 1; f32 (-2)] 2)) pzero
              = false) by (vm_compute; reflexivity).
  split; [exact E|].
  destruct (C6_single_operand_ratio (uniform_target 4) [f32 1; f32 (-2)] 2) as [H _].
  rewrite (H E); vm_compute; reflexivity.
Defined.

(* ------------------------------------------------------------------ *)
(** ** The updates of the compensated kernel *)

Section CompensatedUpdates.
Context {FA : FpArith}.

(** One lane pair of the full-precision update: the product and its
    error by [TwoProducts], the sum and its error by [TwoSums], both
    errors added to the compensation. *)
Lemma Update1_float_transforms df w v s c :
  DotKernelCompensated_Update1 df w v s c =
  (fst (TwoSums df (fst (TwoProducts df w v)) s),
   Add F32 c (Add F32 (snd (TwoProducts df w v))
                      (snd (TwoSums df (fst (TwoProducts df w v)) s)))).
Proof.
  unfold DotKernelCompensated_Update1.
  destruct (TwoProducts df w v) as [prod perr]. cbn [fst snd].
  destruct (TwoSums df prod s) as [s' serr]. reflexivity.
Qed.

(** C7.  The four-wide update of the full-precision path treats each of
    its four lanes as the single-wide update does: the product and its
    rounding error come from [TwoProducts], the product is added to that
    lane's sum by [TwoSums], and both rounding errors are added to that
    lane's compensation.  The new sum and compensation of a lane depend
    on that lane's operands and accumulators only. *)
Theorem C7_update4_float_lanes df w0 w1 w2 w3 v0 v1 v2 v3 acc :
  let lane w v s c :=
    (fst (TwoSums df (fst (TwoProducts df w v)) s),
     Add F32 c (Add F32 (snd (TwoProducts df w v))
                        (snd (TwoSums df (fst (TwoProducts df w v)) s)))) in
  let acc' := DotKernelCompensated_Update4 df w0 w1 w2 w3 v0 v1 v2 v3 acc in
  (sum0 acc', comp0 acc') = lane w0 v0 (sum0 acc) (comp0 acc) /\
  (sum1 acc', comp1 acc') = lane w1 v1 (sum1 acc) (comp1 acc) /\
  (sum2 acc', comp2 acc') = lane w2 v2 (sum2 acc) (comp2 acc) /\
  (sum3 acc', comp3 acc') = lane w3 v3 (sum3 acc) (comp3 acc) /\
  (sum0 acc', comp0 acc') = DotKernelCompensated_Update1 df w0 v0 (sum0 acc) (comp0 acc) /\
  (sum1 acc', comp1 acc') = DotKernelCompensated_Update1 df w1 v1 (sum1 acc) (comp1 acc) /\
  (sum2 acc', comp2 acc') = DotKernelCompensated_Update1 df w2 v2 (sum2 acc) (comp2 acc) /\
  (sum3 acc', comp3 acc') = DotKernelCompensated_Update1 df w3 v3 (sum3 acc) (comp3 acc).
Proof.
  intros lane acc'. subst acc' lane. cbv beta.
  rewrite !Update1_float_transforms.
  unfold DotKernelCompensated_Update4.
  destruct (TwoProducts df w0 v0) as [p0 pe0], (TwoProducts df w1 v1) as [p1 pe1],
           (TwoProducts df w2 v2) as [p2 pe2], (TwoProducts df w3 v3) as [p3 pe3].
  cbn [fst snd].
  destruct (TwoSums df p0 (sum0 acc)) as [s0 e0], (TwoSums df p1 (sum1 acc)) as [s1 e1],
           (TwoSums df p2 (sum2 acc)) as [s2 e2], (TwoSums df p3 (sum3 acc)) as [s3 e3].
  cbn. repeat split.
Qed.

(** One lane pair of the narrow update: the product by the widening
    pairwise multiply-add, the sum and its error by [TwoSums], that error
    alone added to the compensation. *)
Lemma Update1_BF16_transforms draw w v s c :
  DotKernelCompensated_Update1_BF16 draw w v s c =
  let df := Repartition F32 draw in
  (fst (TwoSums df (WidenMulPairwiseAdd df w v) s),
   Add F32 c (snd (TwoSums df (WidenMulPairwiseAdd df w v) s))).
Proof.
  unfold DotKernelCompensated_Update1_BF16. cbv zeta.
  destruct (TwoSums _ _ s) as [s' serr]. reflexivity.
Qed.

End CompensatedUpdates.

Section CompensatedNarrow.
Context {FA : FpArith}.

(** C8.  On the narrow path the four-wide and the single-wide update form
    each product by the widening pairwise multiply-add, add it to the
    lane's sum by [TwoSums] and add the error of that sum alone to the
    lane's compensation.  No product error takes part: the updates are
    the same whatever [TwoProducts] is. *)
Theorem C8_update_BF16_sum_error_only draw w0 w1 w2 w3 v0 v1 v2 v3 acc :
  let df := Repartition F32 draw in
  let lane w v s c :=
    (fst (TwoSums df (WidenMulPairwiseAdd df w v) s),
     Add F32 c (snd (TwoSums df (WidenMulPairwiseAdd df w v) s))) in
  let acc' := DotKernelCompensated_Update4_BF16 draw w0 w1 w2 w3 v0 v1 v2 v3 acc in
  ((sum0 acc', comp0 acc') = lane w0 v0 (sum0 acc) (comp0 acc) /\
   (sum1 acc', comp1 acc') = lane w1 v1 (sum1 acc) (comp1 acc) /\
   (sum2 acc', comp2 acc') = lane w2 v2 (sum2 acc) (comp2 acc) /\
   (sum3 acc', comp3 acc') = lane w3 v3 (sum3 acc) (comp3 acc)) /\
  (forall s c, DotKernelCompensated_Update1_BF16 draw w0 v0 s c = lane w0 v0 s c) /\
  (forall tp,
     DotKernelCompensated_Update4_BF16 (FA := with_TwoProducts FA tp)
       draw w0 w1 w2 w3 v0 v1 v2 v3 acc = acc' /\
     forall s c,
       DotKernelCompensated_Update1_BF16 (FA := with_TwoProducts FA tp) draw w0 v0 s c =
       DotKernelCompensated_Update1_BF16 draw w0 v0 s c).
Proof.
  intros df lane acc'. subst acc' lane. cbv beta. split; [|split].
  - unfold DotKernelCompensated_Update4_BF16. fold df.
    destruct (TwoSums df (WidenMulPairwiseAdd df w0 v0) (sum0 acc)) as [s0 e0],
             (TwoSums df (WidenMulPairwiseAdd df w1 v1) (sum1 acc)) as [s1 e1],
             (TwoSums df (WidenMulPairwiseAdd df w2 v2) (sum2 acc)) as [s2 e2],
             (TwoSums df (WidenMulPairwiseAdd df w3 v3) (sum3 acc)) as [s3 e3].
    cbn. repeat split.
  - intros s c. apply Update1_BF16_transforms.
  - intros tp. split; [reflexivity | intros s c; reflexivity].
Qed.

End CompensatedNarrow.

(* ------------------------------------------------------------------ *)
(** ** The choice of the kernel and the adapters *)

Lemma DotKernelDouble_not_Compensated {FA : FpArith} :
  DotKernelDouble <> DotKernelCompensated.
Proof. intros E. apply (f_equal State) in E. discriminate E. Qed.

Section KernelChoice.
Context {FA : FpArith} {CO : Compress}.
Variable CanDecompressToDouble : ElemType -> ElemType -> bool.
Variable tg : Target.

(** C3.  The kernel of [Dot] is a function of the two element types
    alone: [DotKernelDouble] exactly when [CanDecompressToDouble] holds of
    the pair, [DotKernelCompensated] otherwise; [Dot] hands that kernel to
    the driver, whatever the spans, offset and length of the call. *)
Theorem C3_kernel_by_type_pair WT VT :
  (DotKernelDefault CanDecompressToDouble WT VT = DotKernelDouble <->
     CanDecompressToDouble WT VT = true) /\
  (DotKernelDefault CanDecompressToDouble WT VT = DotKernelCompensated <->
     CanDecompressToDouble WT VT = false) /\
  (forall d w w_ofs vec n,
     Dot CanDecompressToDouble WT VT d w w_ofs vec n =
     DecompressAndCall WT VT d w w_ofs (MakeSpan vec n)
       (if CanDecompressToDouble WT VT then DotKernelDouble else DotKernelCompensated)).
Proof.
  unfold DotKernelDefault.
  pose proof DotKernelDouble_not_Compensated as NE.
  split; [|split].
  - destruct (CanDecompressToDouble WT VT); split; auto; try discriminate;
      intros H; exfalso; apply NE; now symmetry.
  - destruct (CanDecompressToDouble WT VT); split; auto; try discriminate;
      intros H; exfalso; now apply NE.
  - intros d w w_ofs vec n. reflexivity.
Qed.

(** C9.  The adapter for a [CompressedArray] returns the stored scale
    multiplied by the unscaled [Dot] of the stored elements; that inner
    value does not depend on the scale, which so enters once, after the
    reduction.  The adapters for two pointers and for a fixed-capacity
    buffer are the unscaled [Dot]; on the same [float] elements the
    compressed adapter is the scale times the buffer adapter. *)
Theorem C9_scale_applied_once MatT kCapacity VT elems s w w_ofs vec n :
  Dot_compressed CanDecompressToDouble tg MatT kCapacity VT
    {| data := elems; scale := s |} w_ofs vec n =
  mul F32 s
    (Dot CanDecompressToDouble MatT (T_lane VT) (ScalableTag tg VT)
       (MakeConstSpan elems kCapacity) w_ofs vec n) /\
  Dot_compressed CanDecompressToDouble tg T_float kCapacity VT
    {| data := elems; scale := s |} w_ofs vec n =
  mul F32 s (Dot_array CanDecompressToDouble tg kCapacity VT elems w_ofs vec n) /\
  Dot_ptr CanDecompressToDouble tg MatT VT w vec n =
  Dot CanDecompressToDouble MatT (T_lane VT) (ScalableTag tg VT)
    (MakeConstSpan w n) 0 vec n /\
  Dot_array CanDecompressToDouble tg kCapacity VT w w_ofs vec n =
  Dot CanDecompressToDouble T_float (T_lane VT) (ScalableTag tg VT)
    (MakeConstSpan w kCapacity) w_ofs vec n.
Proof. repeat split. Qed.

End KernelChoice.

(* ------------------------------------------------------------------ *)
(** ** The scenario [w = [1,2,3,4]], [v = [4,3,2,1]] *)

Section PaddedLanes.

Lemma firstn_repeat_le {A} (x : A) k : forall m,
  k <= m -> firstn k (repeat x m) = repeat x k.
Proof.
  induction k as [|k IH]; intros [|m] H; cbn [repeat firstn]; try reflexivity; try lia.
  f_equal. apply IH. lia.
Qed.

Lemma Load_padded_buffer d (l : Vec) m k :
  Lanes d = length l + k -> k <= m ->
  Load d (l ++ repeat pzero m) 0 = padded l k.
Proof.
  intros HL Hk. unfold Load, padded. rewrite HL. cbn [skipn].
  rewrite firstn_app, Nat.add_comm, Nat.add_sub.
  rewrite firstn_all2 by lia. now rewrite firstn_repeat_le.
Qed.

Lemma Zero_padded d n k : Lanes d = n + k -> Zero d = padded (repeat pzero n) k.
Proof. intros HL. unfold Zero, padded. rewrite HL. apply repeat_app. Qed.

Lemma map2_repeat {A B C} (f : A -> B -> C) x y k :
  map2 f (repeat x k) (repeat y k) = repeat (f x y) k.
Proof. induction k as [|k IH]; cbn [repeat map2]; [reflexivity|now rewrite IH]. Qed.

Lemma map3_repeat {A B C D} (f : A -> B -> C -> D) x y z k :
  map3 f (repeat x k) (repeat y k) (repeat z k) = repeat (f x y z) k.
Proof. induction k as [|k IH]; cbn [repeat map3]; [reflexivity|now rewrite IH]. Qed.

Lemma map3_app {A B C D} (f : A -> B -> C -> D) a a' b b' c c' :
  length a = length b -> length a = length c ->
  map3 f (a ++ a') (b ++ b') (c ++ c') = map3 f a b c ++ map3 f a' b' c'.
Proof.
  revert b c; induction a as [|x a IH]; intros [|y b] [|z c] L1 L2;
    try discriminate L1; try discriminate L2.
  - reflexivity.
  - cbn [app map3]. f_equal. apply IH; [now injection L1 | now injection L2].
Qed.

Lemma map2_padded (f : float -> float -> float) a b k :
  f pzero pzero = pzero -> length a = length b ->
  map2 f (padded a k) (padded b k) = padded (map2 f a b) k.
Proof.
  intros Hf L. unfold padded. rewrite map2_app by exact L.
  now rewrite map2_repeat, Hf.
Qed.

Lemma map3_padded (f : float -> float -> float -> float) a b c k :
  f pzero pzero pzero = pzero -> length a = length b -> length a = length c ->
  map3 f (padded a k) (padded b k) (padded c k) = padded (map3 f a b c) k.
Proof.
  intros Hf L1 L2. unfold padded. rewrite map3_app by assumption.
  now rewrite map3_repeat, Hf.
Qed.

Lemma Add_padded t a b k :
  length a = length b -> Add t (padded a k) (padded b k) = padded (Add t a b) k.
Proof. intros L. apply map2_padded; [now destruct t | exact L]. Qed.

Lemma MulAdd_padded t a b c k :
  length a = length b -> length a = length c ->
  MulAdd t (padded a k) (padded b k) (padded c k) = padded (MulAdd t a b c) k.
Proof. intros L1 L2. apply map3_padded; [now destruct t | exact L1 | exact L2]. Qed.

Lemma fold_left_fixed {A B} (f : A -> B -> A) acc x k :
  f acc x = acc -> fold_left f (repeat x k) acc = acc.
Proof.
  intros Hf. induction k as [|k IH]; cbn [repeat fold_left]; [reflexivity|].
  now rewrite Hf.
Qed.

(** Zero lanes past the first leave the lane sum as it is, when adding
    zero leaves the sum of the other lanes as it is. *)
Lemma ReduceSum_padded d x l k :
  add (tag_lane d) (ReduceSum d (x :: l)) pzero = ReduceSum d (x :: l) ->
  ReduceSum d (padded (x :: l) k) = ReduceSum d (x :: l).
Proof.
  unfold padded. cbn [ReduceSum app]. intros H.
  rewrite fold_left_app. now apply fold_left_fixed.
Qed.

Lemma lanewise2_padded f a b k :
  f pzero pzero = (pzero, pzero) -> length a = length b ->
  lanewise2 f (padded a k) (padded b k) =
  (padded (fst (lanewise2 f a b)) k, padded (snd (lanewise2 f a b)) k).
Proof.
  intros Hf L. unfold lanewise2. cbn [fst snd].
  rewrite !map2_padded; try exact L; try now rewrite Hf. reflexivity.
Qed.

Lemma lanewise2_length_fst f a b :
  length a = length b -> length (fst (lanewise2 f a b)) = length a.
Proof.
  cbn [lanewise2 fst]. revert b; induction a as [|x a IH]; intros [|y b] L;
    try discriminate L; cbn [map2 length]; [reflexivity|].
  f_equal. apply IH. now injection L.
Qed.

Lemma combine_app {A B} (a a' : list A) (b b' : list B) :
  length a = length b -> combine (a ++ a') (b ++ b') = combine a b ++ combine a' b'.
Proof.
  revert b; induction a as [|x a IH]; intros [|y b] L; try discriminate L.
  - reflexivity.
  - cbn [app combine]. f_equal. apply IH. now injection L.
Qed.

(** Zero lanes leave the cascaded reduction as it is, when one more zero
    lane leaves the running total and compensation as they are. *)
Lemma ReduceCascadedSums_padded df s e k :
  length s = length e ->
  reduce_lane (fold_left reduce_lane (combine s e) (pzero, pzero)) (pzero, pzero) =
    fold_left reduce_lane (combine s e) (pzero, pzero) ->
  spec_ReduceCascadedSums df (padded s k) (padded e k) = spec_ReduceCascadedSums df s e.
Proof.
  intros L H. unfold spec_ReduceCascadedSums, padded.
  rewrite combine_app by exact L. rewrite combine_repeat, fold_left_app.
  now rewrite fold_left_fixed.
Qed.

End PaddedLanes.

Section DriverOneVector.
Context {CO : Compress}.

(** With at most one vector of elements the driver makes one single-wide
    update on the zero-padded inputs and reduces. *)
Lemma dac_run_one_vector kernel d_raw d_state w w_ofs vec :
  0 < num vec -> num vec <= Lanes d_raw ->
  dac_run kernel d_raw d_state w w_ofs vec =
  let z := Zero d_state in
  let padded_w :=
    DecompressAndZeroPad d_raw w (w_ofs + 0) (4 * MaxLanes d_raw) (num vec) in
  let padded_v := DecompressAndZeroPad d_raw vec 0 (4 * MaxLanes d_raw) (num vec) in
  let sc := Update1 kernel d_raw (Load d_raw padded_w 0) (Load d_raw padded_v 0) z z in
  Reduce kernel d_state
    {| sum0 := fst sc; sum1 := z; sum2 := z; sum3 := z;
       comp0 := snd sc; comp1 := z; comp2 := z; comp3 := z |}.
Proof.
  intros Hpos Hle. unfold dac_run. cbv zeta.
  destruct (Nat.leb_spec (4 * Lanes d_raw) (num vec)) as [H4|H4]; [lia|].
  rewrite Nat.sub_0_r.
  destruct (Nat.eqb_spec (num vec) 0) as [E0|E0]; [lia|]. cbn [negb].
  destruct (num vec) as [|m] eqn:En; [lia|].
  cbn [dac_tail]. destruct (Nat.ltb_spec 0 (S m)) as [_|F]; [|lia].
  cbn [sum0 comp0 Nat.add].
  destruct m as [|m]; [reflexivity|].
  cbn [dac_tail]. destruct (Nat.ltb_spec (Lanes d_raw) (S (S m))) as [F|_]; [lia|].
  reflexivity.
Qed.

End DriverOneVector.

Lemma ceil_div_pos a b : 0 < a -> 0 < b -> 0 < ceil_div a b.
Proof.
  intros Ha Hb. unfold ceil_div.
  apply Nat.div_str_pos. lia.
Qed.

Lemma ceil_div_le a a' b : a <= a' -> ceil_div a b <= ceil_div a' b.
Proof.
  intros H. unfold ceil_div. apply Nat.Div0.div_le_mono. lia.
Qed.

Lemma ceil_div_mul n b : 0 < b -> ceil_div (n * b) b = n.
Proof.
  intros Hb. unfold ceil_div.
  replace (n * b + b - 1) with (b - 1 + n * b) by lia.
  rewrite Nat.div_add by lia. rewrite Nat.div_small by lia. reflexivity.
Qed.

(** Replaces the known lanes of a zero-padded vector by their values. *)
Ltac eval_padded k :=
  repeat match goal with
  | |- context [padded ?L k] =>
      lazymatch L with
      | cons _ _ => fail
      | nil => fail
      | _ => let v := eval vm_compute in L in
             replace L with v by (vm_compute; reflexivity)
      end
  end.

(** One step of pushing the zero lanes outwards. *)
Ltac padded_step k :=
  first [ rewrite lanewise2_padded by (vm_compute; reflexivity)
        | rewrite Add_padded by (vm_compute; reflexivity) ];
  eval_padded k;
  cbn [fst snd sum0 sum1 sum2 sum3 comp0 comp1 comp2 comp3].

Lemma scenario_double_run N ML :
  0 < N -> N <= ML ->
  dac_run DotKernelDouble
    {| tag_lane := F64; Lanes := N; MaxLanes := ML |}
    {| tag_lane := F64; Lanes := N; MaxLanes := ML |}
    (MakeConstSpan w1234 4) 0 (MakeSpan v4321 4) = f32 20.
Proof.
  intros HN HM. destruct N as [|[|[|[|k]]]].
  - lia.
  - vm_compute; reflexivity.
  - vm_compute; reflexivity.
  - unfold dac_run. cbn [Lanes MaxLanes].
    replace (4 * ML) with (12 + (4 * ML - 12)) by lia.
    vm_compute; reflexivity.
  - rewrite dac_run_one_vector by (cbn; lia). cbv zeta.
    cbn [DecompressAndZeroPad compress_spec]. unfold spec_DecompressAndZeroPad.
    cbn [num ptr MakeSpan MakeConstSpan tag_lane MaxLanes Nat.add skipn firstn
         w1234 v4321 map].
    rewrite !(@Load_padded_buffer _ _ _ k) by (cbn; lia).
    rewrite (@Zero_padded _ 4 k) by reflexivity.
    cbn [Update1 Reduce DotKernelDouble].
    unfold DotKernelDouble_Update1, DotKernelDouble_Reduce.
    cbn [sum0 sum1 sum2 sum3 fst snd].
    rewrite MulAdd_padded by reflexivity. eval_padded k.
    rewrite !Add_padded by reflexivity. eval_padded k.
    rewrite ReduceSum_padded by (vm_compute; reflexivity).
    vm_compute; reflexivity.
Qed.

Lemma scenario_compensated_run N ML :
  0 < N -> N <= ML ->
  dac_run DotKernelCompensated
    {| tag_lane := F32; Lanes := N; MaxLanes := ML |}
    {| tag_lane := F32; Lanes := N; MaxLanes := ML |}
    (MakeConstSpan w1234 4) 0 (MakeSpan v4321 4) = f32 20.
Proof.
  intros HN HM. destruct N as [|[|[|[|k]]]].
  - lia.
  - vm_compute; reflexivity.
  - vm_compute; reflexivity.
  - unfold dac_run. cbn [Lanes MaxLanes].
    replace (4 * ML) with (12 + (4 * ML - 12)) by lia.
    vm_compute; reflexivity.
  - rewrite dac_run_one_vector by (cbn; lia). cbv zeta.
    cbn [DecompressAndZeroPad compress_spec]. unfold spec_DecompressAndZeroPad.
    cbn [num ptr MakeSpan MakeConstSpan tag_lane MaxLanes Nat.add skipn firstn
         w1234 v4321 map].
    rewrite !(@Load_padded_buffer _ _ _ k) by (cbn; lia).
    rewrite (@Zero_padded _ 4 k) by reflexivity.
    cbn [Update1 Reduce DotKernelCompensated tag_lane].
    unfold DotKernelCompensated_Update1, DotKernelCompensated_Reduce.
    cbn [TwoProducts TwoSums AssimilateCascadedSums ReduceCascadedSums fp_arith_spec].
    unfold spec_AssimilateCascadedSums, spec_UpdateCascadedSums,
      spec_TwoProducts, spec_TwoSums.
    repeat (padded_step k).
    rewrite ReduceCascadedSums_padded by (vm_compute; reflexivity).
    vm_compute; reflexivity.
Qed.

(** C2.  For the single-precision inputs [w = [1,2,3,4]] and
    [v = [4,3,2,1]] of length 4, [Dot] returns exactly [20.0] with
    [DotKernelDouble] and with [DotKernelCompensated], on every target
    (any number of lanes per vector), whichever kernel the type pair
    selects. *)
Theorem C2_dot_1234_4321 (CanDecompressToDouble : ElemType -> ElemType -> bool) tg :
  0 < TargetLanes tg F32 -> TargetLanes tg F32 <= TargetMaxLanes tg F32 ->
  let d := ScalableTag tg F32 in
  DotDouble T_float T_float d (MakeConstSpan w1234 4) 0 v4321 4 = f32 20 /\
  DecompressAndCall T_float T_float d (MakeConstSpan w1234 4) 0 (MakeSpan v4321 4)
    DotKernelCompensated = f32 20 /\
  Dot CanDecompressToDouble T_float T_float d (MakeConstSpan w1234 4) 0 v4321 4 = f32 20 /\
  Dot_ptr CanDecompressToDouble tg T_float F32 w1234 v4321 4 = f32 20.
Proof.
  intros HN HM d.
  assert (D : DotDouble T_float T_float d (MakeConstSpan w1234 4) 0 v4321 4 = f32 20).
  { unfold DotDouble, DecompressAndCall. cbn [Raw State DotKernelDouble].
    unfold Repartition. cbn [tag_lane Lanes MaxLanes d ScalableTag sizeof].
    apply scenario_double_run.
    - apply ceil_div_pos; lia.
    - apply ceil_div_le; lia. }
  assert (C : DecompressAndCall T_float T_float d (MakeConstSpan w1234 4) 0
                (MakeSpan v4321 4) DotKernelCompensated = f32 20).
  { unfold DecompressAndCall. cbn [Raw State DotKernelCompensated IsF32 T_float orb].
    unfold Repartition. cbn [tag_lane Lanes MaxLanes d ScalableTag sizeof].
    rewrite !ceil_div_mul by lia.
    apply scenario_compensated_run; assumption. }
  assert (K : Dot CanDecompressToDouble T_float T_float d (MakeConstSpan w1234 4) 0
                v4321 4 = f32 20).
  { unfold Dot, DotKernelDefault.
    destruct (CanDecompressToDouble T_float T_float); [exact D | exact C]. }
  repeat split; assumption.
Qed.

Lemma C2_dot_1234_4321_witness :
  0 < TargetLanes (vector_target 16) F32 /\
  TargetLanes (vector_target 16) F32 <= TargetMaxLanes (vector_target 16) F32 /\
  Dot_ptr (fun WT VT => IsF32 WT && IsF32 VT) (vector_target 16) T_float F32
    w1234 v4321 4 = f32 20.
Proof.
  assert (HN : 0 < TargetLanes (vector_target 16) F32) by (cbn; lia).
  assert (HM : TargetLanes (vector_target 16) F32 <= TargetMaxLanes (vector_target 16) F32)
    by (cbn; lia).
  split; [exact HN|]. split; [exact HM|].
  exact (proj2 (proj2 (proj2
    (C2_dot_1234_4321 (fun WT VT => IsF32 WT && IsF32 VT) (vector_target 16) HN HM)))).
Defined.

(* ------------------------------------------------------------------ *)
(** ** The cancellation scenario *)

(** On [w = [1e8, 1, -1e8, 1]], [v = [1, 1, 1, 1]], whose exact dot product
    is 2, both kernels return 2 and the diagnostic reports 2e8, for vectors
    of 1 to 16 lanes. *)
Lemma scenario_cancellation :
  Forall (fun n =>
    let d := ScalableTag (uniform_target n) F32 in
    DecompressAndCall T_float T_float d (MakeConstSpan w_cancel 4) 0
      (MakeSpan v_ones 4) DotKernelCompensated = f32 2 /\
    DotDouble T_float T_float d (MakeConstSpan w_cancel 4) 0 v_ones 4 = f32 2 /\
    ConditionNumber (uniform_target n) w_cancel v_ones 4 = Some (of_Z F64 200000000))
  [1; 2; 4; 8; 16].
Proof. repeat constructor; vm_compute; reflexivity. Qed.

(* ------------------------------------------------------------------ *)
(** ** The loops stop by their tests *)

Section Fuel.
Context {CO : Compress}.

(** More fuel than the elements left changes nothing: the loops of the
    diagnostic and of the driver end because their tests fail. *)
Lemma blocks_end_fuel df n :
  0 < Lanes df -> 2 * Lanes df <= n ->
  forall fuel i, n - i <= fuel ->
  blocks_end (S fuel) df n i = blocks_end fuel df n i.
Proof.
  intros HN Hn. induction fuel as [|fuel IH]; intros i Hf.
  - cbn [blocks_end]. destruct (Nat.leb_spec i (n - 2 * Lanes df)); [lia|reflexivity].
  - change (blocks_end (S (S fuel)) df n i)
      with (if i <=? n - 2 * Lanes df
            then blocks_end (S fuel) df n (i + 2 * Lanes df) else i).
    change (blocks_end (S fuel) df n i)
      with (if i <=? n - 2 * Lanes df
            then blocks_end fuel df n (i + 2 * Lanes df) else i).
    destruct (i <=? n - 2 * Lanes df); [|reflexivity]. apply IH. lia.
Qed.

Lemma block_vectors_fuel df packed n :
  0 < Lanes df -> 2 * Lanes df <= n ->
  forall fuel i, n - i <= fuel ->
  block_vectors (S fuel) df packed n i = block_vectors fuel df packed n i.
Proof.
  intros HN Hn. induction fuel as [|fuel IH]; intros i Hf.
  - cbn [block_vectors]. destruct (Nat.leb_spec i (n - 2 * Lanes df)); [lia|reflexivity].
  - change (block_vectors (S (S fuel)) df packed n i)
      with (if i <=? n - 2 * Lanes df
            then fst (Decompress2 df packed i) :: snd (Decompress2 df packed i)
                   :: block_vectors (S fuel) df packed n (i + 2 * Lanes df)
            else []).
    change (block_vectors (S fuel) df packed n i)
      with (if i <=? n - 2 * Lanes df
            then fst (Decompress2 df packed i) :: snd (Decompress2 df packed i)
                   :: block_vectors fuel df packed n (i + 2 * Lanes df)
            else []).
    destruct (i <=? n - 2 * Lanes df); [|reflexivity]. do 2 f_equal. apply IH. lia.
Qed.

Lemma tail_vectors_fuel df padded remaining :
  0 < Lanes df ->
  forall fuel pos, remaining - pos <= fuel ->
  tail_vectors (S fuel) df padded remaining pos = tail_vectors fuel df padded remaining pos.
Proof.
  intros HN. induction fuel as [|fuel IH]; intros pos Hf.
  - cbn [tail_vectors]. destruct (Nat.ltb_spec pos remaining); [lia|reflexivity].
  - change (tail_vectors (S (S fuel)) df padded remaining pos)
      with (if pos <? remaining
            then Load df padded pos
                   :: tail_vectors (S fuel) df padded remaining (pos + Lanes df)
            else []).
    change (tail_vectors (S fuel) df padded remaining pos)
      with (if pos <? remaining
            then Load df padded pos
                   :: tail_vectors fuel df padded remaining (pos + Lanes df)
            else []).
    destruct (pos <? remaining); [|reflexivity]. f_equal. apply IH. lia.
Qed.

Lemma dac_loop_step fuel kernel d_raw w w_ofs vec i acc :
  dac_loop (S fuel) kernel d_raw w w_ofs vec i acc =
  if i <=? num vec - 4 * Lanes d_raw then
    dac_loop fuel kernel d_raw w w_ofs vec (i + 4 * Lanes d_raw)
      (Update4 kernel d_raw
         (fst (Decompress2 d_raw w (w_ofs + i)))
         (snd (Decompress2 d_raw w (w_ofs + i)))
         (fst (Decompress2 d_raw w (w_ofs + i + 2 * Lanes d_raw)))
         (snd (Decompress2 d_raw w (w_ofs + i + 2 * Lanes d_raw)))
         (fst (Decompress2 d_raw vec i))
         (snd (Decompress2 d_raw vec i))
         (fst (Decompress2 d_raw vec (i + 2 * Lanes d_raw)))
         (snd (Decompress2 d_raw vec (i + 2 * Lanes d_raw))) acc)
  else (i, acc).
Proof.
  cbn [dac_loop]. cbv zeta.
  destruct (i <=? num vec - 4 * Lanes d_raw); [|reflexivity].
  destruct (Decompress2 d_raw w (w_ofs + i)) as [w0 w1].
  destruct (Decompress2 d_raw w (w_ofs + i + 2 * Lanes d_raw)) as [w2 w3].
  destruct (Decompress2 d_raw vec i) as [v0 v1].
  destruct (Decompress2 d_raw vec (i + 2 * Lanes d_raw)) as [v2 v3].
  reflexivity.
Qed.

Lemma dac_loop_fuel kernel d_raw w w_ofs vec :
  0 < Lanes d_raw -> 4 * Lanes d_raw <= num vec ->
  forall fuel i acc, num vec - i <= fuel ->
  dac_loop (S fuel) kernel d_raw w w_ofs vec i acc =
  dac_loop fuel kernel d_raw w w_ofs vec i acc.
Proof.
  intros HN Hn. induction fuel as [|fuel IH]; intros i acc Hf.
  - cbn [dac_loop]. destruct (Nat.leb_spec i (num vec - 4 * Lanes d_raw)); [lia|reflexivity].
  - rewrite (dac_loop_step (S fuel)), (dac_loop_step fuel kernel d_raw w w_ofs vec i acc).
    destruct (i <=? num vec - 4 * Lanes d_raw); [|reflexivity].
    apply IH. lia.
Qed.

Lemma dac_tail_step fuel kernel d_raw padded_w padded_v remaining pos acc :
  dac_tail (S fuel) kernel d_raw padded_w padded_v remaining pos acc =
  if pos <? remaining then
    dac_tail fuel kernel d_raw padded_w padded_v remaining (pos + Lanes d_raw)
      (set_sum0_comp0 acc
         (Update1 kernel d_raw (Load d_raw padded_w pos) (Load d_raw padded_v pos)
            (sum0 acc) (comp0 acc)))
  else acc.
Proof. reflexivity. Qed.

Lemma dac_tail_fuel kernel d_raw padded_w padded_v remaining :
  0 < Lanes d_raw ->
  forall fuel pos acc, remaining - pos <= fuel ->
  dac_tail (S fuel) kernel d_raw padded_w padded_v remaining pos acc =
  dac_tail fuel kernel d_raw padded_w padded_v remaining pos acc.
Proof.
  intros HN. induction fuel as [|fuel IH]; intros pos acc Hf.
  - cbn [dac_tail]. destruct (Nat.ltb_spec pos remaining); [lia|reflexivity].
  - rewrite (dac_tail_step (S fuel)),
      (dac_tail_step fuel kernel d_raw padded_w padded_v remaining pos acc).
    destruct (pos <? remaining); [|reflexivity].
    apply IH. lia.
Qed.

End Fuel.

(* ------------------------------------------------------------------ *)
(** * Further properties of the diagnostic and of the kernels *)

Unset Implicit Arguments.

Lemma mul_comm t x y : mul t x y = mul t y x.
Proof.
  unfold mul, SFmul.
  destruct x as [sx|sx| |sx mx ex], y as [sy|sy| |sy my ey]; try reflexivity;
    try (now rewrite (xorb_comm sx sy)).
  now rewrite (xorb_comm sx sy), (Pos.mul_comm mx my), (Z.add_comm ex ey).
Qed.

Lemma map2_comm {A B} (f : A -> A -> B) (H : forall x y, f x y = f y x) a :
  forall b, map2 f a b = map2 f b a.
Proof.
  induction a as [|x a IH]; intros [|y b]; cbn [map2]; try reflexivity.
  now rewrite H, IH.
Qed.

Lemma Mul_comm t a b : Mul t a b = Mul t b a.
Proof. apply map2_comm. apply mul_comm. Qed.

Section CondOperands.
Context {FA : FpArith} {CO : Compress}.

Lemma products_of_comm tg w v n : products_of tg w v n = products_of tg v w n.
Proof. unfold products_of. apply map2_comm. intros x y. apply Mul_comm. Qed.

(** X1.  The two-operand diagnostic does not tell [w] from [v]: the
    lane-wise products are the same in either order, so exchanging the
    operands gives the same result (or the same failed assertion), whatever
    the helpers are. *)
Theorem ConditionNumber_operands_commute tg w v n :
  ConditionNumber tg w v n = ConditionNumber tg v w n.
Proof.
  rewrite !ConditionNumber_sums. unfold SignedSum2, AbsSum2.
  now rewrite (products_of_comm tg w v n).
Qed.

Lemma blocks_end_closed df n :
  0 < Lanes df ->
  forall fuel i, i <= n -> 2 * Lanes df <= n -> (n - i) / (2 * Lanes df) <= fuel ->
  blocks_end fuel df n i = i + 2 * Lanes df * ((n - i) / (2 * Lanes df)).
Proof.
  intros HN. induction fuel as [|fuel IH]; intros i Hi Hn Hf.
  - cbn [blocks_end]. assert ((n - i) / (2 * Lanes df) = 0) as -> by lia. lia.
  - cbn [blocks_end]. destruct (Nat.leb_spec i (n - 2 * Lanes df)) as [T|T].
    + assert (E : n - i = (n - (i + 2 * Lanes df)) + 1 * (2 * Lanes df)) by lia.
      assert (D : (n - i) / (2 * Lanes df) = (n - (i + 2 * Lanes df)) / (2 * Lanes df) + 1).
      { rewrite E at 1. rewrite Nat.div_add by lia. reflexivity. }
      rewrite IH by lia. rewrite D. lia.
    + rewrite (Nat.div_small (n - i)) by lia. lia.
Qed.

Lemma cn_loop2_index fuel df pw pv n i st :
  fst (cn_loop2 fuel df pw pv n i st) = blocks_end fuel df n i.
Proof. rewrite (cond_state_eta st), cn_loop2_cascade. reflexivity. Qed.

Lemma cn_loop1_index fuel df pv n i st :
  fst (cn_loop1 fuel df pv n i st) = blocks_end fuel df n i.
Proof. rewrite (cond_state_eta st), cn_loop1_cascade. reflexivity. Qed.

(** X2.  When there are at least two vectors of elements, the block loop
    of either overload stops at the largest multiple of [2 * N] not above
    [num]; what remains is [num mod (2 * N)], less than two vectors, so the
    [HWY_DASSERT] after the loop holds. *)
Theorem cn_block_loop_exit df pw pv n st :
  0 < Lanes df -> 2 * Lanes df <= n ->
  let i2 := fst (cn_loop2 n df pw pv n 0 st) in
  let i1 := fst (cn_loop1 n df pv n 0 st) in
  i2 = 2 * Lanes df * (n / (2 * Lanes df)) /\ i1 = i2 /\
  n - i2 = n mod (2 * Lanes df) /\ n - i2 < 2 * Lanes df.
Proof.
  intros HN Hn i2 i1. subst i1 i2.
  rewrite cn_loop2_index, cn_loop1_index.
  assert (Q : n / (2 * Lanes df) <= n).
  { apply Nat.Div0.div_le_upper_bound. nia. }
  rewrite (@blocks_end_closed df n HN) by (rewrite ?Nat.sub_0_r; lia).
  rewrite Nat.sub_0_r. cbn [Nat.add].
  pose proof (Nat.div_mod_eq n (2 * Lanes df)) as DM.
  pose proof (Nat.mod_upper_bound n (2 * Lanes df)) as MB.
  repeat split; lia.
Qed.
End CondOperands.

Lemma firstn_skipn_firstn {A} (v : list A) : forall i a n,
  i + a <= n -> firstn a (skipn i (firstn n v)) = firstn a (skipn i v).
Proof.
  induction v as [|x v IH]; intros i a n H.
  - now rewrite firstn_nil, !skipn_nil.
  - destruct n as [|n].
    + assert (i = 0) by lia. assert (a = 0) by lia. subst. reflexivity.
    + destruct i as [|i].
      * cbn [firstn skipn]. destruct a as [|a]; [reflexivity|].
        cbn [firstn]. f_equal. apply (IH 0 a n). lia.
      * cbn [firstn skipn]. apply IH. lia.
Qed.

Lemma blocks_end_le df n : forall fuel i,
  i <= n -> 2 * Lanes df <= n -> blocks_end fuel df n i <= n.
Proof.
  induction fuel as [|fuel IH]; intros i Hi Hn; cbn [blocks_end]; [exact Hi|].
  destruct (Nat.leb_spec i (n - 2 * Lanes df)); [apply IH; lia | exact Hi].
Qed.

Lemma block_vectors_prefix df v n : forall fuel i,
  2 * Lanes df <= n ->
  block_vectors (CO := compress_spec) fuel df (MakeSpan v n) n i =
  block_vectors (CO := compress_spec) fuel df (MakeSpan (firstn n v) n) n i.
Proof.
  induction fuel as [|fuel IH]; intros i Hn; cbn [block_vectors]; [reflexivity|].
  destruct (Nat.leb_spec i (n - 2 * Lanes df)) as [T|T]; [|reflexivity].
  rewrite IH by exact Hn.
  cbn [Decompress2 compress_spec]. unfold spec_Decompress2, Load.
  cbn [fst snd ptr MakeSpan].
  rewrite !(@firstn_skipn_firstn _ v _ _ n) by lia. reflexivity.
Qed.

Lemma vectors_of_prefix tg v n :
  vectors_of (CO := compress_spec) tg v n =
  vectors_of (CO := compress_spec) tg (firstn n v) n.
Proof.
  unfold vectors_of. set (df := ScalableTag tg F32).
  destruct (Nat.leb_spec (2 * Lanes df) n) as [G|G].
  - rewrite block_vectors_prefix by exact G. f_equal.
    pose proof (@blocks_end_le df n n 0 (Nat.le_0_l n) G) as L.
    destruct (negb (n - blocks_end n df n 0 =? 0)); [|reflexivity].
    cbn [DecompressAndZeroPad compress_spec]. unfold spec_DecompressAndZeroPad.
    cbn [ptr MakeSpan].
    rewrite (@firstn_skipn_firstn _ v _ _ n) by lia. reflexivity.
  - f_equal. destruct (negb (n - 0 =? 0)); [|reflexivity].
    cbn [DecompressAndZeroPad compress_spec]. unfold spec_DecompressAndZeroPad.
    cbn [ptr MakeSpan].
    rewrite (@firstn_skipn_firstn _ v _ _ n) by lia. reflexivity.
Qed.

(** X4.  Neither overload of the diagnostic reads an element at index
    [num] or beyond: the result is that of the first [num] elements
    alone. *)
Theorem ConditionNumber_prefix {FA : FpArith} tg w v n :
  ConditionNumber (CO := compress_spec) tg w v n =
    ConditionNumber (CO := compress_spec) tg (firstn n w) (firstn n v) n /\
  ConditionNumber1 (CO := compress_spec) tg v n =
    ConditionNumber1 (CO := compress_spec) tg (firstn n v) n.
Proof.
  rewrite !ConditionNumber_sums, !ConditionNumber1_sums.
  unfold SignedSum2, AbsSum2, SignedSum1, AbsSum1, products_of.
  rewrite <- !vectors_of_prefix. split; reflexivity.
Qed.

Lemma firstn_plus {A} (l : list A) a b :
  firstn (a + b) l = firstn a l ++ firstn b (skipn a l).
Proof.
  revert l; induction a as [|a IH]; intros [|x l]; cbn [Nat.add firstn skipn app];
    try reflexivity.
  - now rewrite firstn_nil.
  - f_equal. apply IH.
Qed.

Lemma blocks_end_ge df n : forall fuel i, i <= blocks_end fuel df n i.
Proof.
  induction fuel as [|fuel IH]; intros i; cbn [blocks_end]; [lia|].
  destruct (i <=? n - 2 * Lanes df); [|lia].
  specialize (IH (i + 2 * Lanes df)). lia.
Qed.

Lemma block_vectors_cover df v n :
  n <= length v -> 2 * Lanes df <= n ->
  forall fuel i,
  Forall (fun x => length x = Lanes df)
    (block_vectors (CO := compress_spec) fuel df (MakeSpan v n) n i) /\
  concat (block_vectors (CO := compress_spec) fuel df (MakeSpan v n) n i) =
  map (convert (tag_lane df)) (firstn (blocks_end fuel df n i - i) (skipn i v)).
Proof.
  intros Hv Hn. induction fuel as [|fuel IH]; intros i; cbn [block_vectors blocks_end].
  - rewrite Nat.sub_diag. split; [constructor|reflexivity].
  - destruct (Nat.leb_spec i (n - 2 * Lanes df)) as [T|T].
    2:{ rewrite Nat.sub_diag. split; [constructor|reflexivity]. }
    destruct (IH (i + 2 * Lanes df)) as [F C].
    cbn [Decompress2 compress_spec]. unfold spec_Decompress2, Load.
    cbn [fst snd ptr MakeSpan].
    split.
    + constructor; [|constructor; [|exact F]];
        rewrite length_map, length_firstn, length_skipn; lia.
    + cbn [concat]. rewrite C.
      pose proof (blocks_end_ge df n fuel (i + 2 * Lanes df)) as G.
      replace (blocks_end fuel df n (i + 2 * Lanes df) - i)
        with (Lanes df + (Lanes df + (blocks_end fuel df n (i + 2 * Lanes df)
                                       - (i + 2 * Lanes df)))) by lia.
      rewrite !firstn_plus, !map_app, !skipn_skipn.
      replace (Lanes df + i) with (i + Lanes df) by lia.
      replace (Lanes df + (i + Lanes df)) with (i + 2 * Lanes df) by lia.
      reflexivity.
Qed.

Lemma tail_vectors_one df padded remaining :
  0 < remaining -> remaining <= Lanes df ->
  tail_vectors remaining df padded remaining 0 = [Load df padded 0].
Proof.
  intros H0 H1. destruct remaining as [|m]; [lia|]. cbn [tail_vectors].
  destruct (Nat.ltb_spec 0 (S m)); [|lia]. f_equal.
  destruct m as [|m]; [reflexivity|]. cbn [tail_vectors Nat.add].
  destruct (Nat.ltb_spec (Lanes df) (S (S m))); [lia|reflexivity].
Qed.

Lemma tail_vectors_two df padded remaining :
  Lanes df < remaining -> remaining < 2 * Lanes df ->
  tail_vectors remaining df padded remaining 0 =
  [Load df padded 0; Load df padded (Lanes df)].
Proof.
  intros H0 H1. destruct remaining as [|[|m]]; try lia. cbn [tail_vectors Nat.add].
  destruct (Nat.ltb_spec 0 (S (S m))); [|lia]. f_equal.
  destruct (Nat.ltb_spec (Lanes df) (S (S m))); [|lia]. f_equal.
  destruct m as [|m]; [reflexivity|]. cbn [tail_vectors].
  destruct (Nat.ltb_spec (Lanes df + Lanes df) (S (S (S m)))); [lia|reflexivity].
Qed.

(** The zero-padded remainder, as one or two whole vectors. *)
Lemma tail_vectors_cover df (l : list float) cap :
  0 < Lanes df -> 2 * Lanes df <= cap ->
  0 < length l -> length l < 2 * Lanes df ->
  let padded := l ++ repeat pzero (cap - length l) in
  Forall (fun x => length x = Lanes df)
    (tail_vectors (length l) df padded (length l) 0) /\
  exists pad, pad < Lanes df /\
    concat (tail_vectors (length l) df padded (length l) 0) = l ++ repeat pzero pad.
Proof.
  intros HN Hc H0 H2 padded.
  assert (LP : length padded = cap).
  { unfold padded. rewrite length_app, repeat_length. lia. }
  destruct (Nat.le_gt_cases (length l) (Lanes df)) as [C|C].
  - rewrite tail_vectors_one by lia. split.
    + constructor; [|constructor]. unfold Load. cbn [skipn].
      rewrite length_firstn. lia.
    + exists (Lanes df - length l). split; [lia|]. cbn [concat].
      rewrite app_nil_r. unfold padded.
      apply (@Load_padded_buffer df l _ (Lanes df - length l)); lia.
  - rewrite tail_vectors_two by lia. split.
    + constructor; [|constructor; [|constructor]]; unfold Load;
        rewrite length_firstn, length_skipn; lia.
    + exists (2 * Lanes df - length l). split; [lia|]. cbn [concat].
      rewrite app_nil_r. unfold Load. cbn [skipn].
      rewrite <- firstn_plus.
      replace (Lanes df + Lanes df) with (length l + (2 * Lanes df - length l)) by lia.
      unfold padded. rewrite firstn_app, Nat.add_comm, Nat.add_sub.
      rewrite firstn_all2 by lia.
      f_equal. apply firstn_repeat_le. lia.
Qed.

(** X3.  The block loop and the remainder loop of the diagnostic together
    visit every one of the [num] elements once and in order: the vectors
    they feed to the cascaded sums all have [N] lanes and, laid end to end,
    are the first [num] elements (as [float]) followed by fewer than [N]
    zeros of padding. *)
Theorem vectors_of_cover tg v n :
  0 < TargetLanes tg F32 -> TargetLanes tg F32 <= TargetMaxLanes tg F32 ->
  n <= length v ->
  Forall (fun x => length x = TargetLanes tg F32)
    (vectors_of (CO := compress_spec) tg v n) /\
  exists pad, pad < TargetLanes tg F32 /\
    concat (vectors_of (CO := compress_spec) tg v n) =
    map (convert F32) (firstn n v) ++ repeat pzero pad.
Proof.
  intros HN HM Hv. unfold vectors_of. cbv zeta. set (df := ScalableTag tg F32).
  change (TargetLanes tg F32) with (Lanes df) in *.
  change (TargetMaxLanes tg F32) with (MaxLanes df) in *.
  assert (R : forall i, i <= n -> n - i < 2 * Lanes df ->
    Forall (fun x => length x = Lanes df)
      (if negb (n - i =? 0)
       then tail_vectors (n - i) df
              (DecompressAndZeroPad (Compress := compress_spec) df (MakeSpan v n) i
                 (2 * MaxLanes df) (n - i)) (n - i) 0
       else []) /\
    exists pad, pad < Lanes df /\
      concat (if negb (n - i =? 0)
       then tail_vectors (n - i) df
              (DecompressAndZeroPad (Compress := compress_spec) df (MakeSpan v n) i
                 (2 * MaxLanes df) (n - i)) (n - i) 0
       else []) = map (convert F32) (firstn (n - i) (skipn i v)) ++ repeat pzero pad).
  { intros i Hi Hr. destruct (Nat.eqb_spec (n - i) 0) as [E|E]; cbn [negb].
    - split; [constructor|]. exists 0. split; [lia|]. rewrite E. reflexivity.
    - cbn [DecompressAndZeroPad compress_spec]. unfold spec_DecompressAndZeroPad.
      cbn [ptr MakeSpan tag_lane df ScalableTag].
      set (l := map (convert F32) (firstn (n - i) (skipn i v))).
      assert (Ll : length l = n - i).
      { unfold l. rewrite length_map, length_firstn, length_skipn. lia. }
      rewrite <- Ll.
      apply tail_vectors_cover; lia. }
  destruct (Nat.leb_spec (2 * Lanes df) n) as [G|G].
  - destruct (@block_vectors_cover df v n Hv G n 0) as [F C].
    pose proof (@blocks_end_le df n n 0 (Nat.le_0_l n) G) as L.
    assert (Q : n / (2 * Lanes df) <= n) by (apply Nat.Div0.div_le_upper_bound; nia).
    pose proof (@blocks_end_closed df n HN n 0 (Nat.le_0_l n) G) as B.
    rewrite Nat.sub_0_r in B. specialize (B Q). cbn [Nat.add] in B.
    pose proof (Nat.div_mod_eq n (2 * Lanes df)) as DM.
    pose proof (Nat.mod_upper_bound n (2 * Lanes df)) as MB.
    destruct (R (blocks_end n df n 0)) as [FT [pad [Hp CT]]]; [lia|lia|].
    split; [apply Forall_app; split; assumption|].
    exists pad. split; [exact Hp|].
    rewrite concat_app, C.
    transitivity
      (map (convert F32) (firstn (blocks_end n df n 0 - 0) (skipn 0 v))
         ++ (map (convert F32)
               (firstn (n - blocks_end n df n 0) (skipn (blocks_end n df n 0) v))
             ++ repeat pzero pad)); [f_equal; exact CT|].
    rewrite Nat.sub_0_r. cbn [skipn].
    rewrite app_assoc, <- map_app.
    assert (E : firstn n v = firstn (blocks_end n df n 0) v
                  ++ firstn (n - blocks_end n df n 0) (skipn (blocks_end n df n 0) v)).
    { rewrite <- firstn_plus. f_equal. lia. }
    now rewrite E.
  - destruct (R 0) as [FT [pad [Hp CT]]]; [lia|lia|].
    split; [exact FT|]. exists pad. split; [exact Hp|].
    cbn [app]. etransitivity; [exact CT|]. rewrite Nat.sub_0_r. reflexivity.
Qed.

(* ---------- generic map2 facts ---------- *)
Lemma map2_Forall {A B C} (f : A -> B -> C) (P : A -> Prop) (Q : B -> Prop) (R : C -> Prop) :
  (forall x y, P x -> Q y -> R (f x y)) ->
  forall a b, Forall P a -> Forall Q b -> Forall R (map2 f a b).
Proof.
  intros H. induction a as [|x a IH]; intros [|y b] Ha Hb; cbn [map2]; try constructor.
  - apply H; [now inversion Ha | now inversion Hb].
  - apply IH; [now inversion Ha | now inversion Hb].
Qed.

Lemma map2_length {A B C} (f : A -> B -> C) a : forall b,
  length a = length b -> length (map2 f a b) = length a.
Proof.
  induction a as [|x a IH]; intros [|y b] L; try discriminate L; cbn [map2 length];
    [reflexivity|]. f_equal. apply IH. now injection L.
Qed.

Lemma map2_In_l {A B C} (f : A -> B -> C) z z' :
  (forall y, f z y = z') ->
  forall a b, length a = length b -> In z a -> In z' (map2 f a b).
Proof.
  intros H. induction a as [|x a IH]; intros [|y b] L I; try discriminate L.
  - destruct I.
  - cbn [map2]. destruct I as [->|I]; [left; apply H | right; apply IH; [now injection L|exact I]].
Qed.

Lemma map2_In_r {A B C} (f : A -> B -> C) z z' :
  (forall x, f x z = z') ->
  forall a b, length a = length b -> In z b -> In z' (map2 f a b).
Proof.
  intros H. induction a as [|x a IH]; intros [|y b] L I; try discriminate L.
  - destruct I.
  - cbn [map2]. destruct I as [->|I]; [left; apply H | right; apply IH; [now injection L|exact I]].
Qed.

(* ---------- zeros ---------- *)
Lemma two_sum_zero a b :
  is_zero a = true -> is_zero b = true ->
  is_zero (fst (two_sum a b)) = true /\ is_zero (snd (two_sum a b)) = true.
Proof.
  destruct a as [[|]| | |], b as [[|]| | |]; try discriminate; intros _ _;
    split; reflexivity.
Qed.

Lemma add_zero a b :
  is_zero a = true -> is_zero b = true -> is_zero (add F32 a b) = true.
Proof.
  destruct a as [[|]| | |], b as [[|]| | |]; try discriminate; reflexivity.
Qed.

Lemma spec_Update_zero df v s e :
  all_zero v -> all_zero s -> all_zero e ->
  all_zero (fst (spec_UpdateCascadedSums df v s e)) /\
  all_zero (snd (spec_UpdateCascadedSums df v s e)).
Proof.
  intros Hv Hs He. unfold spec_UpdateCascadedSums, spec_TwoSums, lanewise2. cbn [fst snd].
  split.
  - apply (map2_Forall _ zero_lane zero_lane zero_lane);
      [|exact Hs|exact Hv]. intros x y Hx Hy. now apply two_sum_zero.
  - apply (map2_Forall _ zero_lane zero_lane zero_lane);
      [apply add_zero|exact He|].
    apply (map2_Forall _ zero_lane zero_lane zero_lane);
      [|exact Hs|exact Hv]. intros x y Hx Hy. now apply two_sum_zero.
Qed.

Lemma cascade_from_zero df chunks : forall init,
  Forall all_zero chunks -> all_zero (fst init) -> all_zero (snd init) ->
  all_zero (fst (cascade_from (FA := fp_arith_spec) df init chunks)) /\
  all_zero (snd (cascade_from (FA := fp_arith_spec) df init chunks)).
Proof.
  induction chunks as [|x chunks IH]; intros init Hc Hs He.
  - split; assumption.
  - rewrite cascade_from_cons. inversion Hc; subst.
    destruct (@spec_Update_zero df x (fst init) (snd init)) as [A B]; try assumption.
    apply IH; assumption.
Qed.

Lemma repeat_zero k : all_zero (repeat pzero k).
Proof. induction k; cbn [repeat]; constructor; [reflexivity|assumption]. Qed.

Lemma reduce_lane_zero l : forall acc,
  Forall (fun p => is_zero (fst p) = true /\ is_zero (snd p) = true) l ->
  is_zero (fst acc) = true -> is_zero (snd acc) = true ->
  is_zero (fst (fold_left reduce_lane l acc)) = true /\
  is_zero (snd (fold_left reduce_lane l acc)) = true.
Proof.
  induction l as [|p l IH]; intros acc Hl Ha He; [now split|].
  cbn [fold_left]. inversion Hl as [|? ? [P1 P2] Hl']; subst.
  apply IH; [exact Hl'| |]; unfold reduce_lane.
  - destruct (two_sum (fst acc) (fst p)) as [t e] eqn:E. cbn [fst].
    pose proof (@two_sum_zero (fst acc) (fst p) Ha P1) as [T _]. now rewrite E in T.
  - destruct (two_sum (fst acc) (fst p)) as [t e] eqn:E. cbn [snd].
    pose proof (@two_sum_zero (fst acc) (fst p) Ha P1) as [_ T]. rewrite E in T.
    apply add_zero; [apply add_zero; assumption | exact T].
Qed.

Lemma combine_Forall {A B} (P : A -> Prop) (Q : B -> Prop) a : forall b,
  Forall P a -> Forall Q b -> Forall (fun p => P (fst p) /\ Q (snd p)) (combine a b).
Proof.
  induction a as [|x a IH]; intros [|y b] Ha Hb; cbn [combine]; try constructor.
  - split; [now inversion Ha | now inversion Hb].
  - apply IH; [now inversion Ha | now inversion Hb].
Qed.

Lemma spec_Reduce_zero df s e :
  all_zero s -> all_zero e -> is_zero (spec_ReduceCascadedSums df s e) = true.
Proof.
  intros Hs He. unfold spec_ReduceCascadedSums.
  destruct (@reduce_lane_zero (combine s e) (pzero, pzero)) as [A B]; try reflexivity.
  - now apply (combine_Forall zero_lane zero_lane).
  - destruct (fold_left reduce_lane (combine s e) (pzero, pzero)) as [t te].
    now apply add_zero.
Qed.

Lemma reduce_cascade_zero {CO : Compress} tg chunks :
  Forall all_zero chunks ->
  is_zero (reduce_cascade (FA := fp_arith_spec) tg chunks) = true.
Proof.
  intros H. unfold reduce_cascade, cascade.
  destruct (@cascade_from_zero (ScalableTag tg F32) chunks
              (Zero (ScalableTag tg F32), Zero (ScalableTag tg F32)) H) as [A B];
    try apply repeat_zero.
  now apply spec_Reduce_zero.
Qed.

Lemma eqb_abs_zero z : is_zero z = true -> eqb (ScalarAbs z) pzero = true.
Proof. destruct z; try discriminate; reflexivity. Qed.

Lemma convert_zero t x : is_zero x = true -> is_zero (convert t x) = true.
Proof. destruct x; try discriminate; reflexivity. Qed.

Lemma concat_map2 {A} (f : A -> A -> A) n : forall a b : list (list A),
  Forall (fun x => length x = n) a -> Forall (fun x => length x = n) b ->
  concat (map2 (map2 f) a b) = map2 f (concat a) (concat b).
Proof.
  induction a as [|x a IH]; intros [|y b] Ha Hb; cbn [map2 concat]; try reflexivity.
  - destruct (x ++ concat a); reflexivity.
  - inversion Ha; inversion Hb; subst. rewrite map2_app by congruence.
    f_equal. now apply IH.
Qed.

Lemma ConditionNumber_zero_products tg w v n :
  0 < TargetLanes tg F32 -> TargetLanes tg F32 <= TargetMaxLanes tg F32 ->
  n <= length w -> n <= length v ->
  all_zero (map2 (mul F32) (map (convert F32) (firstn n w)) (map (convert F32) (firstn n v))) ->
  ConditionNumber (FA := fp_arith_spec) (CO := compress_spec) tg w v n = Some pinf.
Proof.
  intros HN HM Hw Hv Hz.
  destruct (@vectors_of_cover tg w n HN HM Hw) as [Fw [pw [_ Cw]]].
  destruct (@vectors_of_cover tg v n HN HM Hv) as [Fv [pv [_ Cv]]].
  assert (Z : Forall all_zero (products_of (CO := compress_spec) tg w v n)).
  { change (products_of (CO := compress_spec) tg w v n)
      with (map2 (map2 (mul F32)) (vectors_of (CO := compress_spec) tg w n)
                                  (vectors_of (CO := compress_spec) tg v n)).
    apply Forall_concat.
    rewrite (concat_map2 (mul F32) _ _ _ Fw Fv), Cw, Cv.
    rewrite map2_app by (rewrite !length_map, !length_firstn; lia).
    apply Forall_app. split; [exact Hz|].
    apply (map2_Forall _ zero_lane zero_lane zero_lane);
      try apply repeat_zero.
    intros [[|]| | |] [[|]| | |]; try discriminate; reflexivity. }
  rewrite ConditionNumber_sums. cbv zeta. unfold SignedSum2.
  rewrite eqb_abs_zero by (now apply reduce_cascade_zero).
  now rewrite GetLane_Inf.
Qed.

Lemma ConditionNumber1_zeros tg v n :
  0 < TargetLanes tg F32 -> TargetLanes tg F32 <= TargetMaxLanes tg F32 ->
  n <= length v -> all_zero (firstn n v) ->
  ConditionNumber1 (FA := fp_arith_spec) (CO := compress_spec) tg v n = Some pinf.
Proof.
  intros HN HM Hv Hz.
  destruct (@vectors_of_cover tg v n HN HM Hv) as [Fv [pv [_ Cv]]].
  assert (Z : Forall all_zero (vectors_of (CO := compress_spec) tg v n)).
  { apply Forall_concat. rewrite Cv. apply Forall_app. split; [|apply repeat_zero].
    apply Forall_map. revert Hz. apply Forall_impl. intros a. apply convert_zero. }
  rewrite ConditionNumber1_sums. cbv zeta. unfold SignedSum1.
  rewrite eqb_abs_zero by (now apply reduce_cascade_zero).
  now rewrite GetLane_Inf.
Qed.

(** X5.  When every lane-wise product of the first [num] elements is a
    zero (of either sign), the two-operand diagnostic returns positive
    infinity, and so does the single-operand one when the first [num]
    elements are all zeros: every accumulator lane stays a zero and the
    divisor test wins. *)
Theorem ConditionNumber_zeros_infinite tg w v n :
  0 < TargetLanes tg F32 -> TargetLanes tg F32 <= TargetMaxLanes tg F32 ->
  n <= length w -> n <= length v ->
  (all_zero (map2 (mul F32) (map (convert F32) (firstn n w))
                            (map (convert F32) (firstn n v))) ->
   ConditionNumber (FA := fp_arith_spec) (CO := compress_spec) tg w v n = Some pinf) /\
  (all_zero (firstn n v) ->
   ConditionNumber1 (FA := fp_arith_spec) (CO := compress_spec) tg v n = Some pinf).
Proof.
  intros HN HM Hw Hv. split; intros Hz.
  - now apply ConditionNumber_zero_products.
  - now apply ConditionNumber1_zeros.
Qed.

Lemma add_nan_r t x : add t x nan = nan.
Proof. destruct x; reflexivity. Qed.

Lemma mul_nan_r t x : mul t x nan = nan.
Proof. destruct x; reflexivity. Qed.

Lemma div_nan_r t x : IEEE.div t x nan = nan.
Proof. destruct x; reflexivity. Qed.

Lemma spec_Update_lanes df n v s e :
  lanes n v -> lanes n s -> lanes n e ->
  lanes n (fst (spec_UpdateCascadedSums df v s e)) /\
  lanes n (snd (spec_UpdateCascadedSums df v s e)).
Proof.
  unfold lanes. intros Hv Hs He.
  unfold spec_UpdateCascadedSums, spec_TwoSums, lanewise2, Add. cbn [fst snd].
  assert (T : length (map2 (fun x y => snd (two_sum x y)) s v) = n)
    by (rewrite map2_length; congruence).
  split; rewrite map2_length; congruence.
Qed.

Lemma spec_Update_nan df n v s e :
  lanes n v -> lanes n s ->
  In nan s \/ In nan v -> In nan (fst (spec_UpdateCascadedSums df v s e)).
Proof.
  unfold lanes. intros Hv Hs H.
  unfold spec_UpdateCascadedSums, spec_TwoSums, lanewise2. cbn [fst].
  destruct H as [H|H].
  - apply (map2_In_l (fun x y => fst (two_sum x y)) nan nan); [reflexivity|congruence|exact H].
  - apply (map2_In_r (fun x y => fst (two_sum x y)) nan nan);
      [intros x; apply add_nan_r|congruence|exact H].
Qed.

Lemma cascade_from_nan df n chunks : forall init,
  Forall (lanes n) chunks -> lanes n (fst init) -> lanes n (snd init) ->
  In nan (fst init) \/ (exists x, In x chunks /\ In nan x) ->
  In nan (fst (cascade_from (FA := fp_arith_spec) df init chunks)).
Proof.
  induction chunks as [|x chunks IH]; intros init Hc Hs He H.
  - destruct H as [H|[x [[] _]]]. exact H.
  - rewrite cascade_from_cons. inversion Hc as [|? ? Hx Hc']; subst.
    destruct (spec_Update_lanes df n x (fst init) (snd init) Hx Hs He) as [L1 L2].
    apply IH; try assumption.
    destruct H as [H|[y [[->|I] Hy]]].
    + left. apply (spec_Update_nan df n); auto.
    + left. apply (spec_Update_nan df n); auto.
    + right. exists y. split; assumption.
Qed.

Lemma reduce_lane_nan_sticky l : forall acc,
  fst acc = nan -> fst (fold_left reduce_lane l acc) = nan.
Proof.
  induction l as [|p l IH]; intros acc H; [exact H|].
  cbn [fold_left]. apply IH. unfold reduce_lane, two_sum. cbn [fst]. now rewrite H.
Qed.

Lemma reduce_lane_nan l : forall acc,
  In nan (map fst l) -> fst (fold_left reduce_lane l acc) = nan.
Proof.
  induction l as [|p l IH]; intros acc H; [destruct H|].
  cbn [fold_left]. destruct H as [H|H].
  - apply reduce_lane_nan_sticky. unfold reduce_lane, two_sum. cbn [fst].
    rewrite H. apply add_nan_r.
  - now apply IH.
Qed.

Lemma In_fst_combine {A B} (x : A) a : forall b : list B,
  length a = length b -> In x a -> In x (map fst (combine a b)).
Proof.
  induction a as [|y a IH]; intros [|z b] L I; try discriminate L; [destruct I|].
  cbn [combine map fst]. destruct I as [->|I]; [now left | right; apply IH; [now injection L|exact I]].
Qed.

Lemma spec_Reduce_nan df s e :
  length s = length e -> In nan s -> spec_ReduceCascadedSums df s e = nan.
Proof.
  intros L I. unfold spec_ReduceCascadedSums.
  pose proof (reduce_lane_nan (combine s e) (pzero, pzero) (In_fst_combine nan s e L I)) as H.
  destruct (fold_left reduce_lane (combine s e) (pzero, pzero)) as [t te].
  cbn [fst] in H. now rewrite H.
Qed.

Lemma reduce_cascade_nan {CO : Compress} tg chunks :
  Forall (lanes (TargetLanes tg F32)) chunks ->
  (exists x, In x chunks /\ In nan x) ->
  reduce_cascade (FA := fp_arith_spec) tg chunks = nan.
Proof.
  intros F H. unfold reduce_cascade, cascade. set (df := ScalableTag tg F32).
  assert (Z : lanes (TargetLanes tg F32) (Zero df)) by apply repeat_length.
  pose proof (cascade_from_nan df _ chunks (Zero df, Zero df) F Z Z (or_intror H)) as I.
  assert (L : lanes (TargetLanes tg F32) (fst (cascade_from (FA := fp_arith_spec) df (Zero df, Zero df) chunks)) /\
              lanes (TargetLanes tg F32) (snd (cascade_from (FA := fp_arith_spec) df (Zero df, Zero df) chunks))).
  { generalize (Zero df, Zero df) (conj Z Z : lanes _ (fst (Zero df, Zero df)) /\ lanes _ (snd (Zero df, Zero df))).
    clear I H. induction chunks as [|x chunks IH]; intros init [A B]; [now split|].
    rewrite cascade_from_cons. inversion F; subst. apply IH; [assumption|].
    now apply spec_Update_lanes. }
  destruct L as [L1 L2]. cbn [ReduceCascadedSums fp_arith_spec].
  apply spec_Reduce_nan; [unfold lanes in *; congruence | exact I].
Qed.

Lemma not_a_number_aborts s a :
  s = nan -> HWY_ASSERT (leb pzero (ratio s a)) (ratio s a) = None /\
             eqb (ScalarAbs s) pzero = false.
Proof.
  intros ->. unfold ratio. cbn [ScalarAbs abs SFabs convert].
  rewrite div_nan_r. split; reflexivity.
Qed.

Lemma ConditionNumber1_nan_aborts tg v n :
  0 < TargetLanes tg F32 -> TargetLanes tg F32 <= TargetMaxLanes tg F32 ->
  n <= length v -> In nan (firstn n v) ->
  ConditionNumber1 (FA := fp_arith_spec) (CO := compress_spec) tg v n = None.
Proof.
  intros HN HM Hv I.
  destruct (vectors_of_cover tg v n HN HM Hv) as [Fv [pv [_ Cv]]].
  assert (S : SignedSum1 (FA := fp_arith_spec) (CO := compress_spec) tg v n = nan).
  { unfold SignedSum1. apply reduce_cascade_nan; [exact Fv|].
    apply in_concat. rewrite Cv. apply in_or_app. left.
    change nan with (convert F32 nan). now apply in_map. }
  rewrite ConditionNumber1_sums. cbv zeta.
  destruct (not_a_number_aborts _ (AbsSum1 (FA := fp_arith_spec) (CO := compress_spec) tg v n) S)
    as [A E].
  now rewrite E.
Qed.

Lemma products_lanes tg w v n :
  0 < TargetLanes tg F32 -> TargetLanes tg F32 <= TargetMaxLanes tg F32 ->
  n <= length w -> n <= length v ->
  Forall (lanes (TargetLanes tg F32)) (products_of (CO := compress_spec) tg w v n).
Proof.
  intros HN HM Hw Hv.
  destruct (vectors_of_cover tg w n HN HM Hw) as [Fw _].
  destruct (vectors_of_cover tg v n HN HM Hv) as [Fv _].
  unfold products_of.
  apply (map2_Forall (Mul F32) (lanes (TargetLanes tg F32)) (lanes (TargetLanes tg F32))
           (lanes (TargetLanes tg F32))); [|exact Fw|exact Fv].
  unfold lanes, Mul. intros x y Hx Hy. rewrite map2_length; congruence.
Qed.

Lemma ConditionNumber2_nan_aborts tg w v n :
  0 < TargetLanes tg F32 -> TargetLanes tg F32 <= TargetMaxLanes tg F32 ->
  n <= length w -> n <= length v ->
  In nan (firstn n w) \/ In nan (firstn n v) ->
  ConditionNumber (FA := fp_arith_spec) (CO := compress_spec) tg w v n = None.
Proof.
  intros HN HM Hw Hv I.
  destruct (vectors_of_cover tg w n HN HM Hw) as [Fw [pw [_ Cw]]].
  destruct (vectors_of_cover tg v n HN HM Hv) as [Fv [pv [_ Cv]]].
  assert (P : In nan (map2 (mul F32) (map (convert F32) (firstn n w))
                                     (map (convert F32) (firstn n v)))).
  { assert (L : length (map (convert F32) (firstn n w)) =
                length (map (convert F32) (firstn n v))).
    { rewrite !length_map, !length_firstn. lia. }
    destruct I as [I|I].
    - apply (map2_In_l (mul F32) nan nan); [reflexivity|exact L|].
      change nan with (convert F32 nan). now apply in_map.
    - apply (map2_In_r (mul F32) nan nan); [intros x; apply mul_nan_r|exact L|].
      change nan with (convert F32 nan). now apply in_map. }
  assert (S : SignedSum2 (FA := fp_arith_spec) (CO := compress_spec) tg w v n = nan).
  { unfold SignedSum2. apply reduce_cascade_nan; [now apply products_lanes|].
    apply in_concat.
    change (products_of (CO := compress_spec) tg w v n)
      with (map2 (map2 (mul F32)) (vectors_of (CO := compress_spec) tg w n)
                                  (vectors_of (CO := compress_spec) tg v n)).
    rewrite (concat_map2 (mul F32) _ _ _ Fw Fv), Cw, Cv.
    rewrite map2_app by (rewrite !length_map, !length_firstn; lia).
    apply in_or_app. now left. }
  rewrite ConditionNumber_sums. cbv zeta.
  destruct (not_a_number_aborts _ (AbsSum2 (FA := fp_arith_spec) (CO := compress_spec) tg w v n) S)
    as [A E].
  now rewrite E.
Qed.

(** X6.  A NaN among the first [num] elements of an operand stops the
    call: the signed sum is NaN, it is not equal to 0, the ratio is NaN and
    the assertion [cond >= 0.0] fails, for both overloads and every vector
    size. *)
Theorem ConditionNumber_nan_aborts tg w v n :
  0 < TargetLanes tg F32 -> TargetLanes tg F32 <= TargetMaxLanes tg F32 ->
  n <= length w -> n <= length v ->
  (In nan (firstn n w) \/ In nan (firstn n v) ->
   ConditionNumber (FA := fp_arith_spec) (CO := compress_spec) tg w v n = None) /\
  (In nan (firstn n v) ->
   ConditionNumber1 (FA := fp_arith_spec) (CO := compress_spec) tg v n = None).
Proof.
  intros HN HM Hw Hv. split; intros I.
  - now apply ConditionNumber2_nan_aborts.
  - now apply ConditionNumber1_nan_aborts.
Qed.

Section Empty.
Context {CO : Compress}.

Lemma dac_run_empty kernel d_raw d_state w w_ofs p :
  dac_run kernel d_raw d_state w w_ofs (MakeSpan p 0) = Reduce kernel d_state (zero_accum d_state).
Proof.
  unfold dac_run. cbn [num MakeSpan].
  destruct (4 * Lanes d_raw <=? 0); reflexivity.
Qed.

Lemma ReduceSum_zeros d k : ReduceSum d (repeat pzero k) = pzero.
Proof.
  destruct k as [|k]; [reflexivity|]. cbn [repeat ReduceSum].
  apply fold_left_fixed. now destruct (tag_lane d).
Qed.

Lemma DotKernelDouble_Reduce_zero d :
  DotKernelDouble_Reduce d (zero_accum d) = pzero.
Proof.
  unfold DotKernelDouble_Reduce, zero_accum, Zero, Add. cbn [sum0 sum1 sum2 sum3].
  rewrite !map2_repeat. change (add F64 pzero pzero) with pzero.
  change (add F64 pzero pzero) with pzero.
  now rewrite ReduceSum_zeros.
Qed.

Lemma spec_Assimilate_zero df k :
  spec_AssimilateCascadedSums df (repeat pzero k) (repeat pzero k)
    (repeat pzero k) (repeat pzero k) = (repeat pzero k, repeat pzero k).
Proof.
  unfold spec_AssimilateCascadedSums, spec_UpdateCascadedSums, spec_TwoSums, lanewise2, Add.
  rewrite !map2_repeat.
  change (fst (two_sum pzero pzero)) with pzero.
  change (snd (two_sum pzero pzero)) with pzero.
  rewrite ?map2_repeat. reflexivity.
Qed.

Lemma DotKernelCompensated_Reduce_zero d :
  DotKernelCompensated_Reduce (FA := fp_arith_spec) d (zero_accum d) = pzero.
Proof.
  unfold DotKernelCompensated_Reduce, zero_accum, Zero.
  cbn [sum0 sum1 sum2 sum3 comp0 comp1 comp2 comp3 AssimilateCascadedSums fp_arith_spec].
  rewrite !spec_Assimilate_zero.
  apply (ReduceCascadedSums_Zero d).
Qed.

(** X7.  On an empty input ([num = 0]) no update is made and the reduce of
    either kernel, on accumulators that are all zero, yields exactly [+0.0]:
    so do [Dot], [DotDouble] and the pointer adapter, for every type pair
    and every vector size. *)
Theorem Dot_empty (CanDecompressToDouble : ElemType -> ElemType -> bool) tg
  WT VT (VL : LaneType) d w w_ofs p q :
  DotKernelDouble_Reduce d (zero_accum d) = pzero /\
  DotKernelCompensated_Reduce (FA := fp_arith_spec) d (zero_accum d) = pzero /\
  Dot (FA := fp_arith_spec) CanDecompressToDouble WT VT d w w_ofs p 0 = pzero /\
  DotDouble WT VT d w w_ofs p 0 = pzero /\
  Dot_ptr (FA := fp_arith_spec) CanDecompressToDouble tg WT VL q p 0 = pzero.
Proof.
  assert (D : forall WT VT d w w_ofs p,
            Dot (FA := fp_arith_spec) CanDecompressToDouble WT VT d w w_ofs p 0 = pzero).
  { intros. unfold Dot, DotKernelDefault, DecompressAndCall.
    rewrite dac_run_empty.
    destruct (CanDecompressToDouble _ _); cbn [Reduce DotKernelDouble DotKernelCompensated State].
    - apply DotKernelDouble_Reduce_zero.
    - apply DotKernelCompensated_Reduce_zero. }
  split; [apply DotKernelDouble_Reduce_zero|].
  split; [apply DotKernelCompensated_Reduce_zero|].
  split; [apply D|]. split; [|apply D].
  unfold DotDouble, DecompressAndCall. rewrite dac_run_empty.
  apply DotKernelDouble_Reduce_zero.
Qed.
End Empty.

(* ---------- commutativity ---------- *)
Lemma fma_comm t x y z : fma t x y z = fma t y x z.
Proof.
  unfold fma.
  destruct x as [sx|sx| |sx mx ex], y as [sy|sy| |sy my ey];
    try (rewrite (mul_comm t); reflexivity); try reflexivity.
  rewrite (xorb_comm sx sy), (Pos.mul_comm mx my), (Z.add_comm ex ey),
    (mul_comm t (S754_finite sx mx ex)). reflexivity.
Qed.

Lemma map3_comm {A B} (f : A -> A -> B -> B) (H : forall x y z, f x y z = f y x z) a :
  forall b c, map3 f a b c = map3 f b a c.
Proof.
  induction a as [|x a IH]; intros [|y b] [|z c]; cbn [map3]; try reflexivity.
  now rewrite H, IH.
Qed.

Lemma MulAdd_comm t a b c : MulAdd t a b c = MulAdd t b a c.
Proof. apply map3_comm. apply fma_comm. Qed.

Lemma WidenMulPairwiseAdd_comm df : forall n a b,
  length a <= n -> WidenMulPairwiseAdd df a b = WidenMulPairwiseAdd df b a.
Proof.
  induction n as [|n IH]; intros a b L.
  - destruct a; [|cbn in L; lia]. destruct b as [|? [|? ?]]; reflexivity.
  - destruct a as [|a0 [|a1 a]], b as [|b0 [|b1 b]]; try reflexivity.
    cbn [WidenMulPairwiseAdd]. cbv zeta.
    rewrite (mul_comm _ (convert _ a1)), (mul_comm _ (convert _ a0)).
    f_equal. apply IH. cbn [length] in L. lia.
Qed.

Lemma two_product_comm a b : two_product a b = two_product b a.
Proof.
  unfold two_product. rewrite (mul_comm F32 a b). f_equal. f_equal.
  destruct (dyadic a) as [[ma ea]|], (dyadic b) as [[mb eb]|]; try reflexivity.
  cbn [lift2]. unfold dy_mul. cbn [fst snd]. now rewrite Z.mul_comm, Z.add_comm.
Qed.

Lemma spec_TwoProducts_comm df a b : spec_TwoProducts df a b = spec_TwoProducts df b a.
Proof.
  unfold spec_TwoProducts, lanewise2. f_equal; apply map2_comm; intros x y;
    now rewrite two_product_comm.
Qed.

Lemma DotKernelDouble_symmetric : symmetric_kernel DotKernelDouble.
Proof.
  split.
  - intros. cbn [Update4 DotKernelDouble]. unfold DotKernelDouble_Update4.
    now rewrite (MulAdd_comm _ w0), (MulAdd_comm _ w1), (MulAdd_comm _ w2), (MulAdd_comm _ w3).
  - intros. cbn [Update1 DotKernelDouble]. unfold DotKernelDouble_Update1.
    now rewrite MulAdd_comm.
Qed.

Lemma DotKernelCompensated_symmetric {FA : FpArith} :
  (forall df a b, TwoProducts df a b = TwoProducts df b a) ->
  symmetric_kernel DotKernelCompensated.
Proof.
  intros TP. split.
  - intros. cbn [Update4 DotKernelCompensated]. destruct (tag_lane d); [reflexivity| |].
    + unfold DotKernelCompensated_Update4.
      now rewrite (TP d w0), (TP d w1), (TP d w2), (TP d w3).
    + unfold DotKernelCompensated_Update4_BF16. cbv zeta.
      now rewrite (WidenMulPairwiseAdd_comm _ _ w0 v0 (le_n _)),
        (WidenMulPairwiseAdd_comm _ _ w1 v1 (le_n _)),
        (WidenMulPairwiseAdd_comm _ _ w2 v2 (le_n _)),
        (WidenMulPairwiseAdd_comm _ _ w3 v3 (le_n _)).
  - intros. cbn [Update1 DotKernelCompensated]. destruct (tag_lane d); [reflexivity| |].
    + unfold DotKernelCompensated_Update1. now rewrite (TP d w).
    + unfold DotKernelCompensated_Update1_BF16. cbv zeta.
      now rewrite (WidenMulPairwiseAdd_comm _ _ w v (le_n _)).
Qed.

Section Comm.
Context {CO : Compress}.

Lemma dac_loop_comm K d a b n : symmetric_kernel K ->
  forall fuel i acc,
  dac_loop fuel K d (MakeSpan a n) 0 (MakeSpan b n) i acc =
  dac_loop fuel K d (MakeSpan b n) 0 (MakeSpan a n) i acc.
Proof.
  intros [S4 _]. induction fuel as [|fuel IH]; intros i acc; [reflexivity|].
  rewrite !dac_loop_step. cbn [num MakeSpan Nat.add].
  destruct (i <=? n - 4 * Lanes d); [|reflexivity].
  rewrite S4. apply IH.
Qed.

Lemma dac_tail_comm K d pa pb remaining : symmetric_kernel K ->
  forall fuel pos acc,
  dac_tail fuel K d pa pb remaining pos acc = dac_tail fuel K d pb pa remaining pos acc.
Proof.
  intros [_ S1]. induction fuel as [|fuel IH]; intros pos acc; [reflexivity|].
  rewrite !dac_tail_step. destruct (pos <? remaining); [|reflexivity].
  rewrite S1. apply IH.
Qed.

Lemma dac_run_comm K d_raw d_state a b n : symmetric_kernel K ->
  dac_run K d_raw d_state (MakeSpan a n) 0 (MakeSpan b n) =
  dac_run K d_raw d_state (MakeSpan b n) 0 (MakeSpan a n).
Proof.
  intros S. unfold dac_run. cbn [num MakeSpan].
  rewrite (dac_loop_comm K d_raw a b n S).
  destruct (if 4 * Lanes d_raw <=? n
            then dac_loop n K d_raw (MakeSpan b n) 0 (MakeSpan a n) 0 _
            else _) as [i acc].
  cbn [Nat.add].
  destruct (negb (n - i =? 0)); [|reflexivity].
  now rewrite (dac_tail_comm K d_raw _ _ (n - i) S).
Qed.

(** X8.  The updates of [DotKernelDouble], and those of
    [DotKernelCompensated] on both paths when [TwoProducts] is symmetric in
    its operands, do not tell [w] from [v]; with the weights read from
    offset 0, [DotDouble] gives bit for bit the same result when the two
    operands are exchanged, and so does [Dot] when, besides,
    [CanDecompressToDouble] gives the same answer for the type pair in
    either order (so that the same kernel is selected). *)
Theorem Dot_operands_commute {FA : FpArith}
  (CanDecompressToDouble : ElemType -> ElemType -> bool) WT VT d a b n :
  (forall df x y, TwoProducts df x y = TwoProducts df y x) ->
  CanDecompressToDouble WT VT = CanDecompressToDouble VT WT ->
  symmetric_kernel DotKernelDouble /\
  symmetric_kernel DotKernelCompensated /\
  DotDouble WT VT d (MakeSpan a n) 0 b n = DotDouble VT WT d (MakeSpan b n) 0 a n /\
  Dot CanDecompressToDouble WT VT d (MakeSpan a n) 0 b n =
  Dot CanDecompressToDouble VT WT d (MakeSpan b n) 0 a n.
Proof.
  intros TP HC.
  split; [apply DotKernelDouble_symmetric|].
  split; [apply DotKernelCompensated_symmetric, TP|]. split.
  - unfold DotDouble, DecompressAndCall. cbn [Raw State DotKernelDouble].
    apply dac_run_comm, DotKernelDouble_symmetric.
  - unfold Dot, DotKernelDefault, DecompressAndCall. rewrite HC.
    destruct (CanDecompressToDouble VT WT).
    + cbn [Raw State DotKernelDouble]. apply dac_run_comm, DotKernelDouble_symmetric.
    + cbn [Raw State DotKernelCompensated]. rewrite (orb_comm (IsF32 WT)).
      apply dac_run_comm, DotKernelCompensated_symmetric, TP.
Qed.
End Comm.

Section DoubleComps.
Context {CO : Compress}.

Lemma dac_loop_double_comps d w w_ofs vec : forall fuel i acc,
  comps (snd (dac_loop fuel DotKernelDouble d w w_ofs vec i acc)) = comps acc.
Proof.
  induction fuel as [|fuel IH]; intros i acc; [reflexivity|].
  rewrite dac_loop_step. destruct (i <=? num vec - 4 * Lanes d); [|reflexivity].
  rewrite IH. reflexivity.
Qed.

Lemma dac_tail_double_comps d pw pv remaining : forall fuel pos acc,
  comps (dac_tail fuel DotKernelDouble d pw pv remaining pos acc) = comps acc.
Proof.
  induction fuel as [|fuel IH]; intros pos acc; [reflexivity|].
  rewrite dac_tail_step. destruct (pos <? remaining); [|reflexivity].
  rewrite IH. reflexivity.
Qed.

(** X9.  [DotKernelDouble] never writes the compensation accumulators:
    after any number of four-wide and single-wide updates they are what
    they were, and its [Reduce] depends on the four sums only. *)
Theorem DotKernelDouble_leaves_compensation d w w_ofs vec fuel i pw pv remaining pos acc acc' :
  comps (snd (dac_loop fuel DotKernelDouble d w w_ofs vec i acc)) = comps acc /\
  comps (dac_tail fuel DotKernelDouble d pw pv remaining pos acc) = comps acc /\
  (sums acc = sums acc' -> DotKernelDouble_Reduce d acc = DotKernelDouble_Reduce d acc').
Proof.
  split; [apply dac_loop_double_comps|]. split; [apply dac_tail_double_comps|].
  unfold sums, DotKernelDouble_Reduce. intros E. injection E as -> -> -> ->. reflexivity.
Qed.
End DoubleComps.

(** ** The properties on concrete inputs *)

Lemma cn_block_loop_exit_witness :
  0 < Lanes (ScalableTag (uniform_target 4) F32) /\
  2 * Lanes (ScalableTag (uniform_target 4) F32) <= 9 /\
  fst (cn_loop2 9 (ScalableTag (uniform_target 4) F32)
         (MakeSpan x_input 9) (MakeSpan x_input 9) 9 0
         (cond_state ([], []) ([], []))) = 8.
Proof.
  assert (HN : 0 < Lanes (ScalableTag (uniform_target 4) F32)) by (cbn; lia).
  assert (Hn : 2 * Lanes (ScalableTag (uniform_target 4) F32) <= 9) by (cbn; lia).
  split; [exact HN|]. split; [exact Hn|].
  exact (proj1 (cn_block_loop_exit (ScalableTag (uniform_target 4) F32)
                  (MakeSpan x_input 9) (MakeSpan x_input 9) 9
                  (cond_state ([], []) ([], [])) HN Hn)).
Defined.

Lemma vectors_of_cover_witness :
  0 < TargetLanes (uniform_target 4) F32 /\
  TargetLanes (uniform_target 4) F32 <= TargetMaxLanes (uniform_target 4) F32 /\
  9 <= length x_input /\
  exists pad, pad < 4 /\
    concat (vectors_of (uniform_target 4) x_input 9) =
    map (convert F32) (firstn 9 x_input) ++ repeat pzero pad.
Proof.
  assert (HN : 0 < TargetLanes (uniform_target 4) F32) by (cbn; lia).
  assert (HM : TargetLanes (uniform_target 4) F32 <= TargetMaxLanes (uniform_target 4) F32)
    by (cbn; lia).
  assert (Hv : 9 <= length x_input) by (cbn; lia).
  split; [exact HN|]. split; [exact HM|]. split; [exact Hv|].
  exact (proj2 (vectors_of_cover (uniform_target 4) x_input 9 HN HM Hv)).
Defined.

Lemma ConditionNumber_zeros_infinite_witness :
  0 < TargetLanes (uniform_target 4) F32 /\
  TargetLanes (uniform_target 4) F32 <= TargetMaxLanes (uniform_target 4) F32 /\
  9 <= length x_zeros /\ 9 <= length x_input /\
  ConditionNumber (uniform_target 4) x_zeros x_input 9 = Some pinf /\
  ConditionNumber1 (uniform_target 4) x_zeros 9 = Some pinf.
Proof.
  assert (HN : 0 < TargetLanes (uniform_target 4) F32) by (cbn; lia).
  assert (HM : TargetLanes (uniform_target 4) F32 <= TargetMaxLanes (uniform_target 4) F32)
    by (cbn; lia).
  assert (Hw : 9 <= length x_zeros) by (cbn; lia).
  assert (Hv : 9 <= length x_input) by (cbn; lia).
  split; [exact HN|]. split; [exact HM|]. split; [exact Hw|]. split; [exact Hv|].
  split.
  - apply (proj1 (ConditionNumber_zeros_infinite (uniform_target 4) x_zeros x_input 9
                    HN HM Hw Hv)).
    vm_compute. repeat constructor.
  - apply (proj2 (ConditionNumber_zeros_infinite (uniform_target 4) x_input x_zeros 9
                    HN HM Hv Hw)).
    vm_compute. repeat constructor.
Defined.

Lemma ConditionNumber_nan_aborts_witness :
  0 < TargetLanes (uniform_target 4) F32 /\
  TargetLanes (uniform_target 4) F32 <= TargetMaxLanes (uniform_target 4) F32 /\
  9 <= length x_input /\ 9 <= length x_with_nan /\
  ConditionNumber (uniform_target 4) x_input x_with_nan 9 = None /\
  ConditionNumber1 (uniform_target 4) x_with_nan 9 = None.
Proof.
  assert (HN : 0 < TargetLanes (uniform_target 4) F32) by (cbn; lia).
  assert (HM : TargetLanes (uniform_target 4) F32 <= TargetMaxLanes (uniform_target 4) F32)
    by (cbn; lia).
  assert (Hw : 9 <= length x_input) by (cbn; lia).
  assert (Hv : 9 <= length x_with_nan) by (cbn; lia).
  assert (I : In nan (firstn 9 x_with_nan)) by (cbn; tauto).
  split; [exact HN|]. split; [exact HM|]. split; [exact Hw|]. split; [exact Hv|].
  split.
  - exact (proj1 (ConditionNumber_nan_aborts (uniform_target 4) x_input x_with_nan 9
                    HN HM Hw Hv) (or_intror I)).
  - exact (proj2 (ConditionNumber_nan_aborts (uniform_target 4) x_input x_with_nan 9
                    HN HM Hw Hv) I).
Defined.

Lemma Dot_operands_commute_witness :
  (forall df x y,
     TwoProducts (FpArith := fp_arith_spec) df x y = TwoProducts df y x) /\
  IsF32 T_float && IsF32 T_BF16 = IsF32 T_BF16 && IsF32 T_float /\
  Dot (fun WT VT => IsF32 WT && IsF32 VT) T_float T_BF16
    (ScalableTag (uniform_target 4) F32) (MakeSpan x_input 9) 0 x_weights 9 =
  Dot (fun WT VT => IsF32 WT && IsF32 VT) T_BF16 T_float
    (ScalableTag (uniform_target 4) F32) (MakeSpan x_weights 9) 0 x_input 9 /\
  Dot (fun WT VT => IsF32 WT && IsF32 VT) T_float T_BF16
    (ScalableTag (uniform_target 4) F32) (MakeSpan x_input 9) 0 x_weights 9 = f32 37.
Proof.
  assert (TP : forall df x y,
             TwoProducts (FpArith := fp_arith_spec) df x y = TwoProducts df y x)
    by exact spec_TwoProducts_comm.
  assert (HC : IsF32 T_float && IsF32 T_BF16 = IsF32 T_BF16 && IsF32 T_float)
    by reflexivity.
  split; [exact TP|]. split; [exact HC|]. split.
  - exact (proj2 (proj2 (proj2
      (Dot_operands_commute (fun WT VT => IsF32 WT && IsF32 VT) T_float T_BF16
         (ScalableTag (uniform_target 4) F32) x_input x_weights 9 TP HC)))).
  - vm_compute; reflexivity.
Defined.

(* ------------------------------------------------------------------ *)
(** * The relative error of the kernels *)

(** ** Rounding to nearest even, on integers *)

Open Scope Z_scope.

(** The number of binary digits of a positive number brackets it between
    two powers of two, and is the only number that does. *)
Lemma digits2_bounds p :
  2 ^ (Zpos (digits2_pos p) - 1) <= Zpos p < 2 ^ Zpos (digits2_pos p).
Proof.
  induction p as [p IH|p IH|]; cbn [digits2_pos].
  - rewrite Pos2Z.inj_succ.
    replace (Z.succ (Zpos (digits2_pos p)) - 1) with (Z.succ (Zpos (digits2_pos p) - 1)) by lia.
    rewrite !Z.pow_succ_r by lia. lia.
  - rewrite Pos2Z.inj_succ.
    replace (Z.succ (Zpos (digits2_pos p)) - 1) with (Z.succ (Zpos (digits2_pos p) - 1)) by lia.
    rewrite !Z.pow_succ_r by lia. lia.
  - cbn. lia.
Qed.

Lemma digits2_unique p d :
  2 ^ (d - 1) <= Zpos p < 2 ^ d -> Zpos (digits2_pos p) = d.
Proof.
  intros [L U]. pose proof (digits2_bounds p) as [L' U'].
  assert (0 < d).
  { destruct (Z.ltb_spec 0 d); [assumption|].
    destruct (Z.eq_dec d 0) as [->|]; [cbn in U; lia|].
    rewrite Z.pow_neg_r in U by lia. lia. }
  destruct (Z.lt_trichotomy (Zpos (digits2_pos p)) d) as [Hlt|[Heq|Hgt]]; [|exact Heq|].
  - assert (2 ^ Zpos (digits2_pos p) <= 2 ^ (d - 1)) by (apply Z.pow_le_mono_r; lia). lia.
  - assert (2 ^ d <= 2 ^ (Zpos (digits2_pos p) - 1)) by (apply Z.pow_le_mono_r; lia). lia.
Qed.

(** The invariant of the right shift: it holds of the unshifted mantissa, one
    more shift keeps it, and so do any number of them. *)
Lemma shr_inv_init m : 0 <= m -> shr_inv m 0 {| shr_m := m; shr_r := false; shr_s := false |}.
Proof.
  intros Hm. split; [exact Hm|]. exists 0. cbn [shr_m shr_r shr_s].
  change (2 ^ (0 + 1)) with 2. change (2 ^ 0) with 1.
  split; [lia|]. split; [lia|]. tauto.
Qed.

Lemma shr_inv_step m0 k mrs :
  0 <= k -> shr_inv m0 k mrs -> shr_inv m0 (k + 1) (shr_1 mrs).
Proof.
  intros Hk [Hm [t [E [Ht Hs]]]].
  destruct mrs as [m r s]. unfold shr_inv. cbn [shr_m shr_r shr_s] in *.
  replace (k + 1 + 1) with (Z.succ (Z.succ k)) by lia.
  replace (k + 1) with (Z.succ k) in * by lia.
  rewrite !Z.pow_succ_r in * by lia.
  assert (P : 0 < 2 ^ k) by (apply Z.pow_pos_nonneg; lia).
  set (t' := (if r then 2 ^ k else 0) + t).
  assert (S' : orb r s = false <-> t' = 0).
  { subst t'. destruct r; cbn [orb].
    - split; [discriminate | lia].
    - rewrite Z.add_0_l. exact Hs. }
  assert (T' : 0 <= t' < 2 * 2 ^ k) by (subst t'; destruct r; lia).
  destruct m as [|[p|p|]|p]; cbn [shr_1 shr_m shr_r shr_s]; try lia;
    (split; [lia|]; exists t'; split; [subst t'; lia|]; split; [lia|exact S']).
Qed.

Lemma shr_inv_iter m0 p : forall k mrs,
  0 <= k -> shr_inv m0 k mrs -> shr_inv m0 (k + Zpos p) (SpecFloat.iter_pos shr_1 p mrs).
Proof.
  induction p as [p IH|p IH|]; intros k mrs Hk H; cbn [SpecFloat.iter_pos].
  - replace (k + Zpos p~1) with (k + 1 + Zpos p + Zpos p) by lia.
    apply IH; [lia|]. apply IH; [lia|]. now apply shr_inv_step.
  - replace (k + Zpos p~0) with (k + Zpos p + Zpos p) by lia.
    apply IH; [lia|]. now apply IH.
  - now apply shr_inv_step.
Qed.

(** Rounding to nearest after a shift by [k > 0] bits: the result is within
    half a unit of the shifted mantissa, and is the mantissa itself when the
    bits shifted out are zero. *)
Lemma round_after_shift m0 k mrs :
  0 < k -> shr_inv m0 k mrs ->
  let m2 := round_nearest_even (shr_m mrs) (loc_of_shr_record mrs) in
  Z.abs (2 * m0 - m2 * 2 ^ (k + 1)) <= 2 ^ k /\
  shr_m mrs <= m2 <= shr_m mrs + 1 /\
  shr_m mrs * 2 ^ k <= m0 < (shr_m mrs + 1) * 2 ^ k /\
  ((2 ^ k | m0) -> m0 = m2 * 2 ^ k).
Proof.
  intros Hk [Hm [t [E [Ht Hs]]]]. destruct mrs as [m r s].
  cbn [shr_m shr_r shr_s] in *. cbv zeta.
  replace (k + 1) with (Z.succ k) in * by lia.
  rewrite !Z.pow_succ_r in * by lia.
  assert (P : 0 < 2 ^ k) by (apply Z.pow_pos_nonneg; lia).
  assert (D : (2 ^ k | m0) -> r = false /\ t = 0).
  { intros [q Hq]. subst m0.
    assert (Hr : (if r then 2 ^ k else 0) + t = 2 * 2 ^ k * (q - m)) by lia.
    destruct r.
    - assert (2 ^ k * (2 * (q - m) - 1) = t) by lia.
      assert (0 <= 2 * (q - m) - 1) by nia.
      assert (2 * (q - m) - 1 < 1) by nia. lia.
    - split; [reflexivity|].
      assert (0 <= q - m) by nia. assert (q - m < 1) by nia.
      assert (q - m = 0) by lia. nia. }
  assert (St : s = false -> t = 0) by (intros ->; now apply Hs).
  destruct r, s; cbn [loc_of_shr_record round_nearest_even].
  - repeat split; try lia. intros H. destruct (D H); discriminate.
  - specialize (St eq_refl).
    destruct (Z.even m); repeat split; try lia; intros H; destruct (D H); discriminate.
  - repeat split; try lia. intros H. destruct (D H) as [_ T0].
    destruct Hs as [_ Hs]. specialize (Hs T0). discriminate.
  - specialize (St eq_refl). repeat split; try lia.
Qed.

(** [shr] by no bit, and by a positive number of bits. *)
Lemma shr_nonpos mrs e n : n <= 0 -> shr mrs e n = (mrs, e).
Proof. intros H. destruct n; try reflexivity. lia. Qed.

Lemma shr_pos m0 e p :
  0 <= m0 ->
  exists mrs, shr {| shr_m := m0; shr_r := false; shr_s := false |} e (Zpos p) = (mrs, e + Zpos p) /\
              shr_inv m0 (Zpos p) mrs.
Proof.
  intros H. eexists. split; [reflexivity|].
  apply (shr_inv_iter m0 p 0); [lia|]. now apply shr_inv_init.
Qed.

Section Format.
Variables prec emax : Z.
Hypothesis Hprec : 1 < prec.
Hypothesis Hemax : prec < emax.

Local Notation "'emin'" := (SpecFloat.emin prec emax).
Local Notation "'fexp'" := (SpecFloat.fexp prec emax).

(** The exponent a number of [d + e] digits is rounded to. *)
Lemma fexp_eq x : fexp x = Z.max (x - prec) (3 - emax - prec).
Proof. reflexivity. Qed.

(** What [binary_round_aux] returns on a positive mantissa that needs no
    left shift, when the value is below [2^(emax-1)]. *)
Lemma round_aux_Z s m e :
  let d := Zpos (digits2_pos m) in
  let e1 := fexp (d + e) in
  e <= e1 -> d + e < emax ->
  exists m2,
    0 <= m2 /\
    Z.abs (2 * Zpos m - m2 * 2 ^ (e1 - e + 1)) <= 2 ^ (e1 - e) /\
    ((2 ^ (e1 - e) | Zpos m) -> Zpos m = m2 * 2 ^ (e1 - e)) /\
    match binary_round_aux prec emax s (Zpos m) e loc_Exact with
    | S754_zero s' => s' = s /\ m2 = 0
    | S754_finite s' m3 e3 =>
        s' = s /\ SpecFloat.bounded prec emax m3 e3 = true /\ e1 <= e3 /\
        Zpos m3 * 2 ^ (e3 - e1) = m2
    | _ => False
    end.
Proof.
  intros d e1 Hk Hov.
  pose proof (digits2_bounds m) as [DL DU]. fold d in DL, DU.
  assert (Hd : 0 < d) by (subst d; lia).
  assert (E1 : e1 = Z.max (d + e - prec) (3 - emax - prec)) by reflexivity.
  unfold binary_round_aux, shr_fexp. cbn [Zdigits2 shr_record_of_loc].
  fold d. fold e1.
  destruct (Z.eq_dec (e1 - e) 0) as [K0|K0].
  - (* no shift *)
    rewrite K0. cbn [shr shr_m loc_of_shr_record round_nearest_even Zdigits2].
    fold d. fold e1. rewrite K0. cbn [shr shr_m].
    exists (Zpos m). split; [lia|]. split; [change (2 ^ (0 + 1)) with 2; change (2 ^ 0) with 1; lia|].
    split; [change (2 ^ 0) with 1; lia|].
    assert (e <= emax - prec) by lia.
    destruct (Z.leb_spec e (emax - prec)); [|lia].
    split; [reflexivity|]. split.
    + unfold SpecFloat.bounded, canonical_mantissa. fold d. fold e1.
      apply andb_true_intro. split; [apply Z.eqb_eq; lia | apply Z.leb_le; lia].
    + split; [lia|]. replace (e - e1) with 0 by lia. change (2 ^ 0) with 1. lia.
  - (* a shift by k > 0 bits *)
    assert (Kp : 0 < e1 - e) by lia.
    destruct (e1 - e) as [|p|p] eqn:Ek; try lia.
    destruct (shr_pos (Zpos m) e p) as [mrs [-> Inv]]; [lia|].
    pose proof (round_after_shift (Zpos m) (Zpos p) mrs Kp Inv) as R. cbv zeta in R.
    set (m2 := round_nearest_even (shr_m mrs) (loc_of_shr_record mrs)) in *.
    destruct R as [Rerr [Rm2 [Rm1 Rdiv]]].
    destruct Inv as [M1 _].
    assert (P : 0 < 2 ^ Zpos p) by (apply Z.pow_pos_nonneg; lia).
    assert (Ee : e + Zpos p = e1) by lia. rewrite Ee.
    assert (B1 : shr_m mrs < 2 ^ prec).
    { assert (2 ^ d <= 2 ^ (prec + Zpos p)) by (apply Z.pow_le_mono_r; lia).
      rewrite Z.pow_add_r in H by lia.
      assert (2 ^ prec > 0) by (apply Z.lt_gt, Z.pow_pos_nonneg; lia). nia. }
    exists m2. split; [lia|]. split; [exact Rerr|]. split; [exact Rdiv|].
    assert (Pp : 0 < 2 ^ prec) by (apply Z.pow_pos_nonneg; lia).
    destruct (Z.eq_dec m2 0) as [Z2|Z2].
    + rewrite Z2. cbn [Zdigits2]. rewrite shr_nonpos by (rewrite fexp_eq; lia).
      cbn [shr_m]. split; reflexivity.
    + destruct m2 as [|q|q] eqn:Eq2; try lia. cbn [Zdigits2].
      pose proof (digits2_bounds q) as [QL QU].
      set (d2 := Zpos (digits2_pos q)) in *.
      assert (N1 : e1 = d + e - prec -> 2 ^ (prec - 1) <= Zpos q).
      { intros En. assert (Zpos p = d - prec) by lia.
        assert (2 ^ (d - 1) = 2 ^ (prec - 1) * 2 ^ Zpos p).
        { rewrite <- Z.pow_add_r by lia. f_equal. lia. }
        assert (0 < 2 ^ (prec - 1)) by (apply Z.pow_pos_nonneg; lia).
        nia. }
      destruct (Z.eq_dec (Zpos q) (2 ^ prec)) as [Top|Top].
      * (* the mantissa reached 2^prec: one more shift *)
        assert (D2 : d2 = prec + 1).
        { apply digits2_unique. rewrite Top.
          replace (prec + 1 - 1) with prec by lia.
          split; [lia|]. apply Z.pow_lt_mono_r; lia. }
        replace (fexp (d2 + e1) - e1) with 1 by (rewrite fexp_eq; lia).
        assert (exists q', q = xO q' /\ Zpos q' = 2 ^ (prec - 1)) as [q' [-> Hq']].
        { replace prec with (Z.succ (prec - 1)) in Top at 1 by lia.
          rewrite Z.pow_succ_r in Top by lia.
          destruct q as [q'|q'|].
          - lia.
          - exists q'. split; [reflexivity|lia].
          - assert (0 < 2 ^ (prec - 1)) by (apply Z.pow_pos_nonneg; lia). lia. }
        cbn [shr SpecFloat.iter_pos shr_1 shr_m].
        destruct (Z.leb_spec (e1 + 1) (emax - prec)); [|lia].
        split; [reflexivity|]. split.
        { unfold SpecFloat.bounded, canonical_mantissa.
          assert (Zpos (digits2_pos q') = prec).
          { apply digits2_unique. rewrite Hq'. split; [lia|]. apply Z.pow_lt_mono_r; lia. }
          rewrite H0. apply andb_true_intro. split; [apply Z.eqb_eq; rewrite fexp_eq; lia | apply Z.leb_le; lia]. }
        split; [lia|]. replace (e1 + 1 - e1) with 1 by lia. change (2 ^ 1) with 2. lia.
      * assert (Q : Zpos q < 2 ^ prec) by lia.
        assert (D2 : d2 <= prec).
        { destruct (Z.le_gt_cases d2 prec); [assumption|].
          assert (2 ^ prec <= 2 ^ (d2 - 1)) by (apply Z.pow_le_mono_r; lia). lia. }
        assert (D2' : e1 = d + e - prec -> d2 = prec).
        { intros En. specialize (N1 En).
          destruct (Z.le_gt_cases prec d2); [lia|].
          assert (2 ^ d2 <= 2 ^ (prec - 1)) by (apply Z.pow_le_mono_r; subst d2; lia). lia. }
        assert (F2 : fexp (d2 + e1) = e1) by (rewrite fexp_eq; lia).
        rewrite F2, Z.sub_diag. cbn [shr shr_m].
        destruct (Z.leb_spec e1 (emax - prec)); [|lia].
        split; [reflexivity|]. split.
        { unfold SpecFloat.bounded, canonical_mantissa. fold d2. rewrite F2.
          apply andb_true_intro. split; [apply Z.eqb_eq; lia | apply Z.leb_le; lia]. }
        split; [lia|]. rewrite Z.sub_diag. change (2 ^ 0) with 1. lia.
Qed.

End Format.

(** The left shift that aligns two mantissas. *)
Lemma iter_xO_pow m d : Zpos (Pos.iter xO m d) = Zpos m * 2 ^ Zpos d.
Proof.
  change (Pos.iter xO m d) with (shift_pos d m).
  rewrite shift_pos_correct. rewrite Zpower_pos_nat, Zpower_nat_Z, positive_nat_Z. lia.
Qed.

Lemma shl_align_spec mx ex ex' :
  let '(mz, ez) := shl_align mx ex ex' in
  ez = Z.min ex ex' /\ Zpos mz = Zpos mx * 2 ^ (ex - ez).
Proof.
  unfold shl_align. destruct (ex' - ex) as [|p|p] eqn:E.
  - split; [lia|]. rewrite Z.sub_diag. change (2 ^ 0) with 1. lia.
  - split; [lia|]. rewrite Z.sub_diag. change (2 ^ 0) with 1. lia.
  - split; [lia|]. rewrite iter_xO_pow. f_equal. f_equal. lia.
Qed.

(** A left shift by [k] adds [k] digits. *)
Lemma digits2_shift m k :
  0 <= k -> forall mz, Zpos mz = Zpos m * 2 ^ k ->
  Zpos (digits2_pos mz) = Zpos (digits2_pos m) + k.
Proof.
  intros Hk mz E. apply digits2_unique. rewrite E.
  pose proof (digits2_bounds m) as [L U].
  replace (Zpos (digits2_pos m) + k - 1) with (Zpos (digits2_pos m) - 1 + k) by lia.
  rewrite !Z.pow_add_r by lia.
  assert (0 < 2 ^ k) by (apply Z.pow_pos_nonneg; lia). nia.
Qed.

(* ------------------------------------------------------------------ *)
(** ** Rounding to nearest even, on real numbers *)

Open Scope R_scope.

(** Powers of two. *)
Lemma pow2_pos e : 0 < pow2 e.
Proof. apply powerRZ_lt. lra. Qed.

Lemma pow2_add a b : pow2 (a + b) = pow2 a * pow2 b.
Proof. apply powerRZ_add. lra. Qed.

Lemma pow2_0 : pow2 0 = 1.
Proof. reflexivity. Qed.

Lemma pow2_1 : pow2 1 = 2.
Proof. unfold pow2, powerRZ. simpl. lra. Qed.

Lemma pow2_m1 : pow2 (-1) = / 2.
Proof. unfold pow2, powerRZ. simpl. rewrite Rmult_1_r. reflexivity. Qed.

Lemma pow2_sub a b : pow2 (a - b) = pow2 a / pow2 b.
Proof.
  unfold Rdiv. replace a with ((a - b) + b)%Z at 2 by lia.
  rewrite pow2_add. field. pose proof (pow2_pos b). lra.
Qed.

Lemma pow2_le a b : (a <= b)%Z -> pow2 a <= pow2 b.
Proof.
  intros H. replace b with (a + (b - a))%Z by lia. rewrite pow2_add.
  assert (1 <= pow2 (b - a)).
  { unfold pow2. destruct (b - a)%Z eqn:E; try lia.
    - simpl. lra.
    - simpl. apply pow_R1_Rle. lra. }
  pose proof (pow2_pos a). nra.
Qed.

Lemma pow2_lt a b : (a < b)%Z -> pow2 a < pow2 b.
Proof.
  intros H. assert (pow2 (a + 1) <= pow2 b) by (apply pow2_le; lia).
  rewrite pow2_add, pow2_1 in H0. pose proof (pow2_pos a). lra.
Qed.

Lemma pow2_IZR k : (0 <= k)%Z -> IZR (2 ^ k) = pow2 k.
Proof.
  intros H. unfold pow2. rewrite <- (Z2Nat.id k) by exact H.
  rewrite <- pow_powerRZ. rewrite <- pow_IZR. reflexivity.
Qed.

(** Signs and mantissas as real numbers. *)
Lemma value_scale s m e k :
  (0 <= k)%Z ->
  IZR (cond_Zopp s (Zpos m * 2 ^ k)) * pow2 e = IZR (cond_Zopp s (Zpos m)) * pow2 (e + k).
Proof.
  intros Hk. rewrite pow2_add, <- (pow2_IZR k) by exact Hk.
  destruct s; cbn [cond_Zopp]; rewrite ?opp_IZR, ?mult_IZR; try rewrite opp_IZR; ring.
Qed.

Lemma IZR_cond_Zopp s z : IZR (cond_Zopp s z) = sg s * IZR z.
Proof. destruct s; cbn [cond_Zopp sg]; rewrite ?opp_IZR; ring. Qed.

Lemma Rabs_sg s x : Rabs (sg s * x) = Rabs x.
Proof. destruct s; cbn [sg]; [replace (-1 * x) with (- x) by ring; apply Rabs_Ropp | now rewrite Rmult_1_l]. Qed.

(** An absolute value below [b] is between [-b] and [b]. *)
Lemma Rabs_bound a b : Rabs a <= b -> - b <= a <= b.
Proof. unfold Rabs. destruct (Rcase_abs a); lra. Qed.

(** Half a unit in the last place, from integers to real numbers. *)
Lemma half_unit_R m m2 k e :
  (0 <= k)%Z ->
  (Z.abs (2 * m - m2 * 2 ^ (k + 1)) <= 2 ^ k)%Z ->
  Rabs (IZR m2 * pow2 (e + k) - IZR m * pow2 e) <= pow2 (e + k - 1).
Proof.
  intros Hk H. apply IZR_le in H.
  rewrite abs_IZR, minus_IZR, !mult_IZR, !pow2_IZR in H by lia.
  replace (e + k - 1)%Z with (e + k + -1)%Z by lia.
  rewrite !pow2_add, pow2_m1. rewrite pow2_add, pow2_1 in H.
  pose proof (pow2_pos e) as Pe. pose proof (pow2_pos k) as Pk.
  apply Rabs_le. apply Rabs_bound in H. destruct H as [H1 H2]. split; nra.
Qed.

Section FormatR.
Variables prec emax : Z.
Hypothesis Hprec : (1 < prec)%Z.
Hypothesis Hemax : (prec < emax)%Z.

Local Notation "'emin'" := (SpecFloat.emin prec emax).
Local Notation "'fexp'" := (SpecFloat.fexp prec emax).

(** [binary_round_aux] of a mantissa that does not overflow: the result is a
    number of the format within half a unit in the last place of the value
    rounded, and is that value when no bit is shifted out. *)
Lemma round_aux_R s m e :
  let d := Zpos (digits2_pos m) in
  let e1 := fexp (d + e)%Z in
  (e <= e1)%Z -> (d + e < emax)%Z ->
  let r := binary_round_aux prec emax s (Zpos m) e loc_Exact in
  let V := sg s * IZR (Zpos m) * pow2 e in
  fin prec emax r /\ expo_ge e1 r /\
  Rabs (value r - V) <= pow2 (e1 - 1) /\
  (e = e1 -> value r = V).
Proof.
  intros d e1 Hk Hov r V.
  destruct (round_aux_Z prec emax Hprec Hemax s m e Hk Hov) as [m2 [M2 [Err [Div Res]]]].
  fold d in Err, Div, Res. fold e1 in Err, Div, Res. fold r in Res.
  assert (HK : (0 <= e1 - e)%Z) by lia.
  pose proof (half_unit_R (Zpos m) m2 (e1 - e) e HK Err) as HR.
  replace (e + (e1 - e))%Z with e1 in HR by lia.
  assert (EX : e = e1 -> Zpos m = m2).
  { intros E. rewrite <- E, Z.sub_diag in Div. change (2 ^ 0)%Z with 1%Z in Div.
    rewrite Z.mul_1_r in Div. apply Div. apply Z.divide_1_l. }
  destruct r as [s'|s'| |s' m3 e3]; try contradiction.
  - destruct Res as [-> ->]. split; [split; reflexivity|]. split; [exact I|].
    cbn [value]. subst V. split.
    + rewrite Rmult_0_l in HR. rewrite Rminus_0_l, Rabs_Ropp, Rmult_assoc, Rabs_sg.
      rewrite Rminus_0_l, Rabs_Ropp in HR. exact HR.
    + intros E. specialize (EX E). lia.
  - destruct Res as [-> [Bd [E3 M3]]].
    split; [split; [reflexivity|exact Bd]|]. split; [exact E3|].
    assert (Val : value (S754_finite s m3 e3) = sg s * (IZR m2 * pow2 e1)).
    { cbn [value]. rewrite IZR_cond_Zopp. rewrite <- M3, mult_IZR, pow2_IZR by lia.
      rewrite Rmult_assoc. f_equal. rewrite Rmult_assoc. f_equal.
      rewrite <- pow2_add. f_equal. lia. }
    rewrite Val. subst V. split.
    + rewrite Rmult_assoc, <- Rmult_minus_distr_l, Rabs_sg. exact HR.
    + intros E. specialize (EX E). rewrite <- EX, E. ring.
Qed.

(** The same of [binary_round], which first shifts the mantissa to the left. *)
Lemma binary_round_R s m e :
  let d := Zpos (digits2_pos m) in
  let e1 := fexp (d + e)%Z in
  (d + e < emax)%Z ->
  let r := binary_round prec emax s m e in
  let V := sg s * IZR (Zpos m) * pow2 e in
  fin prec emax r /\ expo_ge e1 r /\
  Rabs (value r - V) <= pow2 (e1 - 1) /\
  ((e1 <= e)%Z -> value r = V).
Proof.
  intros d e1 Hov r V. subst r. unfold binary_round. fold d. fold e1.
  pose proof (shl_align_spec m e e1) as SA.
  destruct (shl_align m e e1) as [mz ez]. destruct SA as [Ez Mz].
  assert (Dz : Zpos (digits2_pos mz) = (d + (e - ez))%Z).
  { apply digits2_shift; [lia|exact Mz]. }
  assert (F : fexp (Zpos (digits2_pos mz) + ez)%Z = e1).
  { rewrite Dz. subst e1. f_equal. lia. }
  pose proof (round_aux_R s mz ez) as RA. cbv zeta in RA. rewrite F in RA.
  assert (VV : sg s * IZR (Zpos mz) * pow2 ez = V).
  { subst V. rewrite Mz, mult_IZR, pow2_IZR by lia.
    rewrite !Rmult_assoc. f_equal. f_equal. rewrite <- pow2_add. f_equal. lia. }
  rewrite VV in RA.
  destruct RA as [Fin [Ex [Err Exact]]]; [lia|lia|].
  split; [exact Fin|]. split; [exact Ex|]. split; [exact Err|].
  intros H. apply Exact. lia.
Qed.

(** The relative error of a rounding to nearest: [2^-prec], when the
    mantissa sits on an exponent of the format. *)
Lemma binary_round_rel s m e :
  (Zpos (digits2_pos m) + e < emax)%Z -> (emin <= e)%Z ->
  let r := binary_round prec emax s m e in
  let V := sg s * IZR (Zpos m) * pow2 e in
  fin prec emax r /\ Rabs (value r - V) <= pow2 (- prec) * Rabs V.
Proof.
  intros Hov He r V.
  destruct (binary_round_R s m e Hov) as [Fin [_ [Err Exact]]].
  fold r in Fin, Err, Exact. fold V in Err, Exact.
  split; [exact Fin|].
  set (d := Zpos (digits2_pos m)) in *.
  destruct (Z.le_gt_cases (fexp (d + e)%Z) e) as [L|G].
  - rewrite (Exact L). rewrite Rminus_diag, Rabs_R0.
    apply Rmult_le_pos; [apply Rlt_le, pow2_pos | apply Rabs_pos].
  - assert (E1 : fexp (d + e)%Z = (d + e - prec)%Z).
    { unfold SpecFloat.fexp, SpecFloat.emin in *. lia. }
    rewrite E1 in Err. eapply Rle_trans; [exact Err|].
    subst V. rewrite Rmult_assoc, Rabs_sg.
    rewrite Rabs_mult, (Rabs_pos_eq (pow2 e)) by (apply Rlt_le, pow2_pos).
    rewrite Rabs_pos_eq by (apply IZR_le; lia).
    pose proof (digits2_bounds m) as [DL _]. fold d in DL.
    apply IZR_le in DL. rewrite pow2_IZR in DL by (subst d; lia).
    replace (d + e - prec - 1)%Z with (- prec + ((d - 1) + e))%Z by lia.
    rewrite !pow2_add.
    pose proof (pow2_pos (- prec)). pose proof (pow2_pos e). pose proof (pow2_pos (d - 1)).
    apply Rmult_le_compat_l; [lra|]. apply Rmult_le_compat_r; lra.
Qed.

End FormatR.

Close Scope R_scope.
Close Scope Z_scope.
Open Scope R_scope.

(* ------------------------------------------------------------------ *)
(** ** Addition and multiplication of a format *)

Section FormatOps.
Variables prec emax : Z.
Hypothesis Hprec : (1 < prec)%Z.
Hypothesis Hemax : (prec < emax)%Z.

Local Notation "'emin'" := (SpecFloat.emin prec emax).
Local Notation "'fexp'" := (SpecFloat.fexp prec emax).
Local Notation "'u'" := (pow2 (- prec)).

(** The unit roundoff is positive. *)
Lemma u_pos : 0 < u.
Proof. apply pow2_pos. Qed.

(** A value below [2^(emax - 1)] has its digits below [emax]. *)
Lemma digits_overflow m e :
  IZR (Zpos m) * pow2 e < pow2 (emax - 1) -> (Zpos (digits2_pos m) + e < emax)%Z.
Proof.
  intros H. destruct (Z.lt_ge_cases (Zpos (digits2_pos m) + e) emax) as [L|G]; [exact L|].
  exfalso. pose proof (digits2_bounds m) as [DL _].
  apply IZR_le in DL. rewrite pow2_IZR in DL by lia.
  assert (pow2 (emax - 1) <= pow2 (Zpos (digits2_pos m) - 1 + e)) by (apply pow2_le; lia).
  rewrite pow2_add in H0. pose proof (pow2_pos e). nra.
Qed.

(** Rounding an integer mantissa on an exponent of the format. *)
Lemma binary_normalize_R m e sz :
  (emin <= e)%Z -> Rabs (IZR m * pow2 e) < pow2 (emax - 1) ->
  let r := binary_normalize prec emax m e sz in
  fin prec emax r /\
  Rabs (value r - IZR m * pow2 e) <= u * Rabs (IZR m * pow2 e).
Proof.
  intros He Hov r. subst r. pose proof (pow2_pos e) as Pe.
  destruct m as [|p|p]; cbn [binary_normalize].
  - split; [split; reflexivity|]. cbn [value]. rewrite Rmult_0_l, Rminus_diag, Rabs_R0. lra.
  - assert (O : (Zpos (digits2_pos p) + e < emax)%Z).
    { apply digits_overflow. rewrite Rabs_pos_eq in Hov; [exact Hov|].
      apply Rmult_le_pos; [apply IZR_le; lia|lra]. }
    pose proof (binary_round_rel prec emax Hprec Hemax false p e O He) as R.
    cbv zeta in R. cbn [sg] in R. rewrite !Rmult_1_l in R. exact R.
  - assert (O : (Zpos (digits2_pos p) + e < emax)%Z).
    { apply digits_overflow.
      replace (IZR (Zneg p)) with (- IZR (Zpos p)) in Hov by (rewrite <- opp_IZR; reflexivity).
      rewrite Ropp_mult_distr_l_reverse, Rabs_Ropp, Rabs_pos_eq in Hov; [exact Hov|].
      apply Rmult_le_pos; [apply IZR_le; lia|lra]. }
    pose proof (binary_round_rel prec emax Hprec Hemax true p e O He) as R.
    cbv zeta in R. cbn [sg] in R.
    replace (-1 * IZR (Zpos p) * pow2 e) with (IZR (Zneg p) * pow2 e) in R.
    + exact R.
    + replace (IZR (Zneg p)) with (- IZR (Zpos p)) by (rewrite <- opp_IZR; reflexivity). ring.
Qed.

(** Aligning a mantissa keeps its value. *)
Lemma value_aligned s m e ez :
  (ez <= e)%Z ->
  IZR (cond_Zopp s (Zpos (fst (shl_align m e ez)))) * pow2 (Z.min e ez) =
  IZR (cond_Zopp s (Zpos m)) * pow2 e.
Proof.
  intros H. pose proof (shl_align_spec m e ez) as SA.
  destruct (shl_align m e ez) as [mz e']. destruct SA as [E' Mz]. cbn [fst].
  rewrite Mz, !IZR_cond_Zopp, mult_IZR, pow2_IZR by lia.
  rewrite !Rmult_assoc. f_equal. f_equal. rewrite <- pow2_add. f_equal. lia.
Qed.

(** The sum of two finite numbers (canonical or not) whose exponents are
    exponents of the format. *)
Lemma SFadd_finite_R sx mx ex sy my ey :
  (emin <= ex)%Z -> (emin <= ey)%Z ->
  let x := S754_finite sx mx ex in
  let y := S754_finite sy my ey in
  Rabs (value x + value y) < pow2 (emax - 1) ->
  let r := SFadd prec emax x y in
  fin prec emax r /\
  Rabs (value r - (value x + value y)) <= u * Rabs (value x + value y).
Proof.
  intros Hx Hy x y Hov r. subst r x y. cbn [SFadd value] in *.
  set (ez := Z.min ex ey).
  assert (V : IZR (cond_Zopp sx (Zpos (fst (shl_align mx ex ez))) +
                   cond_Zopp sy (Zpos (fst (shl_align my ey ez)))) * pow2 ez =
              IZR (cond_Zopp sx (Zpos mx)) * pow2 ex + IZR (cond_Zopp sy (Zpos my)) * pow2 ey).
  { rewrite plus_IZR, Rmult_plus_distr_r.
    pose proof (value_aligned sx mx ex ez) as A. pose proof (value_aligned sy my ey ez) as B.
    replace (Z.min ex ez) with ez in A by lia. replace (Z.min ey ez) with ez in B by lia.
    rewrite A, B by lia. reflexivity. }
  rewrite <- V in *. apply binary_normalize_R; [lia|exact Hov].
Qed.

(** A canonical mantissa has at most [prec] digits, on an exponent of the
    format; it has [prec] digits unless the exponent is the least one. *)
Lemma bounded_facts m e :
  SpecFloat.bounded prec emax m e = true ->
  (Zpos (digits2_pos m) <= prec /\ emin <= e /\ e <= emax - prec /\
   fexp (Zpos (digits2_pos m) + e) = e /\
   (Zpos (digits2_pos m) = prec \/ e = emin))%Z.
Proof.
  unfold SpecFloat.bounded, canonical_mantissa. intros H.
  apply andb_prop in H. destruct H as [C B].
  apply Z.eqb_eq in C. apply Z.leb_le in B.
  unfold SpecFloat.fexp, SpecFloat.emin in *. lia.
Qed.

(** The exponent of a number of the format is at least [emin]; zeros are
    numbers of every format. *)
Lemma fin_expo x : fin prec emax x -> expo_ge emin x.
Proof.
  intros [_ V]. destruct x as [| | |s m e]; cbn [expo_ge]; try exact I.
  cbn [valid_binary] in V. apply bounded_facts in V. lia.
Qed.

Lemma fin_zero s : fin prec emax (S754_zero s).
Proof. split; reflexivity. Qed.

(** The sum of two numbers of the format. *)
Lemma SFadd_R x y :
  fin prec emax x -> fin prec emax y ->
  Rabs (value x + value y) < pow2 (emax - 1) ->
  let r := SFadd prec emax x y in
  fin prec emax r /\
  Rabs (value r - (value x + value y)) <= u * Rabs (value x + value y).
Proof.
  intros Fx Fy Hov r. subst r.
  pose proof (fin_expo x Fx) as Ex. pose proof (fin_expo y Fy) as Ey.
  pose proof u_pos as U.
  assert (Z0 : forall v, Rabs (v - v) <= u * Rabs v).
  { intros v. rewrite Rminus_diag, Rabs_R0. pose proof (Rabs_pos v). nra. }
  destruct x as [sx|sx| |sx mx ex], y as [sy|sy| |sy my ey];
    try (destruct Fx as [Fx _]; discriminate Fx);
    try (destruct Fy as [Fy _]; discriminate Fy).
  - cbn [SFadd]. destruct sx, sy; (split; [apply fin_zero|]); cbn [value];
      rewrite Rplus_0_l; apply Z0.
  - cbn [SFadd]. split; [exact Fy|]. cbn [value]. rewrite Rplus_0_l. apply Z0.
  - cbn [SFadd]. split; [exact Fx|]. cbn [value]. rewrite Rplus_0_r. apply Z0.
  - apply SFadd_finite_R; assumption.
Qed.

(** The digits, the sign and the value of an exact product. *)
Lemma digits2_mul mx my :
  (Zpos (digits2_pos mx) + Zpos (digits2_pos my) - 1 <= Zpos (digits2_pos (mx * my)))%Z.
Proof.
  pose proof (digits2_bounds mx) as [Lx Ux]. pose proof (digits2_bounds my) as [Ly Uy].
  pose proof (digits2_bounds (mx * my)) as [L U0].
  set (dx := Zpos (digits2_pos mx)) in *. set (dy := Zpos (digits2_pos my)) in *.
  set (d := Zpos (digits2_pos (mx * my))) in *.
  destruct (Z.le_gt_cases (dx + dy - 1) d) as [H|H]; [exact H|]. exfalso.
  assert (2 ^ d <= 2 ^ (dx - 1 + (dy - 1)))%Z by (apply Z.pow_le_mono_r; lia).
  rewrite Z.pow_add_r in H0 by (subst dx dy; lia).
  rewrite Pos2Z.inj_mul in U0.
  assert (0 < 2 ^ (dx - 1))%Z by (apply Z.pow_pos_nonneg; subst dx; lia).
  assert (0 < 2 ^ (dy - 1))%Z by (apply Z.pow_pos_nonneg; subst dy; lia).
  nia.
Qed.

Lemma sg_xorb a b : sg (xorb a b) = sg a * sg b.
Proof. destruct a, b; cbn [xorb sg]; ring. Qed.

Lemma value_mul_exact sx mx ex sy my ey :
  value (S754_finite (xorb sx sy) (mx * my) (ex + ey)) =
  value (S754_finite sx mx ex) * value (S754_finite sy my ey).
Proof.
  cbn [value]. rewrite !IZR_cond_Zopp, sg_xorb, Pos2Z.inj_mul, mult_IZR, pow2_add. ring.
Qed.

(** Half a unit in the last place is at most [u] times the value, once the
    rounding is not on the least exponent. *)
Lemma half_ulp_rel m e :
  (fexp (Zpos (digits2_pos m) + e) = Zpos (digits2_pos m) + e - prec)%Z ->
  pow2 (fexp (Zpos (digits2_pos m) + e) - 1) <= u * (IZR (Zpos m) * pow2 e).
Proof.
  intros E1. set (d := Zpos (digits2_pos m)) in *.
  rewrite E1.
  pose proof (digits2_bounds m) as [DL _]. fold d in DL.
  apply IZR_le in DL. rewrite pow2_IZR in DL by (subst d; lia).
  replace (d + e - prec - 1)%Z with (- prec + ((d - 1) + e))%Z by lia.
  rewrite !pow2_add.
  pose proof (pow2_pos (- prec)). pose proof (pow2_pos e). pose proof (pow2_pos (d - 1)).
  apply Rmult_le_compat_l; [lra|]. apply Rmult_le_compat_r; lra.
Qed.

(** The product of two numbers of the format, when the sum of their
    exponents is an exponent of the format. *)
Lemma SFmul_R x y :
  fin prec emax x -> fin prec emax y ->
  Rabs (value x * value y) < pow2 (emax - 1) ->
  (forall sx mx ex sy my ey,
     x = S754_finite sx mx ex -> y = S754_finite sy my ey -> (emin <= ex + ey)%Z) ->
  let r := SFmul prec emax x y in
  fin prec emax r /\
  Rabs (value r - value x * value y) <= u * Rabs (value x * value y).
Proof.
  intros Fx Fy Hov Hlo r. subst r. pose proof u_pos as U.
  assert (Z0 : forall v, Rabs (0 - v * 0) <= u * Rabs (v * 0)).
  { intros v. rewrite Rmult_0_r, Rminus_diag, Rabs_R0. lra. }
  destruct x as [sx|sx| |sx mx ex], y as [sy|sy| |sy my ey];
    try (destruct Fx as [Fx _]; discriminate Fx);
    try (destruct Fy as [Fy _]; discriminate Fy).
  - cbn [SFmul value]. split; [apply fin_zero|]. apply Z0.
  - cbn [SFmul value]. split; [apply fin_zero|]. rewrite Rmult_0_l, Rminus_diag, Rabs_R0. lra.
  - cbn [SFmul]. split; [apply fin_zero|]. cbn [value]. apply Z0.
  - specialize (Hlo sx mx ex sy my ey eq_refl eq_refl).
    cbn [SFmul]. rewrite <- value_mul_exact in *.
    destruct Fx as [_ Vx], Fy as [_ Vy]. cbn [valid_binary] in Vx, Vy.
    apply bounded_facts in Vx, Vy.
    pose proof (digits2_mul mx my) as DM.
    pose proof (digits2_bounds mx) as [Lx _]. pose proof (digits2_bounds my) as [Ly _].
    set (d := Zpos (digits2_pos (mx * my))) in *.
    assert (K : (ex + ey <= fexp (d + (ex + ey)))%Z).
    { unfold SpecFloat.fexp, SpecFloat.emin in *. lia. }
    assert (V : value (S754_finite (xorb sx sy) (mx * my) (ex + ey)) =
                sg (xorb sx sy) * IZR (Zpos (mx * my)) * pow2 (ex + ey)).
    { cbn [value]. now rewrite IZR_cond_Zopp. }
    assert (O : (d + (ex + ey) < emax)%Z).
    { apply digits_overflow. rewrite V, Rmult_assoc, Rabs_sg, Rabs_pos_eq in Hov; [exact Hov|].
      apply Rmult_le_pos; [apply IZR_le; lia | apply Rlt_le, pow2_pos]. }
    destruct (round_aux_R prec emax Hprec Hemax (xorb sx sy) (mx * my) (ex + ey) K O)
      as [Fin [_ [Err Exact]]].
    fold d in Err, Exact. rewrite <- V in Err, Exact.
    split; [exact Fin|].
    destruct (Z.eq_dec (ex + ey) (fexp (d + (ex + ey)))) as [E|NE].
    + rewrite (Exact E), Rminus_diag, Rabs_R0.
      apply Rmult_le_pos; [lra | apply Rabs_pos].
    + eapply Rle_trans; [exact Err|].
      rewrite V, Rmult_assoc, Rabs_sg, Rabs_pos_eq.
      * apply half_ulp_rel. fold d. unfold SpecFloat.fexp, SpecFloat.emin in *. lia.
      * apply Rmult_le_pos; [apply IZR_le; lia | apply Rlt_le, pow2_pos].
Qed.

(** Rounding a finite number whose mantissa needs no right shift. *)
Lemma binary_round_exact s m e :
  (fexp (Zpos (digits2_pos m) + e) <= e)%Z -> (Zpos (digits2_pos m) + e < emax)%Z ->
  let r := binary_round prec emax s m e in
  fin prec emax r /\ value r = value (S754_finite s m e) /\
  expo_ge (fexp (Zpos (digits2_pos m) + e)) r.
Proof.
  intros K O r.
  destruct (binary_round_R prec emax Hprec Hemax s m e O) as [Fin [Ex [_ Exact]]].
  split; [exact Fin|]. split; [|exact Ex].
  cbn [value]. rewrite IZR_cond_Zopp. apply Exact. exact K.
Qed.

(** Rounding a finite number in the normal range of the format. *)
Lemma binary_round_normal s m e :
  (Zpos (digits2_pos m) + e < emax)%Z -> (emin + prec <= Zpos (digits2_pos m) + e)%Z ->
  let r := binary_round prec emax s m e in
  let V := value (S754_finite s m e) in
  fin prec emax r /\ Rabs (value r - V) <= u * Rabs V.
Proof.
  intros O N r V.
  destruct (binary_round_R prec emax Hprec Hemax s m e O) as [Fin [_ [Err Exact]]].
  fold r in Fin, Err, Exact.
  assert (VV : V = sg s * IZR (Zpos m) * pow2 e).
  { subst V. cbn [value]. now rewrite IZR_cond_Zopp. }
  rewrite <- VV in Err, Exact. split; [exact Fin|].
  set (d := Zpos (digits2_pos m)) in *.
  destruct (Z.le_gt_cases (fexp (d + e)%Z) e) as [L|G].
  - rewrite (Exact L), Rminus_diag, Rabs_R0.
    apply Rmult_le_pos; [apply Rlt_le, u_pos | apply Rabs_pos].
  - eapply Rle_trans; [exact Err|].
    rewrite VV, Rmult_assoc, Rabs_sg, Rabs_pos_eq.
    + apply half_ulp_rel. fold d. unfold SpecFloat.fexp, SpecFloat.emin in *. lia.
    + apply Rmult_le_pos; [apply IZR_le; lia | apply Rlt_le, pow2_pos].
Qed.

End FormatOps.

(* ------------------------------------------------------------------ *)
(** ** The operations of the lane types and the error-free transforms *)

(** The two formats of the lane types satisfy the assumptions made on
    formats. *)
Lemma format_prec t : (1 < prec t)%Z.
Proof. destruct t; cbn; lia. Qed.

Lemma format_emax t : (prec t < emax t)%Z.
Proof. destruct t; cbn; lia. Qed.

(** Zeros are numbers of every lane type. *)
Lemma fint_zero t s : fint t (S754_zero s).
Proof. split; reflexivity. Qed.

(** Addition and multiplication of a lane type: a sum that does not overflow
    is rounded with a relative error of at most the unit roundoff, and so is
    a product that neither overflows nor falls below the least exponent. *)
Lemma add_R t x y :
  fint t x -> fint t y ->
  Rabs (value x + value y) < pow2 (emax t - 1) ->
  fint t (add t x y) /\
  Rabs (value (add t x y) - (value x + value y)) <= ulp_half t * Rabs (value x + value y).
Proof. apply SFadd_R; [apply format_prec | apply format_emax]. Qed.

Lemma mul_R t x y :
  fint t x -> fint t y ->
  Rabs (value x * value y) < pow2 (emax t - 1) ->
  (forall sx mx ex sy my ey,
     x = S754_finite sx mx ex -> y = S754_finite sy my ey -> (emin_of t <= ex + ey)%Z) ->
  fint t (mul t x y) /\
  Rabs (value (mul t x y) - value x * value y) <= ulp_half t * Rabs (value x * value y).
Proof. apply SFmul_R; [apply format_prec | apply format_emax]. Qed.

(** A product with a zero is a zero. *)
Lemma value_zero_mul t x y :
  is_fin x = true -> is_fin y = true ->
  (forall sx mx ex sy my ey, x = S754_finite sx mx ex -> y = S754_finite sy my ey -> False) ->
  exists s, mul t x y = S754_zero s.
Proof.
  intros Fx Fy H. destruct x as [sx|sx| |sx mx ex], y as [sy|sy| |sy my ey];
    try discriminate; try (eexists; reflexivity).
  exfalso. eapply H; reflexivity.
Qed.

(** The fused multiply-add rounds the exact [x * y + z] once. *)
Lemma fma_R t x y z :
  fint t x -> fint t y -> fint t z ->
  (forall sx mx ex sy my ey,
     x = S754_finite sx mx ex -> y = S754_finite sy my ey -> (emin_of t <= ex + ey)%Z) ->
  Rabs (value x * value y) < pow2 (emax t - 1) ->
  Rabs (value x * value y + value z) < pow2 (emax t - 1) ->
  fint t (fma t x y z) /\
  Rabs (value (fma t x y z) - (value x * value y + value z))
    <= ulp_half t * Rabs (value x * value y + value z).
Proof.
  intros Fx Fy Fz Hlo Hp Hs.
  assert (Zero : value x * value y = 0 ->
                 (exists s, mul t x y = S754_zero s) ->
                 fint t (add t (mul t x y) z) /\
                 Rabs (value (add t (mul t x y) z) - (value x * value y + value z))
                   <= ulp_half t * Rabs (value x * value y + value z)).
  { intros V0 [s Es]. rewrite Es, V0.
    replace 0 with (value (S754_zero s)) by reflexivity.
    apply add_R; [apply fint_zero | exact Fz|].
    cbn [value]. rewrite V0 in Hs. exact Hs. }
  destruct x as [sx|sx| |sx mx ex]; try (destruct Fx as [Fx _]; discriminate Fx).
  - cbn [fma]. apply Zero; [cbn [value]; ring|].
    destruct y; try (destruct Fy as [Fy _]; discriminate Fy); eexists; reflexivity.
  - destruct y as [sy|sy| |sy my ey]; try (destruct Fy as [Fy _]; discriminate Fy).
    + cbn [fma]. apply Zero; [cbn [value]; ring | eexists; reflexivity].
    + specialize (Hlo sx mx ex sy my ey eq_refl eq_refl).
      destruct z as [sz|sz| |sz mz ez]; try (destruct Fz as [Fz _]; discriminate Fz).
      * cbn [fma]. cbn [value] in *. rewrite Rplus_0_r in *.
        apply mul_R; try assumption.
        intros ? ? ? ? ? ? E1 E2. injection E1 as <- <- <-. injection E2 as <- <- <-. exact Hlo.
      * cbn [fma]. rewrite <- value_mul_exact in *.
        pose proof (fin_expo _ _ _ Fz) as Ez. cbn [expo_ge] in Ez.
        apply (SFadd_finite_R (prec t) (emax t) (format_prec t) (format_emax t));
          [exact Hlo | exact Ez | exact Hs].
Qed.

(** Conversions that keep the value. *)
Lemma convert_exact t x :
  is_fin x = true ->
  (forall s m e, x = S754_finite s m e ->
     (SpecFloat.fexp (prec t) (emax t) (Zpos (digits2_pos m) + e) <= e)%Z /\
     (Zpos (digits2_pos m) + e < emax t)%Z) ->
  fint t (convert t x) /\ value (convert t x) = value x.
Proof.
  intros F H. destruct x as [s|s| |s m e]; try discriminate F.
  - split; [apply fint_zero | reflexivity].
  - destruct (H s m e eq_refl) as [K O]. cbn [convert].
    destruct (binary_round_exact (prec t) (emax t) (format_prec t) (format_emax t) s m e K O)
      as [Fin [V _]].
    split; assumption.
Qed.

(** The exponent of a converted number. *)
Lemma convert_expo t x :
  is_fin x = true ->
  (forall s m e, x = S754_finite s m e ->
     (SpecFloat.fexp (prec t) (emax t) (Zpos (digits2_pos m) + e) <= e)%Z /\
     (Zpos (digits2_pos m) + e < emax t)%Z) ->
  forall L,
  (forall s m e, x = S754_finite s m e ->
     (L <= SpecFloat.fexp (prec t) (emax t) (Zpos (digits2_pos m) + e))%Z) ->
  expo_ge L (convert t x).
Proof.
  intros F H L HL. destruct x as [s|s| |s m e]; try discriminate F.
  - exact I.
  - destruct (H s m e eq_refl) as [K O]. cbn [convert].
    destruct (binary_round_exact (prec t) (emax t) (format_prec t) (format_emax t) s m e K O)
      as [_ [_ Ex]].
    specialize (HL s m e eq_refl).
    destruct (binary_round (prec t) (emax t) s m e); cbn [expo_ge] in *; try exact I. lia.
Qed.

(** The final rounding of a number in the normal range of the format. *)
Lemma convert_normal t x :
  is_fin x = true ->
  Rabs (value x) < pow2 (emax t - 1) ->
  pow2 (emin_of t + prec t - 1) <= Rabs (value x) ->
  fint t (convert t x) /\
  Rabs (value (convert t x) - value x) <= ulp_half t * Rabs (value x).
Proof.
  intros F Hov Hn. destruct x as [s|s| |s m e]; try discriminate F.
  - cbn [value] in Hn. rewrite Rabs_R0 in Hn.
    pose proof (pow2_pos (emin_of t + prec t - 1)). lra.
  - cbn [convert].
    assert (A : Rabs (value (S754_finite s m e)) = IZR (Zpos m) * pow2 e).
    { cbn [value]. rewrite IZR_cond_Zopp, Rmult_assoc, Rabs_sg.
      apply Rabs_pos_eq. apply Rmult_le_pos; [apply IZR_le; lia | apply Rlt_le, pow2_pos]. }
    rewrite A in Hov, Hn.
    apply (binary_round_normal (prec t) (emax t) (format_prec t) (format_emax t)).
    + apply digits_overflow; assumption.
    + pose proof (digits2_bounds m) as [_ DU]. apply IZR_lt in DU.
      rewrite pow2_IZR in DU by lia.
      destruct (Z.le_gt_cases (emin_of t + prec t) (Zpos (digits2_pos m) + e)) as [L|G];
        [exact L|].
      exfalso.
      assert (pow2 (Zpos (digits2_pos m) + e) <= pow2 (emin_of t + prec t - 1))
        by (apply pow2_le; lia).
      rewrite pow2_add in H. pose proof (pow2_pos e). nra.
Qed.

(** ** The error-free transforms *)

(** Exact arithmetic on (mantissa, exponent) pairs. *)
Lemma dyv_align m e e' : (e' <= e)%Z -> IZR (dy_align m e e') * pow2 e' = IZR m * pow2 e.
Proof.
  intros H. unfold dy_align. rewrite mult_IZR, pow2_IZR by lia.
  rewrite Rmult_assoc, <- pow2_add. do 2 f_equal. lia.
Qed.

Lemma dyv_add a b : dyv (dy_add a b) = dyv a + dyv b.
Proof.
  unfold dy_add, dyv. cbn [fst snd]. rewrite plus_IZR, Rmult_plus_distr_r.
  rewrite !dyv_align by lia. reflexivity.
Qed.

Lemma dyv_opp a : dyv (dy_opp a) = - dyv a.
Proof. unfold dy_opp, dyv. cbn [fst snd]. rewrite opp_IZR. ring. Qed.

Lemma dyv_sub a b : dyv (dy_sub a b) = dyv a - dyv b.
Proof. unfold dy_sub. rewrite dyv_add, dyv_opp. ring. Qed.

Lemma dyv_mul a b : dyv (dy_mul a b) = dyv a * dyv b.
Proof. unfold dy_mul, dyv. cbn [fst snd]. rewrite mult_IZR, pow2_add. ring. Qed.

(** Every number is the value of its (mantissa, exponent) pair, on the same
    exponent. *)
Lemma dyadic_fin x : is_fin x = true -> exists p, dyadic x = Some p /\ dyv p = value x.
Proof.
  destruct x as [s|s| |s m e]; try discriminate; intros _.
  - exists (0, 0)%Z. split; [reflexivity|]. unfold dyv. cbn. ring.
  - eexists. split; [reflexivity|]. reflexivity.
Qed.

Lemma dyadic_ge L x p :
  (L <= 0)%Z -> expo_ge L x -> dyadic x = Some p -> dy_ge L p.
Proof.
  intros HL Hx. destruct x as [s|s| |s m e]; try discriminate; intros E;
    injection E as <-; unfold dy_ge; cbn [snd]; first [lia | exact Hx].
Qed.

(** The least exponent of single precision. *)
Lemma emin_F32 : emin_of F32 = (-149)%Z.
Proof. reflexivity. Qed.

(** The rounded residual of an exact value against its rounding. *)
Lemma exact_residual_R ex s :
  dy_ge (-149) ex -> fint F32 s ->
  Rabs (dyv ex - value s) < pow2 127 ->
  fint F32 (exact_residual (Some ex) s) /\
  Rabs (value (exact_residual (Some ex) s) - (dyv ex - value s))
    <= ulp_half F32 * Rabs (dyv ex - value s).
Proof.
  intros He Fs Hov. unfold exact_residual.
  destruct (dyadic_fin s (proj1 Fs)) as [p [Ep Vp]]. rewrite Ep. cbn [lift2].
  assert (Gp : dy_ge (-149) p).
  { apply (dyadic_ge (-149) s); [lia| |exact Ep]. apply (fin_expo 24 128); exact Fs. }
  rewrite <- Vp in *. rewrite <- dyv_sub in *.
  unfold of_dyadic. unfold dyv. unfold dyv in Hov.
  apply (binary_normalize_R 24 128); try lia.
  - unfold dy_ge, dy_sub, dy_add, dy_opp in *. cbn [fst snd] in *.
    change (SpecFloat.emin 24 128) with (-149)%Z. lia.
  - exact Hov.
Qed.

(** [two_sum]: the sum is rounded with a relative error of at most the unit
    roundoff, and the error term is within the unit roundoff of the error
    made. *)
Lemma two_sum_R a b :
  fint F32 a -> fint F32 b ->
  Rabs (value a + value b) < pow2 126 ->
  let s := fst (two_sum a b) in
  let e := snd (two_sum a b) in
  fint F32 s /\ fint F32 e /\
  Rabs (value s - (value a + value b)) <= ulp_half F32 * Rabs (value a + value b) /\
  Rabs (value e - (value a + value b - value s))
    <= ulp_half F32 * Rabs (value a + value b - value s).
Proof.
  intros Fa Fb Hov s e. subst s e. unfold two_sum. cbn [fst snd].
  destruct (add_R F32 a b Fa Fb) as [Fs Es].
  { eapply Rlt_trans; [exact Hov|]. apply pow2_lt. cbn. lia. }
  destruct (dyadic_fin a (proj1 Fa)) as [pa [Ea Va]].
  destruct (dyadic_fin b (proj1 Fb)) as [pb [Eb Vb]].
  rewrite Ea, Eb. cbn [lift2].
  assert (Ga : dy_ge (-149) pa).
  { apply (dyadic_ge (-149) a); [lia| |exact Ea]. apply (fin_expo 24 128); exact Fa. }
  assert (Gb : dy_ge (-149) pb).
  { apply (dyadic_ge (-149) b); [lia| |exact Eb]. apply (fin_expo 24 128); exact Fb. }
  assert (V : dyv (dy_add pa pb) = value a + value b) by (rewrite dyv_add; congruence).
  destruct (exact_residual_R (dy_add pa pb) (add F32 a b)) as [Fe Ee].
  - unfold dy_ge, dy_add in *. cbn [snd]. lia.
  - exact Fs.
  - rewrite V.
    assert (U : ulp_half F32 <= 1).
    { unfold ulp_half. change 1 with (pow2 0). apply pow2_le. cbn. lia. }
    pose proof (Rabs_pos (value a + value b)).
    assert (P : pow2 127 = 2 * pow2 126).
    { replace 127%Z with (1 + 126)%Z by lia. now rewrite pow2_add, pow2_1. }
    rewrite P. rewrite Rabs_minus_sym. nra.
  - rewrite V in Ee. split; [exact Fs|]. split; [exact Fe|]. split; [exact Es | exact Ee].
Qed.

(** [two_product]: the same for the product and its error term, when the
    exact product does not fall below the least exponent. *)
Lemma two_product_R a b :
  fint F32 a -> fint F32 b ->
  (forall sx mx ex sy my ey,
     a = S754_finite sx mx ex -> b = S754_finite sy my ey -> (-149 <= ex + ey)%Z) ->
  Rabs (value a * value b) < pow2 126 ->
  let p := fst (two_product a b) in
  let e := snd (two_product a b) in
  fint F32 p /\ fint F32 e /\
  Rabs (value p - value a * value b) <= ulp_half F32 * Rabs (value a * value b) /\
  Rabs (value e - (value a * value b - value p))
    <= ulp_half F32 * Rabs (value a * value b - value p).
Proof.
  intros Fa Fb Hlo Hov p e. subst p e. unfold two_product. cbn [fst snd].
  destruct (mul_R F32 a b Fa Fb) as [Fs Es].
  { eapply Rlt_trans; [exact Hov|]. apply pow2_lt. cbn. lia. }
  { exact Hlo. }
  destruct (dyadic_fin a (proj1 Fa)) as [pa [Ea Va]].
  destruct (dyadic_fin b (proj1 Fb)) as [pb [Eb Vb]].
  rewrite Ea, Eb. cbn [lift2].
  assert (V : dyv (dy_mul pa pb) = value a * value b) by (rewrite dyv_mul; congruence).
  assert (G : dy_ge (-149) (dy_mul pa pb)).
  { unfold dy_ge, dy_mul. cbn [snd].
    destruct a as [sa|sa| |sa ma ea], b as [sb|sb| |sb mb eb]; try discriminate;
      injection Ea as <-; injection Eb as <-; cbn [snd].
    - lia.
    - pose proof (fin_expo 24 128 _ Fb) as H. cbn in H.
      change (SpecFloat.emin 24 128) with (-149)%Z in H. lia.
    - pose proof (fin_expo 24 128 _ Fa) as H. cbn in H.
      change (SpecFloat.emin 24 128) with (-149)%Z in H. lia.
    - eapply Hlo; reflexivity. }
  destruct (exact_residual_R (dy_mul pa pb) (mul F32 a b)) as [Fe Ee].
  - exact G.
  - exact Fs.
  - rewrite V.
    assert (U : ulp_half F32 <= 1).
    { unfold ulp_half. change 1 with (pow2 0). apply pow2_le. cbn. lia. }
    pose proof (Rabs_pos (value a * value b)).
    assert (P : pow2 127 = 2 * pow2 126).
    { replace 127%Z with (1 + 126)%Z by lia. now rewrite pow2_add, pow2_1. }
    rewrite P. rewrite Rabs_minus_sym. nra.
  - rewrite V in Ee. split; [exact Fs|]. split; [exact Fe|]. split; [exact Es | exact Ee].
Qed.

(* ------------------------------------------------------------------ *)
(** ** The driver keeps the invariant of a kernel *)

(** Lists related lane by lane. *)
Lemma Forall3_length {A B C} (P : A -> B -> C -> Prop) a b c :
  Forall3 P a b c -> length a = length c /\ length b = length c.
Proof. induction 1; cbn [length]; [split; reflexivity|lia]. Qed.

Lemma Forall3_impl {A B C} (P Q : A -> B -> C -> Prop) a b c :
  (forall x y z, P x y z -> Q x y z) -> Forall3 P a b c -> Forall3 Q a b c.
Proof. intros H. induction 1; constructor; auto. Qed.

Lemma Forall3_repeat {A B C} (P : A -> B -> C -> Prop) x y z n :
  P x y z -> Forall3 P (repeat x n) (repeat y n) (repeat z n).
Proof. intros H. induction n; cbn [repeat]; constructor; auto. Qed.

(** The exact sums of the lanes after one more vector of products. *)
Lemma gadd_length w v G :
  length w = length G -> length v = length G -> length (gadd w v G) = length G.
Proof.
  unfold gadd. revert v G. induction w as [|x w IH]; intros [|y v] [|ga G] L1 L2;
    try discriminate; cbn [map3 length]; [reflexivity|].
  f_equal. apply IH; [now injection L1 | now injection L2].
Qed.

Lemma gsum_gadd w v G :
  length w = length G -> length v = length G ->
  gsum (gadd w v G) = dotR w v + gsum G /\ asum (gadd w v G) = absR w v + asum G.
Proof.
  unfold gadd, dotR, absR. revert v G. induction w as [|x w IH]; intros [|y v] [|ga G] L1 L2;
    try discriminate; cbn [map3 map2 gsum asum fold_right].
  - split; ring.
  - destruct (IH v G) as [E1 E2]; [now injection L1 | now injection L2|].
    unfold gsum, asum in E1, E2. rewrite E1, E2. unfold gstep. cbn [fst snd]. split; ring.
Qed.

(** Exact dot products of concatenated lists, of lists of zeros and of
    prefixes. *)
Lemma dotR_app a a' b b' :
  length a = length b ->
  dotR (a ++ a') (b ++ b') = dotR a b + dotR a' b' /\
  absR (a ++ a') (b ++ b') = absR a b + absR a' b'.
Proof.
  intros L. unfold dotR, absR. rewrite !map2_app by exact L.
  rewrite !fold_right_app.
  assert (G : forall (l : list R) (z : R), fold_right Rplus z l = fold_right Rplus 0 l + z).
  { induction l as [|x l IH]; intros z; cbn [fold_right]; [ring|]. rewrite IH. ring. }
  rewrite (G (map2 _ a b)). rewrite (G (map2 (fun x y => Rabs (value x * value y)) a b)).
  split; reflexivity.
Qed.

Lemma absR_nonneg a b : 0 <= absR a b.
Proof.
  unfold absR. revert b. induction a as [|x a IH]; intros [|y b]; cbn [map2 fold_right];
    try lra. pose proof (Rabs_pos (value x * value y)). specialize (IH b). lra.
Qed.

Lemma dotR_zeros_r a k : dotR a (repeat pzero k) = 0 /\ absR a (repeat pzero k) = 0.
Proof.
  unfold dotR, absR. revert k. induction a as [|x a IH]; intros [|k]; cbn [repeat map2 fold_right];
    try (split; reflexivity).
  destruct (IH k) as [E1 E2]. rewrite E1, E2. cbn [value].
  rewrite Rmult_0_r, Rabs_R0. split; ring.
Qed.

Lemma dotR_zeros_l b k : dotR (repeat pzero k) b = 0 /\ absR (repeat pzero k) b = 0.
Proof.
  unfold dotR, absR. revert b. induction k as [|k IH]; intros [|y b]; cbn [repeat map2 fold_right];
    try (split; reflexivity).
  destruct (IH b) as [E1 E2]. rewrite E1, E2. cbn [value].
  rewrite Rmult_0_l, Rabs_R0. split; ring.
Qed.

(** Every lane is below the sum of all of them. *)
Lemma asum_lane G :
  Forall (fun ga => 0 <= snd ga) G -> Forall (fun ga => snd ga <= asum G) G.
Proof.
  induction 1 as [|ga G H F IH]; constructor; cbn [asum fold_right].
  - assert (0 <= asum G).
    { clear IH. induction F; cbn [asum fold_right]; [lra|]. unfold asum in IHF. lra. }
    unfold asum in H0. lra.
  - eapply Forall_impl; [|exact IH]. cbn beta. intros a Ha. unfold asum in Ha. lra.
Qed.

Lemma asum_nonneg G : Forall (fun ga => 0 <= snd ga) G -> 0 <= asum G.
Proof. induction 1; cbn [asum fold_right]; [lra|]. unfold asum in IHForall. lra. Qed.

Lemma gadd_nonneg w v G :
  Forall (fun ga => 0 <= snd ga) G -> Forall (fun ga => 0 <= snd ga) (gadd w v G).
Proof.
  unfold gadd. intros H. revert w v. induction H as [|ga G H F IH]; intros [|x w] [|y v];
    cbn [map3]; constructor.
  - unfold gstep. cbn [snd]. pose proof (Rabs_pos (value x * value y)). lra.
  - apply IH.
Qed.

(** What the driver loads from decoded operands. *)
Lemma Load_map d f (l : list float) i : Load d (map f l) i = map f (Load d l i).
Proof. unfold Load. now rewrite skipn_map, firstn_map. Qed.

Lemma Decompress2_decoded d w n i :
  Decompress2 (Compress := compress_spec) d (MakeSpan w n) i =
  (Load d (map (convert (tag_lane d)) w) i,
   Load d (map (convert (tag_lane d)) w) (i + Lanes d)).
Proof. cbn [Decompress2 compress_spec]. unfold spec_Decompress2. cbn [ptr MakeSpan]. now rewrite !Load_map. Qed.

Lemma pad_decoded d w n i cap rem :
  DecompressAndZeroPad (Compress := compress_spec) d (MakeSpan w n) i cap rem =
  firstn rem (skipn i (map (convert (tag_lane d)) w)) ++ repeat pzero (cap - rem).
Proof.
  cbn [DecompressAndZeroPad compress_spec]. unfold spec_DecompressAndZeroPad.
  cbn [ptr MakeSpan]. now rewrite skipn_map, firstn_map.
Qed.

Lemma Load_length d (l : list float) i :
  (i + Lanes d <= length l)%nat -> length (Load d l i) = Lanes d.
Proof. intros H. unfold Load. rewrite length_firstn, length_skipn. lia. Qed.

(** Prefixes and suffixes of lists of decoded operands. *)
Lemma Forall_take {A} (Q : A -> Prop) (l : list A) : forall m,
  Forall Q l -> Forall Q (firstn m l).
Proof.
  induction l as [|x l IH]; intros [|m] H; cbn [firstn]; try constructor.
  - now inversion H.
  - apply IH. now inversion H.
Qed.

Lemma Forall_drop {A} (Q : A -> Prop) (l : list A) : forall i,
  Forall Q l -> Forall Q (skipn i l).
Proof.
  induction l as [|x l IH]; intros [|i] H; cbn [skipn]; try assumption.
  apply IH. now inversion H.
Qed.

Lemma Forall_firstn_skipn {A} (Q : A -> Prop) (l : list A) n i m :
  Forall Q (firstn n l) -> (i + m <= n)%nat -> Forall Q (firstn m (skipn i l)).
Proof.
  intros H L. rewrite <- (firstn_skipn_firstn l i m n) by exact L.
  apply Forall_take, Forall_drop, H.
Qed.

Lemma dotR_firstn_plus wd vd i m :
  (i <= length wd)%nat -> (i <= length vd)%nat ->
  dotR (firstn (i + m) wd) (firstn (i + m) vd) =
    dotR (firstn i wd) (firstn i vd) + dotR (firstn m (skipn i wd)) (firstn m (skipn i vd)) /\
  absR (firstn (i + m) wd) (firstn (i + m) vd) =
    absR (firstn i wd) (firstn i vd) + absR (firstn m (skipn i wd)) (firstn m (skipn i vd)).
Proof.
  intros Hw Hv. rewrite !firstn_plus. apply dotR_app.
  rewrite !length_firstn. lia.
Qed.

Lemma absR_firstn_le wd vd i n :
  (i <= n)%nat -> (n <= length wd)%nat -> (n <= length vd)%nat ->
  absR (firstn i wd) (firstn i vd) <= absR (firstn n wd) (firstn n vd).
Proof.
  intros Hi Hw Hv. replace n with (i + (n - i))%nat by lia.
  destruct (dotR_firstn_plus wd vd i (n - i)) as [_ E]; [lia|lia|].
  rewrite E. pose proof (absR_nonneg (firstn (n - i) (skipn i wd)) (firstn (n - i) (skipn i vd))).
  lra.
Qed.

Lemma Forall3_third {A B C} (P : A -> B -> C -> Prop) (Q : C -> Prop) a b c :
  (forall x y z, P x y z -> Q z) -> Forall3 P a b c -> Forall Q c.
Proof. intros H. induction 1; constructor; eauto. Qed.

Section DriverInvariant.
Variable K : Kernel.
Variable P : nat -> float -> float -> R * R -> Prop.
Variable Good : float -> Prop.
Variable Amax : R.
Variable Kmax : nat.
Variable d : Tag.
Hypothesis HN : (0 < Lanes d)%nat.
Hypothesis HML : (Lanes d <= MaxLanes d)%nat.
Hypothesis P_mono : forall k k' s c ga, (k <= k')%nat -> P k s c ga -> P k' s c ga.
Hypothesis P_nonneg : forall k s c ga, P k s c ga -> 0 <= snd ga.
Hypothesis P_zero : P 0 pzero pzero (0, 0).
Hypothesis Good_zero : Good pzero.
Hypothesis U1_ok : forall k w v s c G,
  (S k <= Kmax)%nat -> Forall Good w -> Forall Good v ->
  length w = length G -> length v = length G ->
  Forall3 (P k) s c G ->
  Forall (fun ga => snd ga <= Amax) (gadd w v G) ->
  Forall3 (P (S k)) (fst (Update1 K d w v s c)) (snd (Update1 K d w v s c)) (gadd w v G).
Hypothesis U4_eq : forall w0 w1 w2 w3 v0 v1 v2 v3 acc,
  Update4 K d w0 w1 w2 w3 v0 v1 v2 v3 acc = update_each K d w0 w1 w2 w3 v0 v1 v2 v3 acc.

(** A register pair at a level is one at every higher level; its sums of
    absolute values are not negative; zero registers stand for empty sums. *)
Lemma reg_mono k k' s c G : (k <= k')%nat -> reg P (Lanes d) k s c G -> reg P (Lanes d) k' s c G.
Proof.
  intros H [F L]. split; [|exact L].
  eapply Forall3_impl; [|exact F]. intros x y z. now apply P_mono.
Qed.

Lemma reg_nonneg k s c G : reg P (Lanes d) k s c G -> Forall (fun ga => 0 <= snd ga) G.
Proof. intros [F _]. eapply Forall3_third; [|exact F]. intros x y z. apply P_nonneg. Qed.

Lemma reg_zero : reg P (Lanes d) 0 (Zero d) (Zero d) (repeat (0, 0) (Lanes d)).
Proof. split; [now apply Forall3_repeat | apply repeat_length]. Qed.

(** One single-wide update takes a register pair one level up, and adds the
    dot product of the two vectors to what it stands for. *)
Lemma reg_step k s c G w v :
  (S k <= Kmax)%nat -> reg P (Lanes d) k s c G -> Forall Good w -> Forall Good v ->
  length w = Lanes d -> length v = Lanes d ->
  absR w v + asum G <= Amax ->
  reg P (Lanes d) (S k) (fst (Update1 K d w v s c)) (snd (Update1 K d w v s c)) (gadd w v G) /\
  gsum (gadd w v G) = dotR w v + gsum G /\ asum (gadd w v G) = absR w v + asum G.
Proof.
  intros Hk Hr Gw Gv Lw Lv HA. pose proof (reg_nonneg _ _ _ _ Hr) as NN.
  destruct Hr as [F L].
  destruct (gsum_gadd w v G) as [E1 E2]; [congruence|congruence|].
  split; [|split; assumption]. split.
  - apply U1_ok; try assumption; try congruence.
    pose proof (asum_lane _ (gadd_nonneg w v G NN)) as AL.
    eapply Forall_impl; [|exact AL]. cbn beta. intros a Ha. lra.
  - rewrite gadd_length; congruence.
Qed.

(** The sum of absolute values of a prefix is below that of the input. *)
Lemma absR_prefix_le pw pv q :
  length pw = length pv -> absR (firstn q pw) (firstn q pv) <= absR pw pv.
Proof.
  intros L. destruct (Nat.le_gt_cases q (length pw)) as [H|H].
  - pose proof (absR_firstn_le pw pv q (length pw) H ltac:(lia) ltac:(lia)) as B.
    rewrite firstn_all in B. rewrite L in B. rewrite firstn_all in B. exact B.
  - rewrite !firstn_all2 by lia. lra.
Qed.

(** The accumulators after an update of the first register pair. *)
Lemma acc_inv_set0 k lw lv acc sc G0' dw da :
  (exists G0 G1 G2 G3,
    reg P (Lanes d) k (sum0 acc) (comp0 acc) G0 /\ reg P (Lanes d) k (sum1 acc) (comp1 acc) G1 /\
    reg P (Lanes d) k (sum2 acc) (comp2 acc) G2 /\ reg P (Lanes d) k (sum3 acc) (comp3 acc) G3 /\
    gsum G0 + gsum G1 + gsum G2 + gsum G3 = dotR lw lv /\
    asum G0 + asum G1 + asum G2 + asum G3 = absR lw lv /\
    reg P (Lanes d) (S k) (fst sc) (snd sc) G0' /\
    gsum G0' = dw + gsum G0 /\ asum G0' = da + asum G0) ->
  exists G0 G1 G2 G3,
    reg P (Lanes d) (S k) (sum0 (set_sum0_comp0 acc sc)) (comp0 (set_sum0_comp0 acc sc)) G0 /\
    reg P (Lanes d) (S k) (sum1 (set_sum0_comp0 acc sc)) (comp1 (set_sum0_comp0 acc sc)) G1 /\
    reg P (Lanes d) (S k) (sum2 (set_sum0_comp0 acc sc)) (comp2 (set_sum0_comp0 acc sc)) G2 /\
    reg P (Lanes d) (S k) (sum3 (set_sum0_comp0 acc sc)) (comp3 (set_sum0_comp0 acc sc)) G3 /\
    gsum G0 + gsum G1 + gsum G2 + gsum G3 = dw + dotR lw lv /\
    asum G0 + asum G1 + asum G2 + asum G3 = da + absR lw lv.
Proof.
  intros [G0 [G1 [G2 [G3 [R0 [R1 [R2 [R3 [ES [EA [R0' [ES' EA']]]]]]]]]]]].
  exists G0', G1, G2, G3. cbn [set_sum0_comp0 sum0 sum1 sum2 sum3 comp0 comp1 comp2 comp3].
  split; [exact R0'|].
  split; [apply (reg_mono k); [lia|exact R1]|].
  split; [apply (reg_mono k); [lia|exact R2]|].
  split; [apply (reg_mono k); [lia|exact R3]|].
  split; lra.
Qed.

(** The remainder loop keeps the invariant and visits the whole
    remainder. *)
Lemma dac_tail_inv lw lv pw pv rem k0 :
  length lw = length lv -> length pw = length pv ->
  Forall Good pw -> Forall Good pv ->
  absR lw lv + absR pw pv <= Amax ->
  (rem < 4 * Lanes d)%nat -> (4 * Lanes d <= length pw)%nat -> (k0 + 4 <= Kmax)%nat ->
  forall fuel j pos acc,
  pos = (Lanes d * j)%nat -> (j <= 4)%nat -> (rem <= pos + Lanes d * fuel)%nat ->
  acc_inv P (Lanes d) (k0 + j) (lw ++ firstn pos pw) (lv ++ firstn pos pv) acc ->
  exists j' pos',
    (j' <= 4)%nat /\ (rem <= pos')%nat /\ (pos' <= 4 * Lanes d)%nat /\
    acc_inv P (Lanes d) (k0 + j') (lw ++ firstn pos' pw) (lv ++ firstn pos' pv)
      (dac_tail fuel K d pw pv rem pos acc).
Proof.
  intros Ll Lp Gpw Gpv HAm Hrem Hlen Hk0.
  induction fuel as [|fuel IH]; intros j pos acc Hpos Hj Hf Inv.
  - exists j, pos. cbn [dac_tail]. repeat split; try assumption; nia.
  - rewrite dac_tail_step. destruct (Nat.ltb_spec pos rem) as [T|T].
    + assert (J3 : (j <= 3)%nat) by nia.
      apply (IH (S j) (pos + Lanes d)%nat); try nia.
      replace (k0 + S j)%nat with (S (k0 + j)) by lia.
      assert (LL : length (lw ++ firstn pos pw) = length (lv ++ firstn pos pv)).
      { rewrite !length_app, !length_firstn. lia. }
      rewrite !firstn_plus, !app_assoc. unfold acc_inv.
      destruct (dotR_app (lw ++ firstn pos pw) (firstn (Lanes d) (skipn pos pw))
                  (lv ++ firstn pos pv) (firstn (Lanes d) (skipn pos pv)) LL) as [ED EA].
      rewrite ED, EA. clear ED EA.
      change (firstn (Lanes d) (skipn pos pw)) with (Load d pw pos).
      change (firstn (Lanes d) (skipn pos pv)) with (Load d pv pos).
      rewrite (Rplus_comm (dotR (lw ++ firstn pos pw) (lv ++ firstn pos pv))).
      rewrite (Rplus_comm (absR (lw ++ firstn pos pw) (lv ++ firstn pos pv))).
      destruct Inv as [G0 [G1 [G2 [G3 [R0 [R1 [R2 [R3 [ES EA]]]]]]]]].
      eapply acc_inv_set0.
      exists G0, G1, G2, G3.
      split; [exact R0|]. split; [exact R1|]. split; [exact R2|]. split; [exact R3|].
      split; [exact ES|]. split; [exact EA|].
      apply reg_step; try assumption.
      * lia.
      * unfold Load. apply Forall_take, Forall_drop, Gpw.
      * unfold Load. apply Forall_take, Forall_drop, Gpv.
      * apply Load_length. nia.
      * apply Load_length. nia.
      * pose proof (asum_nonneg _ (reg_nonneg _ _ _ _ R1)) as N1.
        pose proof (asum_nonneg _ (reg_nonneg _ _ _ _ R2)) as N2.
        pose proof (asum_nonneg _ (reg_nonneg _ _ _ _ R3)) as N3.
        destruct (dotR_app lw (firstn pos pw) lv (firstn pos pv) Ll) as [_ E1].
        pose proof (absR_prefix_le pw pv (pos + Lanes d) Lp) as B.
        rewrite !firstn_plus in B.
        destruct (dotR_app (firstn pos pw) (firstn (Lanes d) (skipn pos pw))
                    (firstn pos pv) (firstn (Lanes d) (skipn pos pv))) as [_ E2].
        { rewrite !length_firstn. lia. }
        rewrite E2 in B. unfold Load. lra.
    + exists j, pos. repeat split; try assumption; nia.
Qed.

Section Run.
Variables wd vd : list float.
Variable n : nat.
Hypothesis Hw : (n <= length wd)%nat.
Hypothesis Hv : (n <= length vd)%nat.
Hypothesis Gw : Forall Good (firstn n wd).
Hypothesis Gv : Forall Good (firstn n vd).
Hypothesis HA : absR (firstn n wd) (firstn n vd) <= Amax.

(** The vectors of a block are decoded operands, and extend the prefix the
    accumulators stand for. *)
Lemma chunk_good l i :
  Forall Good (firstn n l) -> (i + Lanes d <= n)%nat -> Forall Good (Load d l i).
Proof. intros H L. unfold Load. eapply Forall_firstn_skipn; [exact H|exact L]. Qed.

Lemma prefix_step i :
  (i + Lanes d <= n)%nat ->
  dotR (firstn (i + Lanes d) wd) (firstn (i + Lanes d) vd) =
    dotR (firstn i wd) (firstn i vd) + dotR (Load d wd i) (Load d vd i) /\
  absR (firstn (i + Lanes d) wd) (firstn (i + Lanes d) vd) =
    absR (firstn i wd) (firstn i vd) + absR (Load d wd i) (Load d vd i).
Proof. intros H. apply dotR_firstn_plus; lia. Qed.

(** One update of each register pair takes the accumulators from a prefix to
    the prefix four vectors longer. *)
Lemma block_step k i acc :
  (S k <= Kmax)%nat -> (i + Lanes d + Lanes d + Lanes d + Lanes d <= n)%nat ->
  acc_inv P (Lanes d) k (firstn i wd) (firstn i vd) acc ->
  acc_inv P (Lanes d) (S k)
    (firstn (i + Lanes d + Lanes d + Lanes d + Lanes d) wd)
    (firstn (i + Lanes d + Lanes d + Lanes d + Lanes d) vd)
    (update_each K d
       (Load d wd i) (Load d wd (i + Lanes d))
       (Load d wd (i + Lanes d + Lanes d)) (Load d wd (i + Lanes d + Lanes d + Lanes d))
       (Load d vd i) (Load d vd (i + Lanes d))
       (Load d vd (i + Lanes d + Lanes d)) (Load d vd (i + Lanes d + Lanes d + Lanes d))
       acc).
Proof.
  intros Hk Hi [G0 [G1 [G2 [G3 [R0 [R1 [R2 [R3 [ES EA]]]]]]]]].
  set (N := Lanes d) in *.
  destruct (prefix_step i) as [D0 A0]; [lia|].
  destruct (prefix_step (i + N)) as [D1 A1]; [lia|].
  destruct (prefix_step (i + N + N)) as [D2 A2]; [lia|].
  destruct (prefix_step (i + N + N + N)) as [D3 A3]; [lia|].
  fold N in D0, A0, D1, A1, D2, A2, D3, A3.
  pose proof (absR_firstn_le wd vd (i + N + N + N + N) n Hi Hw Hv) as Top.
  pose proof (asum_nonneg _ (reg_nonneg _ _ _ _ R0)) as N0.
  pose proof (asum_nonneg _ (reg_nonneg _ _ _ _ R1)) as N1.
  pose proof (asum_nonneg _ (reg_nonneg _ _ _ _ R2)) as N2.
  pose proof (asum_nonneg _ (reg_nonneg _ _ _ _ R3)) as N3.
  pose proof (absR_nonneg (Load d wd i) (Load d vd i)) as P0.
  pose proof (absR_nonneg (Load d wd (i + N)) (Load d vd (i + N))) as P1.
  pose proof (absR_nonneg (Load d wd (i + N + N)) (Load d vd (i + N + N))) as P2.
  pose proof (absR_nonneg (Load d wd (i + N + N + N)) (Load d vd (i + N + N + N))) as P3.
  destruct (reg_step k _ _ G0 (Load d wd i) (Load d vd i) Hk R0) as [S0 [E0 F0]];
    try (apply chunk_good; [assumption|fold N; lia]);
    try (apply Load_length; fold N; lia); [lra|].
  destruct (reg_step k _ _ G1 (Load d wd (i + N)) (Load d vd (i + N)) Hk R1) as [S1 [E1 F1]];
    try (apply chunk_good; [assumption|fold N; lia]);
    try (apply Load_length; fold N; lia); [lra|].
  destruct (reg_step k _ _ G2 (Load d wd (i + N + N)) (Load d vd (i + N + N)) Hk R2)
    as [S2 [E2 F2]];
    try (apply chunk_good; [assumption|fold N; lia]);
    try (apply Load_length; fold N; lia); [lra|].
  destruct (reg_step k _ _ G3 (Load d wd (i + N + N + N)) (Load d vd (i + N + N + N)) Hk R3)
    as [S3 [E3 F3]];
    try (apply chunk_good; [assumption|fold N; lia]);
    try (apply Load_length; fold N; lia); [lra|].
  eexists _, _, _, _. unfold update_each. cbn [sum0 sum1 sum2 sum3 comp0 comp1 comp2 comp3].
  split; [exact S0|]. split; [exact S1|]. split; [exact S2|]. split; [exact S3|].
  split; lra.
Qed.

Variables w v : list float.
Hypothesis Ew : wd = map (convert (tag_lane d)) w.
Hypothesis Ev : vd = map (convert (tag_lane d)) v.
Hypothesis HK : (n / (4 * Lanes d) + 4 <= Kmax)%nat.

(** After [k] blocks the level is at most the number of blocks of the input. *)
Lemma level_bound k : (4 * Lanes d * k <= n)%nat -> (k <= n / (4 * Lanes d))%nat.
Proof. intros H. apply Nat.div_le_lower_bound; lia. Qed.

(** The block loop keeps the invariant and stops with fewer than four
    vectors left. *)
Lemma dac_loop_inv : forall fuel k i acc,
  (4 * Lanes d <= n)%nat -> i = (4 * Lanes d * k)%nat -> (i <= n)%nat ->
  (n < i + 4 * Lanes d * S fuel)%nat ->
  acc_inv P (Lanes d) k (firstn i wd) (firstn i vd) acc ->
  exists k' i' acc',
    dac_loop (CO := compress_spec) fuel K d (MakeSpan w n) 0 (MakeSpan v n) i acc = (i', acc') /\
    i' = (4 * Lanes d * k')%nat /\ (i' <= n)%nat /\ (n < i' + 4 * Lanes d)%nat /\
    acc_inv P (Lanes d) k' (firstn i' wd) (firstn i' vd) acc'.
Proof.
  induction fuel as [|fuel IH]; intros k i acc H4 Hi Hin Hf Inv.
  - exists k, i, acc. cbn [dac_loop]. repeat split; try assumption. lia.
  - rewrite dac_loop_step. cbn [num MakeSpan Nat.add].
    destruct (Nat.leb_spec i (n - 4 * Lanes d)) as [T|T].
    + rewrite !Decompress2_decoded, <- Ew, <- Ev. cbn [fst snd]. rewrite U4_eq.
      replace (i + 2 * Lanes d)%nat with (i + Lanes d + Lanes d)%nat by lia.
      assert (Hk : (S k <= Kmax)%nat).
      { pose proof (level_bound (S k)). lia. }
      pose proof (block_step k i acc Hk ltac:(lia) Inv) as Inv'.
      replace (i + Lanes d + Lanes d + Lanes d + Lanes d)%nat with (i + 4 * Lanes d)%nat
        in Inv' at 1 2 by lia.
      apply (IH (S k) (i + 4 * Lanes d)%nat); try lia. exact Inv'.
    + exists k, i, acc. repeat split; try assumption. lia.
Qed.

(** The zero accumulators stand for the empty prefix; the invariant only
    depends on the exact values and holds at every higher level. *)
Lemma gsum_zeros m : gsum (repeat (0, 0) m) = 0 /\ asum (repeat (0, 0) m) = 0.
Proof.
  induction m as [|m [E1 E2]]; cbn [repeat gsum asum fold_right]; [split; reflexivity|].
  unfold gsum, asum in E1, E2. rewrite E1, E2. cbn [fst snd]. split; ring.
Qed.

Lemma acc_inv_zero : acc_inv P (Lanes d) 0 [] [] (zero_accum d).
Proof.
  destruct (gsum_zeros (Lanes d)) as [E1 E2].
  exists (repeat (0, 0) (Lanes d)), (repeat (0, 0) (Lanes d)),
         (repeat (0, 0) (Lanes d)), (repeat (0, 0) (Lanes d)).
  cbn [zero_accum sum0 sum1 sum2 sum3 comp0 comp1 comp2 comp3].
  repeat (split; [apply reg_zero|]). rewrite E1, E2. unfold dotR, absR. cbn. split; ring.
Qed.

Lemma acc_inv_ext k lw lv lw' lv' acc :
  dotR lw lv = dotR lw' lv' -> absR lw lv = absR lw' lv' ->
  acc_inv P (Lanes d) k lw lv acc -> acc_inv P (Lanes d) k lw' lv' acc.
Proof.
  intros E1 E2 [G0 [G1 [G2 [G3 [R0 [R1 [R2 [R3 [ES EA]]]]]]]]].
  exists G0, G1, G2, G3. repeat (split; [assumption|]). split; congruence.
Qed.

Lemma acc_inv_mono k k' lw lv acc :
  (k <= k')%nat -> acc_inv P (Lanes d) k lw lv acc -> acc_inv P (Lanes d) k' lw lv acc.
Proof.
  intros H [G0 [G1 [G2 [G3 [R0 [R1 [R2 [R3 [ES EA]]]]]]]]].
  exists G0, G1, G2, G3.
  repeat (split; [eapply reg_mono; [exact H|eassumption]|]). split; assumption.
Qed.

(** The zero padding adds nothing to the dot product of the remainder. *)
Lemma firstn_repeat_some {A} (x : A) m : forall k, exists q, firstn k (repeat x m) = repeat x q.
Proof.
  induction m as [|m IH]; intros [|k]; cbn [repeat firstn].
  - now exists 0%nat.
  - now exists 0%nat.
  - now exists 0%nat.
  - destruct (IH k) as [q E]. exists (S q). cbn [repeat]. now rewrite E.
Qed.

Lemma padded_prefix_dot (a b : list float) m pos :
  length a = length b -> (length a <= pos)%nat ->
  dotR (firstn pos (a ++ repeat pzero m)) (firstn pos (b ++ repeat pzero m)) = dotR a b /\
  absR (firstn pos (a ++ repeat pzero m)) (firstn pos (b ++ repeat pzero m)) = absR a b.
Proof.
  intros L Hp. rewrite !firstn_app, <- L.
  rewrite (firstn_all2 a), (firstn_all2 b) by lia.
  destruct (firstn_repeat_some pzero m (pos - length a)) as [q ->].
  destruct (dotR_app a (repeat pzero q) b (repeat pzero q) L) as [E1 E2].
  destruct (dotR_zeros_l (repeat pzero q) q) as [Z1 Z2].
  rewrite E1, E2, Z1, Z2. split; ring.
Qed.

(** The accumulators the reduction starts from stand for the whole dot
    product. *)
Lemma dac_run_inv :
  exists acc k,
    dac_run (CO := compress_spec) K d d (MakeSpan w n) 0 (MakeSpan v n) = Reduce K d acc /\
    (k <= n / (4 * Lanes d) + 4)%nat /\
    acc_inv P (Lanes d) k (firstn n wd) (firstn n vd) acc.
Proof.
  unfold dac_run. cbn [num MakeSpan].
  change {| sum0 := Zero d; sum1 := Zero d; sum2 := Zero d; sum3 := Zero d;
            comp0 := Zero d; comp1 := Zero d; comp2 := Zero d; comp3 := Zero d |}
    with (zero_accum d).
  assert (Loop : exists k' i' acc',
            (if (4 * Lanes d <=? n)%nat
             then dac_loop (CO := compress_spec) n K d (MakeSpan w n) 0 (MakeSpan v n) 0
                    (zero_accum d)
             else (0%nat, zero_accum d)) = (i', acc') /\
            i' = (4 * Lanes d * k')%nat /\ (i' <= n)%nat /\ (n < i' + 4 * Lanes d)%nat /\
            acc_inv P (Lanes d) k' (firstn i' wd) (firstn i' vd) acc').
  { destruct (Nat.leb_spec (4 * Lanes d) n) as [H4|H4].
    - apply (dac_loop_inv n 0 0%nat); try lia; try nia. apply acc_inv_zero.
    - exists 0%nat, 0%nat, (zero_accum d). repeat split; try lia. apply acc_inv_zero. }
  destruct Loop as [k' [i' [acc' [-> [Hi' [Hle [Hlt Inv]]]]]]].
  pose proof (level_bound k' ltac:(lia)) as Hk'.
  destruct (Nat.eqb_spec (n - i') 0) as [E0|E0]; cbn [negb].
  - exists acc', k'. split; [reflexivity|]. split; [lia|].
    replace n with i' by lia. exact Inv.
  - rewrite !pad_decoded, <- Ew, <- Ev. cbn [Nat.add].
    set (rem := (n - i')%nat) in *.
    set (a := firstn rem (skipn i' wd)). set (b := firstn rem (skipn i' vd)).
    assert (La : length a = rem) by (subst a; rewrite length_firstn, length_skipn; lia).
    assert (Lb : length b = rem) by (subst b; rewrite length_firstn, length_skipn; lia).
    destruct (dotR_firstn_plus wd vd i' rem) as [ED EA]; [lia|lia|].
    replace (i' + rem)%nat with n in ED, EA by lia. fold a in ED, EA. fold b in ED, EA.
    destruct (dac_tail_inv (firstn i' wd) (firstn i' vd)
                (a ++ repeat pzero (4 * MaxLanes d - rem))
                (b ++ repeat pzero (4 * MaxLanes d - rem)) rem k')
      with (fuel := rem) (j := 0%nat) (pos := 0%nat) (acc := acc')
      as [j' [pos' [Hj' [Hr' [Hp' Inv']]]]].
    + rewrite !length_firstn. lia.
    + rewrite !length_app, !repeat_length. lia.
    + apply Forall_app. split.
      * subst a. eapply Forall_firstn_skipn; [exact Gw|lia].
      * apply Forall_forall. intros x Hx. apply repeat_spec in Hx. now subst x.
    + apply Forall_app. split.
      * subst b. eapply Forall_firstn_skipn; [exact Gv|lia].
      * apply Forall_forall. intros x Hx. apply repeat_spec in Hx. now subst x.
    + destruct (padded_prefix_dot a b (4 * MaxLanes d - rem)
                  (length (a ++ repeat pzero (4 * MaxLanes d - rem)))) as [_ E2].
      * congruence.
      * rewrite length_app. lia.
      * rewrite firstn_all in E2.
        assert (LL : length (a ++ repeat pzero (4 * MaxLanes d - rem)) =
                     length (b ++ repeat pzero (4 * MaxLanes d - rem))).
        { rewrite !length_app, !repeat_length. lia. }
        rewrite LL in E2. rewrite firstn_all in E2. rewrite E2. lra.
    + lia.
    + rewrite length_app, repeat_length. lia.
    + lia.
    + lia.
    + lia.
    + nia.
    + cbn [firstn]. rewrite !app_nil_r, Nat.add_0_r. exact Inv.
    + exists (dac_tail rem K d (a ++ repeat pzero (4 * MaxLanes d - rem))
                (b ++ repeat pzero (4 * MaxLanes d - rem)) rem 0 acc'), (k' + j')%nat.
      split; [reflexivity|]. split; [lia|].
      destruct (padded_prefix_dot a b (4 * MaxLanes d - rem) pos') as [P1 P2];
        [congruence|lia|].
      destruct (dotR_app (firstn i' wd) (firstn pos' (a ++ repeat pzero (4 * MaxLanes d - rem)))
                  (firstn i' vd) (firstn pos' (b ++ repeat pzero (4 * MaxLanes d - rem))))
        as [Q1 Q2].
      { rewrite !length_firstn. lia. }
      eapply acc_inv_ext; [| |exact Inv'].
      * rewrite Q1, P1. now rewrite ED.
      * rewrite Q2, P2. now rewrite EA.
Qed.

End Run.
End DriverInvariant.

(* ------------------------------------------------------------------ *)
(** ** The double kernel *)

(** The unit roundoff of double precision. *)
Lemma u64_small : ulp_half F64 <= / 4503599627370496.
Proof.
  unfold ulp_half. change (- prec F64)%Z with (-53)%Z.
  replace (-53)%Z with (- (53))%Z by lia. unfold pow2. rewrite powerRZ_neg'.
  apply Rinv_le_contravar; [lra|].
  change 53%Z with (Z.of_nat 53). rewrite <- pow_powerRZ.
  replace (2 ^ 53) with 9007199254740992 by (simpl; lra). lra.
Qed.

(** The relation of the double kernel at a level holds at every higher level,
    has a non-negative sum of absolute values and holds of zero. *)
Lemma Pd_mono k k' s c ga : (k <= k')%nat -> Pd k s c ga -> Pd k' s c ga.
Proof.
  intros H [F [E A]]. split; [exact F|]. split; [|exact A].
  apply le_INR in H. pose proof (Rabs_pos (fst ga)).
  pose proof (pow2_pos (- prec F64)). unfold ulp_half in *.
  eapply Rle_trans; [exact E|]. apply Rmult_le_compat_r; [lra|]. nra.
Qed.

Lemma Pd_nonneg k s c ga : Pd k s c ga -> 0 <= snd ga.
Proof. intros [_ [_ A]]. pose proof (Rabs_pos (fst ga)). lra. Qed.

Lemma Pd_zero : Pd 0 pzero pzero (0, 0).
Proof.
  split; [apply fint_zero|]. cbn [fst snd value INR].
  rewrite Rminus_diag, Rabs_R0. split; lra.
Qed.

(** Zero is a decoded operand. *)
Lemma Good64_zero : Good64 pzero.
Proof. split; [apply fint_zero | exact I]. Qed.

(** Sums of absolute values up to [2^1000] leave room below the overflow
    threshold of double precision. *)
Lemma pow2_1000_1023 : 4 * pow2 1000 < pow2 (emax F64 - 1).
Proof.
  change (emax F64 - 1)%Z with 1023%Z.
  replace 1023%Z with (1000 + 23)%Z by lia. rewrite pow2_add.
  pose proof (pow2_pos 1000).
  assert (8 <= pow2 23).
  { change 8 with (IZR (2 ^ 3)). rewrite pow2_IZR by lia. apply pow2_le. lia. }
  nra.
Qed.

Section DoubleLanes.
Variable Kmax64 : nat.
Hypothesis HKmax64 : INR Kmax64 <= 1048576.

(** The levels are at most [2^20]. *)
Lemma INR_Kmax64 k : (k <= Kmax64)%nat -> INR k <= 1048576.
Proof. intros H. apply le_INR in H. lra. Qed.

(** One lane of [MulAdd]. *)
Lemma Pd_step k x y s c ga :
  (S k <= Kmax64)%nat -> Good64 x -> Good64 y -> Pd k s c ga ->
  snd (gstep x y ga) <= Amax64 ->
  Pd (S k) (fma F64 x y s) c (gstep x y ga).
Proof.
  intros Hk [Fx Ex] [Fy Ey] [Fs [E A]] HA. destruct ga as [g a].
  unfold gstep in *. cbn [fst snd] in *.
  pose proof (INR_Kmax64 _ Hk) as HK. rewrite S_INR in HK.
  pose proof u64_small as U. pose proof (pow2_pos (- prec F64)) as Up.
  fold (ulp_half F64) in Up. set (u := ulp_half F64) in *.
  pose proof pow2_1000_1023 as OV. unfold Amax64 in HA.
  pose proof (pos_INR k) as Kp.
  set (p := value x * value y) in *.
  pose proof (Rabs_pos p) as Pp. pose proof (Rabs_pos g) as Gp.
  assert (KU : 2 * INR k * u <= 1) by nra.
  assert (Sb : Rabs (value s) <= 2 * a).
  { replace (value s) with ((value s - g) + g) by ring.
    eapply Rle_trans; [apply Rabs_triang|]. nra. }
  assert (Eb : Rabs (p + value s) <= 2 * (Rabs p + a)).
  { eapply Rle_trans; [apply Rabs_triang|]. lra. }
  destruct (fma_R F64 x y s Fx Fy Fs) as [Fr Er].
  - intros sx mx ex sy my ey -> ->. cbn [expo_ge] in Ex, Ey.
    change (emin_of F64) with (-1074)%Z. lia.
  - fold p. lra.
  - fold p. lra.
  - fold p in Er. fold u in Er.
    split; [exact Fr|]. cbn [fst snd]. fold u. split.
    + rewrite S_INR.
      replace (value (fma F64 x y s) - (p + g))
        with ((value (fma F64 x y s) - (p + value s)) + (value s - g)) by ring.
      eapply Rle_trans; [apply Rabs_triang|].
      assert (Rabs (p + value s) <= Rabs p + a + 2 * INR k * u * a).
      { replace (p + value s) with (p + g + (value s - g)) by ring.
        eapply Rle_trans; [apply Rabs_triang|].
        pose proof (Rabs_triang p g). lra. }
      assert (T1 : u * Rabs (p + value s) <= u * (Rabs p + a + 2 * INR k * u * a))
        by (apply Rmult_le_compat_l; lra).
      assert (a0 : 0 <= a) by lra.
      assert (T2 : 0 <= u * a) by (apply Rmult_le_pos; lra).
      assert (T3 : 0 <= u * Rabs p) by (apply Rmult_le_pos; lra).
      assert (T4 : 0 <= INR k * (u * Rabs p)) by (apply Rmult_le_pos; lra).
      assert (T5 : 0 <= (1 - 2 * INR k * u) * (u * a)) by (apply Rmult_le_pos; lra).
      lra.
    + eapply Rle_trans; [apply Rabs_triang|]. lra.
Qed.

(** One lane of [Add]. *)

(** The sum of two lanes stands for the two exact sums put together. *)
Lemma Pd_add k s1 c1 ga1 s2 c2 ga2 :
  (S k <= Kmax64)%nat -> Pd k s1 c1 ga1 -> Pd k s2 c2 ga2 ->
  snd (gmerge ga1 ga2) <= Amax64 ->
  Pd (S k) (add F64 s1 s2) c1 (gmerge ga1 ga2).
Proof.
  intros Hk [F1 [E1 A1]] [F2 [E2 A2]] HA. destruct ga1 as [g1 a1], ga2 as [g2 a2].
  unfold gmerge in *. cbn [fst snd] in *.
  pose proof (INR_Kmax64 _ Hk) as HK. rewrite S_INR in HK.
  pose proof u64_small as U. pose proof (pow2_pos (- prec F64)) as Up.
  fold (ulp_half F64) in Up. set (u := ulp_half F64) in *.
  pose proof pow2_1000_1023 as OV. unfold Amax64 in HA.
  pose proof (pos_INR k) as Kp.
  pose proof (Rabs_pos g1) as G1p. pose proof (Rabs_pos g2) as G2p.
  assert (KU : 2 * INR k * u <= 1) by nra.
  assert (Sb : Rabs (value s1 + value s2) <= (a1 + a2) + 2 * INR k * u * (a1 + a2)).
  { replace (value s1 + value s2) with ((value s1 - g1) + (value s2 - g2) + g1 + g2) by ring.
    eapply Rle_trans; [apply Rabs_triang|].
    eapply Rle_trans; [apply Rplus_le_compat_r, Rabs_triang|].
    eapply Rle_trans; [apply Rplus_le_compat_r, Rplus_le_compat_r, Rabs_triang|]. nra. }
  assert (a0 : 0 <= a1 + a2) by lra.
  assert (T0 : 0 <= 2 * INR k * u * (a1 + a2)).
  { apply Rmult_le_pos; [|lra]. apply Rmult_le_pos; lra. }
  assert (T0' : 2 * INR k * u * (a1 + a2) <= 1 * (a1 + a2))
    by (apply Rmult_le_compat_r; lra).
  destruct (add_R F64 s1 s2 F1 F2) as [Fr Er]; [lra|]. fold u in Er.
  split; [exact Fr|]. cbn [fst snd]. fold u. split.
  - rewrite S_INR.
    replace (value (add F64 s1 s2) - (g1 + g2))
      with ((value (add F64 s1 s2) - (value s1 + value s2)) + (value s1 - g1) + (value s2 - g2))
      by ring.
    eapply Rle_trans; [apply Rabs_triang|].
    eapply Rle_trans; [apply Rplus_le_compat_r, Rabs_triang|].
    assert (T1 : u * Rabs (value s1 + value s2)
                 <= u * ((a1 + a2) + 2 * INR k * u * (a1 + a2)))
      by (apply Rmult_le_compat_l; lra).
    assert (T2 : 0 <= u * (a1 + a2)) by (apply Rmult_le_pos; lra).
    assert (T5 : 0 <= (1 - 2 * INR k * u) * (u * (a1 + a2))) by (apply Rmult_le_pos; lra).
    assert (E1' : Rabs (value s1 - g1) <= 2 * INR k * u * a1) by exact E1.
    assert (E2' : Rabs (value s2 - g2) <= 2 * INR k * u * a2) by exact E2.
    lra.
  - eapply Rle_trans; [apply Rabs_triang|]. lra.
Qed.

(** The single-wide update of the double kernel, lane by lane. *)
Lemma Pd_U1 d k : forall w v s c G,
  (S k <= Kmax64)%nat -> Forall Good64 w -> Forall Good64 v ->
  length w = length G -> length v = length G ->
  Forall3 (Pd k) s c G ->
  Forall (fun ga => snd ga <= Amax64) (gadd w v G) ->
  Forall3 (Pd (S k)) (fst (Update1 DotKernelDouble d w v s c))
    (snd (Update1 DotKernelDouble d w v s c)) (gadd w v G).
Proof.
  intros w v s c G Hk Gw Gv Lw Lv F. cbn [Update1 DotKernelDouble].
  unfold DotKernelDouble_Update1, MulAdd, gadd. cbn [fst snd].
  revert w v Gw Gv Lw Lv.
  induction F as [|x y z s c G H F IH]; intros [|a w] [|b v] Gw Gv Lw Lv HA;
    try discriminate; cbn [map3]; constructor.
  - apply Pd_step; try assumption.
    + now inversion Gw.
    + now inversion Gv.
    + cbn [map3] in HA. now inversion HA.
  - apply IH.
    + now inversion Gw.
    + now inversion Gv.
    + now injection Lw.
    + now injection Lv.
    + cbn [map3] in HA. now inversion HA.
Qed.

(** The four-wide update of the double kernel is four single-wide updates. *)
Lemma Pd_U4 d w0 w1 w2 w3 v0 v1 v2 v3 acc :
  Update4 DotKernelDouble d w0 w1 w2 w3 v0 v1 v2 v3 acc =
  update_each DotKernelDouble d w0 w1 w2 w3 v0 v1 v2 v3 acc.
Proof. reflexivity. Qed.

(** Lane-wise addition of two registers. *)
Lemma Pd_Add k : forall s1 c1 G1 s2 c2 G2,
  (S k <= Kmax64)%nat ->
  Forall3 (Pd k) s1 c1 G1 -> Forall3 (Pd k) s2 c2 G2 -> length G1 = length G2 ->
  Forall (fun ga => snd ga <= Amax64) (map2 gmerge G1 G2) ->
  Forall3 (Pd (S k)) (Add F64 s1 s2) c1 (map2 gmerge G1 G2).
Proof.
  intros s1 c1 G1 s2 c2 G2 Hk F1. unfold Add. revert s2 c2 G2.
  induction F1 as [|x y z s c G H F IH]; intros s2 c2 G2 F2 L HA.
  - inversion F2; subst; try discriminate L. cbn [map2]. constructor.
  - inversion F2; subst; try discriminate L.
    cbn [map2] in *. constructor.
    + eapply Pd_add; try eassumption. now inversion HA.
    + eapply IH; [eassumption| |].
      * now injection L.
      * now inversion HA.
Qed.

(** Adding up the lanes of a register, one after the other. *)
Lemma Pd_fold k0 : forall xs cs Gs,
  Forall3 (Pd k0) xs cs Gs ->
  forall acc c ga k,
  Pd k acc c ga -> (k0 <= k)%nat -> (k + length xs <= Kmax64)%nat ->
  snd ga + asum Gs <= Amax64 ->
  Pd (k + length xs) (fold_left (add F64) xs acc) c (fst ga + gsum Gs, snd ga + asum Gs).
Proof.
  induction 1 as [|x y z xs cs Gs H F IH]; intros acc c ga k Ha Hk HK HA.
  - cbn [length fold_left gsum asum fold_right]. rewrite Nat.add_0_r, !Rplus_0_r.
    now destruct ga.
  - cbn [length fold_left gsum asum fold_right] in *.
    assert (NN : 0 <= asum Gs).
    { apply asum_nonneg. eapply Forall3_third; [|exact F]. intros a b q. apply Pd_nonneg. }
    unfold asum in NN.
    pose proof (Pd_nonneg _ _ _ _ H) as Nz. pose proof (Pd_nonneg _ _ _ _ Ha) as Na.
    assert (M : Pd (S k) (add F64 acc x) c (gmerge ga z)).
    { apply (Pd_add k acc c ga x y z); try lia; try assumption.
      - eapply Pd_mono; [exact Hk|exact H].
      - unfold gmerge. cbn [snd]. lra. }
    specialize (IH (add F64 acc x) c (gmerge ga z) (S k) M ltac:(lia) ltac:(lia)).
    replace (k + S (length xs))%nat with (S k + length xs)%nat by lia.
    replace (fst ga + (fst z + fold_right (fun p t => fst p + t) 0 Gs))
      with (fst (gmerge ga z) + gsum Gs) by (unfold gmerge, gsum; cbn [fst]; ring).
    replace (snd ga + (snd z + fold_right (fun p t => snd p + t) 0 Gs))
      with (snd (gmerge ga z) + asum Gs) by (unfold gmerge, asum; cbn [snd]; ring).
    apply IH. unfold gmerge, asum. cbn [snd]. lra.
Qed.

End DoubleLanes.

(** The exact sums of two registers put together lane by lane. *)
Lemma gmerge_sums : forall G1 G2,
  length G1 = length G2 ->
  gsum (map2 gmerge G1 G2) = gsum G1 + gsum G2 /\
  asum (map2 gmerge G1 G2) = asum G1 + asum G2 /\
  length (map2 gmerge G1 G2) = length G1.
Proof.
  induction G1 as [|p G1 IH]; intros [|q G2] L; try discriminate L;
    cbn [map2 gsum asum fold_right length].
  - repeat split; ring.
  - destruct (IH G2) as [E1 [E2 E3]]; [now injection L|].
    unfold gsum, asum in E1, E2. rewrite E1, E2, E3. unfold gmerge. cbn [fst snd].
    repeat split; ring.
Qed.

Lemma gmerge_nonneg : forall G1 G2,
  Forall (fun ga => 0 <= snd ga) G1 -> Forall (fun ga => 0 <= snd ga) G2 ->
  Forall (fun ga => 0 <= snd ga) (map2 gmerge G1 G2).
Proof.
  intros G1 G2 H1. revert G2. induction H1 as [|p G1 H F IH]; intros G2 H2.
  - cbn [map2]. constructor.
  - destruct H2 as [|q G2 H2 F2]; cbn [map2]; constructor.
    + unfold gmerge. cbn [snd]. lra.
    + now apply IH.
Qed.

(** Every lane is below a bound on the sum of all lanes. *)
Lemma lanes_bound G B :
  Forall (fun ga => 0 <= snd ga) G -> asum G <= B -> Forall (fun ga => snd ga <= B) G.
Proof.
  intros NN H. eapply Forall_impl; [|apply asum_lane, NN]. cbn beta. intros a Ha. lra.
Qed.

Section DoubleReduce.
Variable Kmax64 : nat.
Hypothesis HKmax64 : INR Kmax64 <= 1048576.

(** The reduction of the double kernel: the double that is rounded to
    single precision is within [2 K 2^-53] of the exact dot product,
    relative to the sum of the absolute products. *)
Lemma DotKernelDouble_Reduce_R d k lw lv acc :
  tag_lane d = F64 -> (0 < Lanes d)%nat ->
  acc_inv Pd (Lanes d) k lw lv acc ->
  (k + 2 + Lanes d <= Kmax64)%nat -> absR lw lv <= Amax64 ->
  exists D, DotKernelDouble_Reduce d acc = convert F32 D /\ fint F64 D /\
    Rabs (value D - dotR lw lv)
      <= 2 * INR (k + 2 + Lanes d) * ulp_half F64 * absR lw lv.
Proof.
  intros Ht HN [G0 [G1 [G2 [G3 [[F0 L0] [[F1 L1] [[F2 L2] [[F3 L3] [ES EA]]]]]]]]] HK HA.
  pose proof (Forall3_third _ (fun ga => 0 <= snd ga) _ _ _ (fun a b q => Pd_nonneg k a b q) F0) as N0.
  pose proof (Forall3_third _ (fun ga => 0 <= snd ga) _ _ _ (fun a b q => Pd_nonneg k a b q) F1) as N1.
  pose proof (Forall3_third _ (fun ga => 0 <= snd ga) _ _ _ (fun a b q => Pd_nonneg k a b q) F2) as N2.
  pose proof (Forall3_third _ (fun ga => 0 <= snd ga) _ _ _ (fun a b q => Pd_nonneg k a b q) F3) as N3.
  pose proof (asum_nonneg _ N0) as A0. pose proof (asum_nonneg _ N1) as A1.
  pose proof (asum_nonneg _ N2) as A2. pose proof (asum_nonneg _ N3) as A3.
  destruct (gmerge_sums G0 G1) as [S01 [T01 L01]]; [congruence|].
  destruct (gmerge_sums G2 G3) as [S23 [T23 L23]]; [congruence|].
  destruct (gmerge_sums (map2 gmerge G0 G1) (map2 gmerge G2 G3)) as [SS [TT LL]]; [congruence|].
  pose proof (gmerge_nonneg _ _ N0 N1) as N01. pose proof (gmerge_nonneg _ _ N2 N3) as N23.
  pose proof (gmerge_nonneg _ _ N01 N23) as NA.
  assert (B01 : Forall3 (Pd (S k)) (Add F64 (sum0 acc) (sum1 acc)) (comp0 acc) (map2 gmerge G0 G1)).
  { apply (Pd_Add Kmax64 HKmax64 k) with (c2 := comp1 acc); try assumption; try lia; try congruence.
    apply lanes_bound; [exact N01|lra]. }
  assert (B23 : Forall3 (Pd (S k)) (Add F64 (sum2 acc) (sum3 acc)) (comp2 acc) (map2 gmerge G2 G3)).
  { apply (Pd_Add Kmax64 HKmax64 k) with (c2 := comp3 acc); try assumption; try lia; try congruence.
    apply lanes_bound; [exact N23|lra]. }
  assert (BB : Forall3 (Pd (S (S k)))
                 (Add F64 (Add F64 (sum0 acc) (sum1 acc)) (Add F64 (sum2 acc) (sum3 acc)))
                 (comp0 acc) (map2 gmerge (map2 gmerge G0 G1) (map2 gmerge G2 G3))).
  { apply (Pd_Add Kmax64 HKmax64 (S k)) with (c2 := comp2 acc); try assumption; try lia;
      try congruence.
    apply lanes_bound; [exact NA|lra]. }
  unfold DotKernelDouble_Reduce.
  set (G := map2 gmerge (map2 gmerge G0 G1) (map2 gmerge G2 G3)) in *.
  set (s := Add F64 (Add F64 (sum0 acc) (sum1 acc)) (Add F64 (sum2 acc) (sum3 acc))) in *.
  assert (LG : length G = Lanes d) by congruence.
  eexists. split; [reflexivity|].
  inversion BB as [|x y z xs cs Gs Hx Fx Es Ec EG].
  - exfalso. rewrite <- H1 in LG. cbn in LG. lia.
  - cbn [ReduceSum]. rewrite Ht.
    assert (Lx : length Gs = (Lanes d - 1)%nat) by (rewrite <- EG in LG; cbn in LG; lia).
    assert (Lxs : length xs = length Gs) by (apply (Forall3_length _ _ _ _ Fx)).
    rewrite <- EG in SS, TT, NA. cbn [gsum asum fold_right] in SS, TT.
    inversion NA as [|? ? Nz NGs]; subst.
    pose proof (asum_nonneg _ NGs) as AGs. unfold asum in AGs.
    pose proof (Pd_fold Kmax64 HKmax64 (S (S k)) xs cs Gs Fx x y z (S (S k)) Hx
                  ltac:(lia) ltac:(lia)) as PF.
    assert (HB : snd z + asum Gs <= Amax64) by (unfold asum; lra).
    specialize (PF HB).
    apply (Pd_mono _ (k + 2 + Lanes d)) in PF; [|lia].
    destruct PF as [FD [ED _]]. cbn [fst snd] in ED.
    split; [exact FD|].
    replace (dotR lw lv) with (fst z + gsum Gs) by (unfold gsum; lra).
    replace (absR lw lv) with (snd z + asum Gs) by (unfold asum; lra).
    exact ED.
Qed.

End DoubleReduce.

(* ------------------------------------------------------------------ *)
(** ** The compensated kernel *)

(** The unit roundoff of single precision. *)
Lemma u32_eq : ulp_half F32 = / 16777216.
Proof.
  unfold ulp_half. change (- prec F32)%Z with (- (24))%Z. unfold pow2.
  rewrite powerRZ_neg'. f_equal.
  change 24%Z with (Z.of_nat 24). rewrite <- pow_powerRZ. simpl. lra.
Qed.

(** Sums of absolute values up to [2^120] leave room below the overflow
    threshold of single precision. *)
Lemma pow2_120_126 : 8 * pow2 120 < pow2 126.
Proof.
  replace 126%Z with (120 + 6)%Z by lia. rewrite pow2_add.
  pose proof (pow2_pos 120).
  assert (64 <= pow2 6).
  { change 64 with (IZR (2 ^ 6)). rewrite pow2_IZR by lia. lra. }
  nra.
Qed.

Lemma pow2_126_127 : pow2 126 < pow2 (emax F32 - 1).
Proof. apply pow2_lt. cbn. lia. Qed.

(** Multiplying an inequality by a non-negative number. *)
Lemma scale_le x y c : 0 <= x -> y <= c -> y * x <= c * x.
Proof. intros. apply Rmult_le_compat_r; assumption. Qed.

(** The twice-rounded sum of three numbers, in either association. *)
Lemma add3_l x y z :
  fint F32 x -> fint F32 y -> fint F32 z ->
  Rabs (value x) + Rabs (value y) + Rabs (value z) <= pow2 125 ->
  three_sum (add F32 (add F32 x y) z) x y z.
Proof.
  intros Fx Fy Fz HB. pose proof u32_eq as U. pose proof pow2_126_127 as OV.
  assert (P : pow2 126 = 2 * pow2 125).
  { replace 126%Z with (1 + 125)%Z by lia. now rewrite pow2_add, pow2_1. }
  pose proof (Rabs_pos (value x)). pose proof (Rabs_pos (value y)).
  pose proof (Rabs_pos (value z)). pose proof (pow2_pos 125).
  pose proof (Rabs_triang (value x) (value y)) as T1.
  destruct (add_R F32 x y Fx Fy) as [Ft Et]; [lra|]. rewrite U in Et.
  set (t := add F32 x y) in *.
  assert (Tb : Rabs (value t) <= Rabs (value x + value y) + / 16777216 * Rabs (value x + value y)).
  { replace (value t) with ((value t - (value x + value y)) + (value x + value y)) by ring.
    eapply Rle_trans; [apply Rabs_triang|]. lra. }
  pose proof (Rabs_triang (value t) (value z)) as T2.
  destruct (add_R F32 t z Ft Fz) as [Fr Er]; [lra|]. rewrite U in Er.
  split; [exact Fr|].
  replace (value (add F32 t z) - (value x + value y + value z))
    with ((value (add F32 t z) - (value t + value z)) + (value t - (value x + value y))) by ring.
  eapply Rle_trans; [apply Rabs_triang|]. lra.
Qed.

(** The three numbers in another order. *)
Lemma three_sum_perm12 c x y z : three_sum c x y z -> three_sum c y x z.
Proof.
  intros [F E]. split; [exact F|].
  replace (value y + value x + value z) with (value x + value y + value z) by ring.
  replace (Rabs (value y) + Rabs (value x)) with (Rabs (value x) + Rabs (value y)) by ring.
  exact E.
Qed.

Lemma three_sum_perm23 c x y z : three_sum c x y z -> three_sum c x z y.
Proof.
  intros [F E]. split; [exact F|].
  replace (value x + value z + value y) with (value x + value y + value z) by ring.
  replace (Rabs (value x) + Rabs (value z) + Rabs (value y))
    with (Rabs (value x) + Rabs (value y) + Rabs (value z)) by ring.
  exact E.
Qed.

(** The sum of three numbers, associated to the right. *)
Lemma add3_r x y z :
  fint F32 x -> fint F32 y -> fint F32 z ->
  Rabs (value x) + Rabs (value y) + Rabs (value z) <= pow2 125 ->
  three_sum (add F32 x (add F32 y z)) x y z.
Proof.
  intros Fx Fy Fz HB. pose proof u32_eq as U. pose proof pow2_126_127 as OV.
  assert (P : pow2 126 = 2 * pow2 125).
  { replace 126%Z with (1 + 125)%Z by lia. now rewrite pow2_add, pow2_1. }
  pose proof (Rabs_pos (value x)). pose proof (Rabs_pos (value y)).
  pose proof (Rabs_pos (value z)). pose proof (pow2_pos 125).
  pose proof (Rabs_triang (value y) (value z)) as T1.
  destruct (add_R F32 y z Fy Fz) as [Ft Et]; [lra|]. rewrite U in Et.
  set (t := add F32 y z) in *.
  assert (Tb : Rabs (value t) <= Rabs (value y + value z) + / 16777216 * Rabs (value y + value z)).
  { replace (value t) with ((value t - (value y + value z)) + (value y + value z)) by ring.
    eapply Rle_trans; [apply Rabs_triang|]. lra. }
  pose proof (Rabs_triang (value x) (value t)) as T2.
  destruct (add_R F32 x t Fx Ft) as [Fr Er]; [lra|]. rewrite U in Er.
  split; [exact Fr|].
  replace (value (add F32 x t) - (value x + value y + value z))
    with ((value (add F32 x t) - (value x + value t)) + (value t - (value y + value z))) by ring.
  eapply Rle_trans; [apply Rabs_triang|]. lra.
Qed.

Lemma Amax32_125 : pow2 120 <= pow2 125.
Proof. apply pow2_le. lia. Qed.

(** Merging two pairs by the error-free sum: the compensation of the
    result is any twice-rounded sum of the two compensations and the
    rounding error. *)
Lemma Cst_merge m s1 c1 ga1 s2 c2 ga2 :
  INR (S m) <= 8192 ->
  Cst m s1 c1 ga1 -> Cst m s2 c2 ga2 -> snd ga1 + snd ga2 <= Amax32 ->
  let s' := fst (two_sum s1 s2) in
  let e := snd (two_sum s1 s2) in
  fint F32 e /\
  Rabs (value c1) + Rabs (value c2) + Rabs (value e) <= pow2 125 /\
  forall c', three_sum c' c1 c2 e -> Cst (S m) s' c' (gmerge ga1 ga2).
Proof.
  intros HK [Fs1 [Fc1 [C1 [S1 G1]]]] [Fs2 [Fc2 [C2 [S2 G2]]]] HA s' e.
  destruct ga1 as [g1 a1], ga2 as [g2 a2]. unfold gmerge. cbn [fst snd] in *.
  rewrite S_INR in HK. pose proof (pos_INR m) as Mp.
  pose proof u32_eq as U. rewrite U in *. unfold Amax32 in HA.
  pose proof pow2_120_126 as O1. pose proof Amax32_125 as O2. pose proof (pow2_pos 120) as O3.
  pose proof (Rabs_pos g1) as P1. pose proof (Rabs_pos g2) as P2.
  assert (A1 : 0 <= a1) by lra. assert (A2 : 0 <= a2) by lra.
  assert (M1 : 0 <= INR m * a1) by (apply Rmult_le_pos; lra).
  assert (M2 : 0 <= INR m * a2) by (apply Rmult_le_pos; lra).
  assert (M1' : INR m * a1 <= 8192 * a1) by (apply scale_le; lra).
  assert (M2' : INR m * a2 <= 8192 * a2) by (apply scale_le; lra).
  assert (Q1 : 0 <= INR m * (INR m * a1)) by (apply Rmult_le_pos; lra).
  assert (Q2 : 0 <= INR m * (INR m * a2)) by (apply Rmult_le_pos; lra).
  assert (Q1' : INR m * (INR m * a1) <= 8192 * (INR m * a1)) by (apply scale_le; lra).
  assert (Q2' : INR m * (INR m * a2) <= 8192 * (INR m * a2)) by (apply scale_le; lra).
  assert (B1 : Rabs (value s1) <= 1002 / 1000 * a1).
  { replace (value s1) with ((value s1 + value c1 - g1) + - value c1 + g1) by ring.
    eapply Rle_trans; [apply Rabs_triang|].
    eapply Rle_trans; [apply Rplus_le_compat_r, Rabs_triang|].
    rewrite Rabs_Ropp. lra. }
  assert (B2 : Rabs (value s2) <= 1002 / 1000 * a2).
  { replace (value s2) with ((value s2 + value c2 - g2) + - value c2 + g2) by ring.
    eapply Rle_trans; [apply Rabs_triang|].
    eapply Rle_trans; [apply Rplus_le_compat_r, Rabs_triang|].
    rewrite Rabs_Ropp. lra. }
  pose proof (Rabs_triang (value s1) (value s2)) as T.
  destruct (two_sum_R s1 s2 Fs1 Fs2) as [Fs' [Fe [Es' Ee]]]; [lra|].
  fold s' in Fs', Es', Ee. fold e in Fe, Ee. rewrite U in Es', Ee.
  assert (Eta : Rabs (value s1 + value s2 - value s') <= / 16777216 * Rabs (value s1 + value s2)).
  { rewrite Rabs_minus_sym. exact Es'. }
  assert (Eb : Rabs (value e) <= Rabs (value s1 + value s2 - value s')
                              + / 16777216 * Rabs (value s1 + value s2 - value s')).
  { replace (value e) with ((value e - (value s1 + value s2 - value s'))
                            + (value s1 + value s2 - value s')) by ring.
    eapply Rle_trans; [apply Rabs_triang|]. lra. }
  pose proof (Rabs_pos (value s1 + value s2 - value s')) as Ep.
  pose proof (Rabs_pos (value c1)) as Pc1. pose proof (Rabs_pos (value c2)) as Pc2.
  split; [exact Fe|]. split; [lra|].
  intros c' [Fc' Ec']. unfold Cst. cbn [fst snd]. rewrite U.
  split; [exact Fs'|]. split; [exact Fc'|]. rewrite S_INR. split; [|split].
  - replace (value c') with ((value c' - (value c1 + value c2 + value e))
                             + value c1 + value c2 + value e) by ring.
    eapply Rle_trans; [apply Rabs_triang|].
    eapply Rle_trans; [apply Rplus_le_compat_r, Rabs_triang|].
    eapply Rle_trans; [apply Rplus_le_compat_r, Rplus_le_compat_r, Rabs_triang|]. lra.
  - replace (value s' + value c' - (g1 + g2))
      with ((value s1 + value c1 - g1) + (value s2 + value c2 - g2)
            + (value e - (value s1 + value s2 - value s'))
            + (value c' - (value c1 + value c2 + value e))) by ring.
    eapply Rle_trans; [apply Rabs_triang|].
    eapply Rle_trans; [apply Rplus_le_compat_r, Rabs_triang|].
    eapply Rle_trans; [apply Rplus_le_compat_r, Rplus_le_compat_r, Rabs_triang|]. lra.
  - eapply Rle_trans; [apply Rabs_triang|]. lra.
Qed.

(** The relation of the compensated kernel at a level holds at every higher
    level, has a non-negative sum of absolute values and holds of zero. *)
Lemma Cst_mono m m' s c ga : (m <= m')%nat -> Cst m s c ga -> Cst m' s c ga.
Proof.
  intros H [Fs [Fc [C [S G]]]]. apply le_INR in H.
  pose proof (pos_INR m) as Mp. pose proof (Rabs_pos (fst ga)) as Gp.
  pose proof u32_eq as U. rewrite U in *.
  assert (A : 0 <= snd ga) by lra.
  split; [exact Fs|]. split; [exact Fc|]. rewrite U. split; [|split; [|exact G]].
  - eapply Rle_trans; [exact C|]. apply Rmult_le_compat_r; [exact A|]. lra.
  - eapply Rle_trans; [exact S|]. apply Rmult_le_compat_r; [exact A|].
    assert (INR m * INR m <= INR m' * INR m') by nra. lra.
Qed.

Lemma Cst_nonneg m s c ga : Cst m s c ga -> 0 <= snd ga.
Proof. intros [_ [_ [_ [_ G]]]]. pose proof (Rabs_pos (fst ga)). lra. Qed.

Lemma Cst_zero m : Cst m pzero pzero (0, 0).
Proof.
  split; [apply fint_zero|]. split; [apply fint_zero|]. unfold pzero. cbn [fst snd value].
  rewrite Rplus_0_r, Rminus_diag, Rabs_R0. repeat split; lra.
Qed.

(** Zero is a decoded operand. *)
Lemma Good32_zero : Good32 pzero.
Proof. split; [apply fint_zero | exact I]. Qed.

(** A product and its error as a pair of level 1. *)
Lemma Cst_leaf x y :
  Good32 x -> Good32 y -> Rabs (value x * value y) <= Amax32 ->
  Cst 1 (fst (two_product x y)) (snd (two_product x y))
    (value x * value y, Rabs (value x * value y)).
Proof.
  intros [Fx Ex] [Fy Ey] HA. unfold Amax32 in HA.
  pose proof pow2_120_126 as O1. pose proof (pow2_pos 120) as O3.
  destruct (two_product_R x y Fx Fy) as [Fp [Fe [Ep Ee]]].
  - intros sx mx ex sy my ey -> ->. cbn [expo_ge] in Ex, Ey. lia.
  - lra.
  - pose proof u32_eq as U. rewrite U in *.
    set (p := fst (two_product x y)) in *. set (e := snd (two_product x y)) in *.
    set (q := value x * value y) in *.
    pose proof (Rabs_pos q) as Qp.
    assert (Eta : Rabs (q - value p) <= / 16777216 * Rabs q) by (rewrite Rabs_minus_sym; exact Ep).
    pose proof (Rabs_pos (q - value p)) as Ep'.
    split; [exact Fp|]. split; [exact Fe|]. cbn [fst snd INR]. rewrite U.
    split; [|split].
    + replace (value e) with ((value e - (q - value p)) + (q - value p)) by ring.
      eapply Rle_trans; [apply Rabs_triang|]. lra.
    + replace (value p + value e - q) with (value e - (q - value p)) by ring. lra.
    + lra.
Qed.

(** One lane of the single-wide update of the compensated kernel. *)
Lemma Pc_step k x y s c ga :
  INR (S (S k)) <= 8192 -> Good32 x -> Good32 y -> Pc k s c ga ->
  snd (gstep x y ga) <= Amax32 ->
  Pc (S k)
    (fst (two_sum (fst (two_product x y)) s))
    (add F32 c (add F32 (snd (two_product x y)) (snd (two_sum (fst (two_product x y)) s))))
    (gstep x y ga).
Proof.
  intros HK Gx Gy Hs HA. unfold Pc in *.
  pose proof (Cst_nonneg _ _ _ _ Hs) as Na.
  unfold gstep in HA. cbn [snd] in HA. pose proof (Rabs_pos (value x * value y)) as Pp.
  assert (L : Cst (S k) (fst (two_product x y)) (snd (two_product x y))
                (value x * value y, Rabs (value x * value y))).
  { apply (Cst_mono 1); [lia|]. apply Cst_leaf; try assumption. lra. }
  destruct (Cst_merge (S k) _ _ _ _ _ _ HK L Hs) as [Fe [HB M]].
  { cbn [snd]. lra. }
  change (gstep x y ga) with (gmerge (value x * value y, Rabs (value x * value y)) ga).
  apply M. apply three_sum_perm12.
  destruct L as [_ [Fpe _]]. destruct Hs as [_ [Fc _]].
  apply add3_r; try assumption. lra.
Qed.

(** The single-wide update of the compensated kernel, lane by lane. *)
Lemma Update1_compensated_lanes df w v s c :
  DotKernelCompensated_Update1 (FA := fp_arith_spec) df w v s c =
  (map2 (fun p x => fst (two_sum p x)) (map2 (fun x y => fst (two_product x y)) w v) s,
   map2 (add F32) c
     (map2 (add F32) (map2 (fun x y => snd (two_product x y)) w v)
        (map2 (fun p x => snd (two_sum p x)) (map2 (fun x y => fst (two_product x y)) w v) s))).
Proof. reflexivity. Qed.

Section CompensatedLanes.
Variable Kmax32 : nat.
Hypothesis HKmax32 : INR Kmax32 + 1 <= 8192.

(** The levels are at most [2^13]. *)
Lemma level32 k : (k <= Kmax32)%nat -> INR (S k) <= 8192.
Proof. intros H. apply le_INR in H. rewrite S_INR. lra. Qed.

(** The single-wide update of the compensated kernel, lane by lane. *)
Lemma Pc_U1 d k : tag_lane d = F32 -> forall w v s c G,
  (S k <= Kmax32)%nat -> Forall Good32 w -> Forall Good32 v ->
  length w = length G -> length v = length G ->
  Forall3 (Pc k) s c G ->
  Forall (fun ga => snd ga <= Amax32) (gadd w v G) ->
  Forall3 (Pc (S k)) (fst (Update1 (DotKernelCompensated (FA := fp_arith_spec)) d w v s c))
    (snd (Update1 (DotKernelCompensated (FA := fp_arith_spec)) d w v s c)) (gadd w v G).
Proof.
  intros Ht w v s c G Hk Gw Gv Lw Lv F. cbn [Update1 DotKernelCompensated]. rewrite Ht.
  rewrite Update1_compensated_lanes. unfold gadd. cbn [fst snd].
  revert w v Gw Gv Lw Lv.
  induction F as [|x y z s c G H F IH]; intros [|a w] [|b v] Gw Gv Lw Lv HA;
    try discriminate; cbn [map3 map2]; constructor.
  - apply Pc_step; try assumption.
    + apply level32. exact Hk.
    + now inversion Gw.
    + now inversion Gv.
    + cbn [map3] in HA. now inversion HA.
  - apply IH.
    + now inversion Gw.
    + now inversion Gv.
    + now injection Lw.
    + now injection Lv.
    + cbn [map3] in HA. now inversion HA.
Qed.

(** The four-wide update of the compensated kernel on single-precision
    operands is four single-wide updates. *)
Lemma Pc_U4 d w0 w1 w2 w3 v0 v1 v2 v3 acc :
  tag_lane d = F32 ->
  Update4 (DotKernelCompensated (FA := fp_arith_spec)) d w0 w1 w2 w3 v0 v1 v2 v3 acc =
  update_each (DotKernelCompensated (FA := fp_arith_spec)) d w0 w1 w2 w3 v0 v1 v2 v3 acc.
Proof.
  intros Ht. unfold update_each. cbn [Update4 Update1 DotKernelCompensated]. rewrite Ht.
  rewrite !Update1_compensated_lanes. reflexivity.
Qed.

End CompensatedLanes.

(** [AssimilateCascadedSums], lane by lane. *)
Lemma Assimilate_lanes df os oe s e :
  spec_AssimilateCascadedSums df os oe s e =
  (map2 (fun x y => fst (two_sum x y)) s os,
   map2 (add F32) (map2 (add F32) e (map2 (fun x y => snd (two_sum x y)) s os)) oe).
Proof. reflexivity. Qed.

Section CompensatedReduce.
Variable Kmax32 : nat.
Hypothesis HKmax32 : INR Kmax32 + 1 <= 8192.

(** Assimilating one (sum, compensation) pair into another takes them one
    level up, for one lane and for every lane of a register. *)
Lemma Cst_assimilate_lane m s e ga os oe ga' :
  (S m <= Kmax32)%nat -> Cst m s e ga -> Cst m os oe ga' ->
  snd (gmerge ga ga') <= Amax32 ->
  Cst (S m) (fst (two_sum s os)) (add F32 (add F32 e (snd (two_sum s os))) oe) (gmerge ga ga').
Proof.
  intros Hm H1 H2 HA.
  destruct (Cst_merge m _ _ _ _ _ _ (level32 Kmax32 HKmax32 m ltac:(lia)) H1 H2 HA)
    as [Fe [HB M]].
  apply M. apply three_sum_perm23.
  destruct H1 as [_ [Fc1 _]]. destruct H2 as [_ [Fc2 _]].
  apply add3_l; try assumption. lra.
Qed.

Lemma Cst_Assimilate df m : forall s e G os oe G',
  (S m <= Kmax32)%nat ->
  Forall3 (Cst m) s e G -> Forall3 (Cst m) os oe G' -> length G = length G' ->
  Forall (fun ga => snd ga <= Amax32) (map2 gmerge G G') ->
  Forall3 (Cst (S m)) (fst (spec_AssimilateCascadedSums df os oe s e))
    (snd (spec_AssimilateCascadedSums df os oe s e)) (map2 gmerge G G').
Proof.
  intros s e G os oe G' Hm F1. rewrite Assimilate_lanes. cbn [fst snd].
  revert os oe G'.
  induction F1 as [|x y z s e G H F IH]; intros os oe G' F2 L HA.
  - inversion F2; subst; try discriminate L. cbn [map2]. constructor.
  - inversion F2; subst; try discriminate L.
    cbn [map2] in *. constructor.
    + apply Cst_assimilate_lane; try assumption. now inversion HA.
    + apply IH; [assumption| |].
      * now injection L.
      * now inversion HA.
Qed.

(** Combining the lanes of the last register pair, one after the other. *)
Lemma Cst_reduce_lane m acc ga lane gl :
  (S m <= Kmax32)%nat -> Cst m (fst acc) (snd acc) ga -> Cst m (fst lane) (snd lane) gl ->
  snd (gmerge ga gl) <= Amax32 ->
  Cst (S m) (fst (reduce_lane acc lane)) (snd (reduce_lane acc lane)) (gmerge ga gl).
Proof.
  intros Hm H1 H2 HA. unfold reduce_lane.
  destruct (Cst_merge m _ _ _ _ _ _ (level32 Kmax32 HKmax32 m ltac:(lia)) H1 H2 HA)
    as [Fe [HB M]].
  destruct (two_sum (fst acc) (fst lane)) as [total err] eqn:E. cbn [fst snd] in *.
  apply M.
  destruct H1 as [_ [Fc1 _]]. destruct H2 as [_ [Fc2 _]].
  apply add3_l; try assumption.
Qed.

Lemma Cst_fold m0 : forall s e G,
  Forall3 (Cst m0) s e G ->
  forall acc ga m,
  Cst m (fst acc) (snd acc) ga -> (m0 <= m)%nat -> (m + length s <= Kmax32)%nat ->
  snd ga + asum G <= Amax32 ->
  Cst (m + length s) (fst (fold_left reduce_lane (combine s e) acc))
    (snd (fold_left reduce_lane (combine s e) acc)) (fst ga + gsum G, snd ga + asum G).
Proof.
  induction 1 as [|x y z s e G H F IH]; intros acc ga m Ha Hm HK HA.
  - cbn [length combine fold_left gsum asum fold_right]. rewrite Nat.add_0_r, !Rplus_0_r.
    now destruct ga.
  - cbn [length combine fold_left gsum asum fold_right] in *.
    assert (NN : 0 <= asum G).
    { apply asum_nonneg. eapply Forall3_third; [|exact F]. intros a b q. apply Cst_nonneg. }
    unfold asum in NN.
    pose proof (Cst_nonneg _ _ _ _ H) as Nz. pose proof (Cst_nonneg _ _ _ _ Ha) as Na.
    assert (M : Cst (S m) (fst (reduce_lane acc (x, y))) (snd (reduce_lane acc (x, y)))
                  (gmerge ga z)).
    { apply Cst_reduce_lane; try lia; try assumption.
      - cbn [fst snd]. eapply Cst_mono; [exact Hm|exact H].
      - unfold gmerge. cbn [snd]. lra. }
    specialize (IH (reduce_lane acc (x, y)) (gmerge ga z) (S m) M ltac:(lia) ltac:(lia)).
    replace (m + S (length s))%nat with (S m + length s)%nat by lia.
    replace (fst ga + (fst z + fold_right (fun p t => fst p + t) 0 G))
      with (fst (gmerge ga z) + gsum G) by (unfold gmerge, gsum; cbn [fst]; ring).
    replace (snd ga + (snd z + fold_right (fun p t => snd p + t) 0 G))
      with (snd (gmerge ga z) + asum G) by (unfold gmerge, asum; cbn [snd]; ring).
    apply IH. unfold gmerge, asum. cbn [snd]. lra.
Qed.

(** The final addition of the total and its compensation. *)
Lemma Cst_final m T E X A :
  (m <= Kmax32)%nat -> Cst m T E (X, A) -> A <= Amax32 ->
  fint F32 (add F32 T E) /\
  Rabs (value (add F32 T E) - X)
    <= / 16777216 * Rabs X + 11 * (INR m * INR m) * (/ 16777216 * / 16777216) * A.
Proof.
  intros Hm [FT [FE [C [S G]]]] HA. cbn [fst snd] in *.
  apply le_INR in Hm. pose proof (pos_INR m) as Mp.
  pose proof u32_eq as U. rewrite U in *. unfold Amax32 in HA.
  pose proof pow2_120_126 as O1. pose proof pow2_126_127 as O2. pose proof (pow2_pos 120) as O3.
  pose proof (Rabs_pos X) as Xp. assert (A0 : 0 <= A) by lra.
  assert (M1 : 0 <= INR m * A) by (apply Rmult_le_pos; lra).
  assert (M1' : INR m * A <= 8192 * A) by (apply scale_le; lra).
  assert (Q1 : 0 <= INR m * (INR m * A)) by (apply Rmult_le_pos; lra).
  assert (Q1' : INR m * (INR m * A) <= 8192 * (INR m * A)) by (apply scale_le; lra).
  assert (B : Rabs (value T + value E) <= Rabs X + Rabs (value T + value E - X)).
  { replace (value T + value E) with (X + (value T + value E - X)) at 1 by ring.
    apply Rabs_triang. }
  destruct (add_R F32 T E FT FE) as [Fr Er]; [lra|]. rewrite U in Er.
  split; [exact Fr|].
  replace (value (add F32 T E) - X)
    with ((value (add F32 T E) - (value T + value E)) + (value T + value E - X)) by ring.
  eapply Rle_trans; [apply Rabs_triang|]. lra.
Qed.

End CompensatedReduce.

Section CompensatedReduceRun.
Variable Kmax32 : nat.
Hypothesis HKmax32 : INR Kmax32 + 1 <= 8192.

(** The reduction of the compensated kernel: a rounding error of the
    result, and a second-order term relative to the sum of the absolute
    products. *)
Lemma DotKernelCompensated_Reduce_R d k lw lv acc :
  (0 < Lanes d)%nat ->
  acc_inv Pc (Lanes d) k lw lv acc ->
  (k + 3 + Lanes d <= Kmax32)%nat -> absR lw lv <= Amax32 ->
  let r := DotKernelCompensated_Reduce (FA := fp_arith_spec) d acc in
  fint F32 r /\
  Rabs (value r - dotR lw lv)
    <= / 16777216 * Rabs (dotR lw lv)
       + 11 * (INR (k + 3 + Lanes d) * INR (k + 3 + Lanes d))
            * (/ 16777216 * / 16777216) * absR lw lv.
Proof.
  intros HN [G0 [G1 [G2 [G3 [[F0 L0] [[F1 L1] [[F2 L2] [[F3 L3] [ES EA]]]]]]]]] HK HA r.
  subst r. unfold Pc in *.
  pose proof (Forall3_third _ (fun ga => 0 <= snd ga) _ _ _ (fun a b q => Cst_nonneg (S k) a b q) F0) as N0.
  pose proof (Forall3_third _ (fun ga => 0 <= snd ga) _ _ _ (fun a b q => Cst_nonneg (S k) a b q) F1) as N1.
  pose proof (Forall3_third _ (fun ga => 0 <= snd ga) _ _ _ (fun a b q => Cst_nonneg (S k) a b q) F2) as N2.
  pose proof (Forall3_third _ (fun ga => 0 <= snd ga) _ _ _ (fun a b q => Cst_nonneg (S k) a b q) F3) as N3.
  pose proof (asum_nonneg _ N0) as A0. pose proof (asum_nonneg _ N1) as A1.
  pose proof (asum_nonneg _ N2) as A2. pose proof (asum_nonneg _ N3) as A3.
  destruct (gmerge_sums G0 G1) as [S01 [T01 L01]]; [congruence|].
  destruct (gmerge_sums G2 G3) as [S23 [T23 L23]]; [congruence|].
  destruct (gmerge_sums (map2 gmerge G0 G1) (map2 gmerge G2 G3)) as [SS [TT LL]]; [congruence|].
  pose proof (gmerge_nonneg _ _ N0 N1) as N01. pose proof (gmerge_nonneg _ _ N2 N3) as N23.
  pose proof (gmerge_nonneg _ _ N01 N23) as NA.
  pose proof (Cst_Assimilate Kmax32 HKmax32 d (S k) _ _ _ _ _ _ ltac:(lia) F0 F1
                ltac:(congruence) (lanes_bound _ Amax32 N01 ltac:(lra))) as B01.
  pose proof (Cst_Assimilate Kmax32 HKmax32 d (S k) _ _ _ _ _ _ ltac:(lia) F2 F3
                ltac:(congruence) (lanes_bound _ Amax32 N23 ltac:(lra))) as B23.
  unfold DotKernelCompensated_Reduce.
  cbn [AssimilateCascadedSums ReduceCascadedSums fp_arith_spec].
  destruct (spec_AssimilateCascadedSums d (sum1 acc) (comp1 acc) (sum0 acc) (comp0 acc))
    as [s01 c01] eqn:E01.
  destruct (spec_AssimilateCascadedSums d (sum3 acc) (comp3 acc) (sum2 acc) (comp2 acc))
    as [s23 c23] eqn:E23.
  cbn [fst snd] in B01, B23.
  pose proof (Cst_Assimilate Kmax32 HKmax32 d (S (S k)) _ _ _ _ _ _ ltac:(lia) B01 B23
                ltac:(congruence) (lanes_bound _ Amax32 NA ltac:(lra))) as BB.
  destruct (spec_AssimilateCascadedSums d s23 c23 s01 c01) as [s c] eqn:E.
  cbn [fst snd] in BB.
  set (G := map2 gmerge (map2 gmerge G0 G1) (map2 gmerge G2 G3)) in *.
  unfold spec_ReduceCascadedSums.
  pose proof (Cst_fold Kmax32 HKmax32 (S (S (S k))) s c G BB (pzero, pzero) (0, 0)
                (S (S (S k))) (Cst_zero _) ltac:(lia)) as PF.
  assert (Ls : length s = Lanes d).
  { destruct (Forall3_length _ _ _ _ BB) as [Hs _]. congruence. }
  rewrite Ls in PF. cbn [fst snd] in PF. rewrite !Rplus_0_l in PF.
  specialize (PF ltac:(lia) ltac:(lra)).
  destruct (fold_left reduce_lane (combine s c) (pzero, pzero)) as [T E'] eqn:EF.
  cbn [fst snd] in PF.
  replace (S (S (S k)) + Lanes d)%nat with (k + 3 + Lanes d)%nat in PF by lia.
  replace (dotR lw lv) with (gsum G) by lra.
  replace (absR lw lv) with (asum G) by lra.
  apply (Cst_final Kmax32 HKmax32); [lia|exact PF|lra].
Qed.

End CompensatedReduceRun.

(* ------------------------------------------------------------------ *)
(** ** The accuracy of [Dot] *)

(** An operand in range is a single-precision number on an exponent of at
    least -55 and of magnitude at most [2^32]. *)
Lemma operand_ok_facts x :
  operand_ok x = true ->
  fint F32 x /\ expo_ge (-55) x /\ Rabs (value x) <= pow2 32 /\
  (forall s m e, x = S754_finite s m e ->
     (Zpos (digits2_pos m) = 24 /\ -55 <= e <= 8)%Z).
Proof.
  destruct x as [s|s| |s m e]; try discriminate; intros H.
  - split; [apply fint_zero|]. split; [exact I|]. split.
    + cbn [value]. rewrite Rabs_R0. apply Rlt_le, pow2_pos.
    + intros ? ? ? E. discriminate E.
  - cbn [operand_ok] in H. apply andb_prop in H. destruct H as [H H3].
    apply andb_prop in H. destruct H as [H1 H2].
    apply Z.leb_le in H2, H3.
    pose proof (bounded_facts 24 128 m e H1) as [D [E1 [E2 [E3 E4]]]].
    change (SpecFloat.emin 24 128) with (-149)%Z in *.
    assert (D24 : Zpos (digits2_pos m) = 24%Z) by lia.
    split; [split; [reflexivity|exact H1]|]. split; [exact H2|]. split.
    + cbn [value]. rewrite IZR_cond_Zopp, Rmult_assoc, Rabs_sg.
      rewrite Rabs_pos_eq by (apply Rmult_le_pos; [apply IZR_le; lia | apply Rlt_le, pow2_pos]).
      pose proof (digits2_bounds m) as [_ DU]. rewrite D24 in DU.
      apply IZR_lt in DU. rewrite pow2_IZR in DU by lia.
      replace 32%Z with (24 + 8)%Z by lia. rewrite pow2_add.
      pose proof (pow2_le e 8 H3). pose proof (pow2_pos e). pose proof (pow2_pos 24).
      assert (0 <= IZR (Zpos m)) by (apply IZR_le; lia). nra.
    + intros s' m' e' E. injection E as <- <- <-. lia.
Qed.

(** Operands in range are decoded to double and to single precision without
    a rounding error. *)
Lemma decode64 x :
  operand_ok x = true ->
  Good64 (convert F64 x) /\ value (convert F64 x) = value x.
Proof.
  intros H. destruct (operand_ok_facts x H) as [[Fi _] [_ [_ D]]].
  assert (C : forall s m e, x = S754_finite s m e ->
              (SpecFloat.fexp (prec F64) (emax F64) (Zpos (digits2_pos m) + e) <= e)%Z /\
              (Zpos (digits2_pos m) + e < emax F64)%Z).
  { intros s m e E. destruct (D s m e E) as [D24 Er]. rewrite D24.
    unfold SpecFloat.fexp, SpecFloat.emin. cbn [prec emax]. lia. }
  destruct (convert_exact F64 x Fi C) as [F V].
  split; [split; [exact F|]|exact V].
  apply (convert_expo F64 x Fi C). intros s m e E. destruct (D s m e E) as [D24 Er].
  rewrite D24. unfold SpecFloat.fexp, SpecFloat.emin. cbn [prec emax]. lia.
Qed.

Lemma decode32 x :
  operand_ok x = true ->
  Good32 (convert F32 x) /\ value (convert F32 x) = value x.
Proof.
  intros H. destruct (operand_ok_facts x H) as [[Fi _] [_ [_ D]]].
  assert (C : forall s m e, x = S754_finite s m e ->
              (SpecFloat.fexp (prec F32) (emax F32) (Zpos (digits2_pos m) + e) <= e)%Z /\
              (Zpos (digits2_pos m) + e < emax F32)%Z).
  { intros s m e E. destruct (D s m e E) as [D24 Er]. rewrite D24.
    unfold SpecFloat.fexp, SpecFloat.emin. cbn [prec emax]. lia. }
  destruct (convert_exact F32 x Fi C) as [F V].
  split; [split; [exact F|]|exact V].
  apply (convert_expo F32 x Fi C). intros s m e E. destruct (D s m e E) as [D24 Er].
  rewrite D24. unfold SpecFloat.fexp, SpecFloat.emin. cbn [prec emax]. lia.
Qed.

(** Lists of operands in range. *)
Lemma forallb_ok l : forallb operand_ok l = true -> Forall ok l.
Proof.
  intros H. apply Forall_forall. intros x Hx.
  rewrite forallb_forall in H. now apply H.
Qed.

(** Decoding does not change the exact dot product nor the sum of the
    absolute values. *)
Lemma decoded_lists (f : float -> float) (Good : float -> Prop) :
  (forall x, ok x -> Good (f x) /\ value (f x) = value x) ->
  forall l, Forall ok l ->
  Forall Good (map f l) /\
  forall l', Forall ok l' ->
    dotR (map f l) (map f l') = dotR l l' /\ absR (map f l) (map f l') = absR l l'.
Proof.
  intros Hf. induction 1 as [|x l Hx Hl [IH1 IH2]].
  - split; [constructor|]. intros l' _. destruct l'; split; reflexivity.
  - destruct (Hf x Hx) as [Gx Vx]. split; [constructor; assumption|].
    intros l' Hl'. destruct Hl' as [|y l' Hy Hl']; [split; reflexivity|].
    destruct (Hf y Hy) as [Gy Vy]. destruct (IH2 l' Hl') as [E1 E2].
    unfold dotR, absR in *. cbn [map map2 fold_right]. rewrite E1, E2, Vx, Vy.
    split; reflexivity.
Qed.

(** The units of a number and of a dot product are their values scaled by
    [2^149] and by [2^298]. *)
Lemma units_value x : fint F32 x -> IZR (units x) = value x * pow2 149.
Proof.
  intros F. pose proof (fin_expo 24 128 x F) as E.
  destruct x as [s|s| |s m e]; cbn [units value]; try (rewrite Rmult_0_l; reflexivity).
  cbn [expo_ge] in E. change (SpecFloat.emin 24 128) with (-149)%Z in E.
  rewrite mult_IZR, pow2_IZR by lia. rewrite pow2_add. ring.
Qed.

Lemma dot_units_list : forall l l',
  Forall (fint F32) l -> Forall (fint F32) l' ->
  IZR (fold_right Z.add 0%Z (map2 (fun x y => (units x * units y)%Z) l l'))
    = dotR l l' * pow2 298 /\
  IZR (fold_right Z.add 0%Z (map2 (fun x y => Z.abs (units x * units y)) l l'))
    = absR l l' * pow2 298.
Proof.
  intros l l' H. revert l'. induction H as [|x l Hx Hl IH]; intros l' H'.
  - unfold dotR, absR. cbn [map2 fold_right]. split; ring.
  - destruct H' as [|y l' Hy Hl'].
    + unfold dotR, absR. cbn [map2 fold_right]. split; ring.
    + destruct (IH l' Hl') as [E1 E2]. unfold dotR, absR in *.
      cbn [map2 fold_right]. rewrite !plus_IZR, E1, E2, abs_IZR, mult_IZR.
      rewrite (units_value x Hx), (units_value y Hy).
      replace 298%Z with (149 + 149)%Z by lia. rewrite pow2_add.
      pose proof (pow2_pos 149).
      replace (value x * pow2 149 * (value y * pow2 149))
        with (value x * value y * (pow2 149 * pow2 149)) by ring.
      rewrite (Rabs_mult (value x * value y)).
      rewrite (Rabs_pos_eq (pow2 149 * pow2 149)) by nra.
      split; ring.
Qed.

(** Operands in range are single-precision numbers. *)
Lemma ok_fint l : Forall ok l -> Forall (fint F32) l.
Proof.
  intros H. eapply Forall_impl; [|exact H]. intros x Hx.
  apply (operand_ok_facts x Hx).
Qed.

(** The exact dot product of operands in range is a multiple of
    [2^-110]. *)
Lemma ok_multiple x : ok x -> exists z : Z, value x = IZR z * pow2 (-55).
Proof.
  intros H. destruct (operand_ok_facts x H) as [_ [E _]].
  destruct x as [s|s| |s m e]; try discriminate H.
  - exists 0%Z. cbn [value]. ring.
  - cbn [expo_ge] in E. exists (cond_Zopp s (Zpos m) * 2 ^ (e + 55))%Z.
    cbn [value]. rewrite mult_IZR, pow2_IZR by lia.
    rewrite Rmult_assoc, <- pow2_add. do 2 f_equal. lia.
Qed.

(** The exact dot product of operands in range is a multiple of [2^-110];
    hence at least [2^-110] in magnitude when it is not zero. *)
Lemma dot_multiple : forall l l',
  Forall ok l -> Forall ok l' -> exists z : Z, dotR l l' = IZR z * pow2 (-110).
Proof.
  intros l l' H. revert l'. induction H as [|x l Hx Hl IH]; intros l' H'.
  - exists 0%Z. unfold dotR. cbn [map2 fold_right]. ring.
  - destruct H' as [|y l' Hy Hl'].
    + exists 0%Z. unfold dotR. cbn [map2 fold_right]. ring.
    + destruct (IH l' Hl') as [z Ez]. destruct (ok_multiple x Hx) as [a Ea].
      destruct (ok_multiple y Hy) as [b Eb].
      exists (a * b + z)%Z. unfold dotR in *. cbn [map2 fold_right].
      rewrite Ez, Ea, Eb, plus_IZR, mult_IZR.
      replace (-110)%Z with (-55 + -55)%Z by lia. rewrite pow2_add. ring.
Qed.

Lemma dot_nonzero_large l l' :
  Forall ok l -> Forall ok l' -> dotR l l' <> 0 -> pow2 (-110) <= Rabs (dotR l l').
Proof.
  intros H H' NZ. destruct (dot_multiple l l' H H') as [z Ez]. rewrite Ez in *.
  pose proof (pow2_pos (-110)) as P.
  rewrite Rabs_mult, (Rabs_pos_eq (pow2 (-110))) by lra.
  assert (z <> 0%Z) by (intros ->; apply NZ; ring).
  assert (1 <= Rabs (IZR z)).
  { rewrite <- abs_IZR. apply IZR_le. lia. }
  nra.
Qed.

(** Every product of two operands in range is at most [2^64] in magnitude. *)
Lemma absR_bound : forall l l',
  Forall ok l -> Forall ok l' -> absR l l' <= INR (length l) * pow2 64.
Proof.
  intros l l' H. revert l'. induction H as [|x l Hx Hl IH]; intros l' H'.
  - unfold absR. cbn [map2 fold_right length INR]. lra.
  - pose proof (pow2_pos 64) as P64. pose proof (pos_INR (length l)) as Lp.
    destruct H' as [|y l' Hy Hl'].
    + unfold absR. cbn [map2 fold_right]. apply Rmult_le_pos; [apply pos_INR|lra].
    + specialize (IH l' Hl'). unfold absR in *. cbn [map2 fold_right].
      change (length (x :: l)) with (S (length l)). rewrite S_INR.
      destruct (operand_ok_facts x Hx) as [_ [_ [Bx _]]].
      destruct (operand_ok_facts y Hy) as [_ [_ [By _]]].
      rewrite Rabs_mult.
      replace 64%Z with (32 + 32)%Z in * by lia. rewrite pow2_add in *.
      pose proof (pow2_pos 32). pose proof (Rabs_pos (value x)). pose proof (Rabs_pos (value y)).
      assert (Rabs (value x) * Rabs (value y) <= pow2 32 * pow2 32) by nra.
      lra.
Qed.

(** A vector holds half as many doubles as single-precision numbers, rounded
    up. *)
Lemma ceil_half N :
  (0 < N)%nat ->
  (0 < ceil_div (N * 4) 8 /\ ceil_div (N * 4) 8 <= N /\ N <= 2 * ceil_div (N * 4) 8)%nat.
Proof.
  intros HN. unfold ceil_div.
  pose proof (Nat.div_mod_eq (N * 4 + 8 - 1) 8) as E.
  pose proof (Nat.mod_upper_bound (N * 4 + 8 - 1) 8 ltac:(lia)) as B.
  lia.
Qed.

(** The dot product is at most the sum of the absolute values. *)
Lemma dotR_le_absR : forall l l', Rabs (dotR l l') <= absR l l'.
Proof.
  induction l as [|x l IH]; intros l'.
  - unfold dotR, absR. cbn [map2 fold_right]. rewrite Rabs_R0. lra.
  - destruct l' as [|y l'].
    + unfold dotR, absR. cbn [map2 fold_right]. rewrite Rabs_R0. lra.
    + specialize (IH l'). unfold dotR, absR in *. cbn [map2 fold_right].
      eapply Rle_trans; [apply Rabs_triang|]. lra.
Qed.

(** [within], from the bound on real numbers. *)
Lemma within_R den r Xz Xr :
  fint F32 r -> IZR Xz = Xr * pow2 298 ->
  IZR den * Rabs (value r - Xr) <= Rabs Xr ->
  within den r Xz = true.
Proof.
  intros F E H. unfold within. rewrite (proj1 F). cbn [andb].
  apply Z.leb_le. apply le_IZR.
  rewrite mult_IZR, !abs_IZR, minus_IZR, mult_IZR, (units_value r F), E.
  rewrite (pow2_IZR 149) by lia.
  replace (value r * pow2 149 * pow2 149 - Xr * pow2 298)
    with ((value r - Xr) * pow2 298)
    by (replace 298%Z with (149 + 149)%Z by lia; rewrite pow2_add; ring).
  pose proof (pow2_pos 298) as P.
  rewrite !Rabs_mult, (Rabs_pos_eq (pow2 298)) by lra.
  rewrite <- Rmult_assoc. apply Rmult_le_compat_r; lra.
Qed.

Section Accuracy.
Variable tg : Target.
Variables w v : list float.
Variable n : nat.

Local Notation "'N'" := (TargetLanes tg F32).
Local Notation "'X'" := (dotR (firstn n w) (firstn n v)).
Local Notation "'A'" := (absR (firstn n w) (firstn n v)).
Local Notation "'K'" := (INR (steps n (TargetLanes tg F32))).

Hypothesis HN : (0 < N)%nat.
Hypothesis HM : (N <= TargetMaxLanes tg F32)%nat.
Hypothesis Hw : (n <= length w)%nat.
Hypothesis Hv : (n <= length v)%nat.
Hypothesis Ow : forallb operand_ok (firstn n w) = true.
Hypothesis Ov : forallb operand_ok (firstn n v) = true.
Hypothesis NZ : dot_units w v n <> 0%Z.
Hypothesis HC :
  (Z.of_nat (steps n N) ^ 2 * abs_units w v n <= 2 ^ 25 * Z.abs (dot_units w v n))%Z.

(** The assumptions on the input, on real numbers: the exact dot product [X]
    is at least [2^-110] in magnitude, the sum [A] of the absolute values is
    at most [2^91] and at most [2^25 / K^2] times [|X|], there are at most
    5793 steps [K] and at most [2^27] elements. *)
Lemma units_R :
  IZR (dot_units w v n) = X * pow2 298 /\ IZR (abs_units w v n) = A * pow2 298.
Proof.
  apply dot_units_list; apply ok_fint, forallb_ok; assumption.
Qed.

Lemma X_large : pow2 (-110) <= Rabs X.
Proof.
  apply dot_nonzero_large; try (apply forallb_ok; assumption).
  intros E. apply NZ. apply eq_IZR. rewrite (proj1 units_R), E. ring.
Qed.

Lemma cond_R : K * K * A <= 33554432 * Rabs X.
Proof.
  pose proof HC as H. apply IZR_le in H.
  rewrite !mult_IZR, abs_IZR in H.
  change (Z.of_nat (steps n N) ^ 2)%Z
    with (Z.pow_pos (Z.of_nat (steps n N)) 2) in H.
  replace (Z.pow_pos (Z.of_nat (steps n N)) 2)
    with (Z.of_nat (steps n N) * Z.of_nat (steps n N))%Z in H
    by (unfold Z.pow_pos; cbn [Pos.iter]; ring).
  rewrite mult_IZR, <- INR_IZR_INZ in H.
  destruct units_R as [E1 E2]. rewrite E1, E2 in H.
  change (2 ^ 25)%Z with 33554432%Z in H.
  pose proof (pow2_pos 298) as P.
  rewrite Rabs_mult, (Rabs_pos_eq (pow2 298)) in H by lra.
  apply Rmult_le_reg_r with (pow2 298); [exact P|]. lra.
Qed.

Lemma K_ge : 7 <= K.
Proof.
  rewrite INR_IZR_INZ. apply IZR_le. unfold steps. lia.
Qed.

Lemma A_pos : 0 < A.
Proof.
  pose proof X_large. pose proof (pow2_pos (-110)).
  pose proof (dotR_le_absR (firstn n w) (firstn n v)). lra.
Qed.

Lemma K_le : K <= 5793.
Proof.
  pose proof cond_R as H. pose proof A_pos as P. pose proof K_ge as G.
  pose proof (dotR_le_absR (firstn n w) (firstn n v)) as L.
  destruct (Rle_lt_dec K 5793) as [|Hgt]; [assumption|exfalso].
  assert (5793 * 5793 <= K * K) by nra.
  assert (5793 * 5793 * A <= K * K * A) by (apply scale_le; lra).
  lra.
Qed.

Lemma steps_Z : (Z.of_nat (steps n N) <= 5793)%Z.
Proof.
  apply le_IZR. rewrite <- INR_IZR_INZ. apply K_le.
Qed.

Lemma n_small : INR n <= 134217728.
Proof.
  rewrite INR_IZR_INZ. apply IZR_le.
  pose proof steps_Z as S. unfold steps in S.
  pose proof (Nat.div_mod_eq n (2 * N)) as E.
  pose proof (Nat.mod_upper_bound n (2 * N) ltac:(lia)) as B.
  set (q := (n / (2 * N))%nat) in *. set (r := (n mod (2 * N))%nat) in *.
  assert (Z.of_nat q <= 5793)%Z by lia.
  assert (Z.of_nat N <= 5793)%Z by lia.
  assert (Z.of_nat n = 2 * Z.of_nat N * Z.of_nat q + Z.of_nat r)%Z by lia.
  assert (Z.of_nat r < 2 * Z.of_nat N)%Z by lia.
  nia.
Qed.

Lemma A_small : A <= pow2 91.
Proof.
  pose proof (absR_bound (firstn n w) (firstn n v)
                (forallb_ok _ Ow) (forallb_ok _ Ov)) as H.
  rewrite length_firstn, Nat.min_l in H by exact Hw.
  pose proof n_small as S. pose proof (pow2_pos 64) as P.
  replace 91%Z with (27 + 64)%Z by lia. rewrite pow2_add.
  rewrite <- (pow2_IZR 27) by lia. change (2 ^ 27)%Z with 134217728%Z.
  eapply Rle_trans; [exact H|]. apply scale_le; lra.
Qed.

(** The lanes of the double kernel: at least one, and no more blocks than
    the bound on the steps allows for. *)
Lemma lanes_half :
  (0 < ceil_div (N * 4) 8 /\ ceil_div (N * 4) 8 <= ceil_div (TargetMaxLanes tg F32 * 4) 8 /\
   n / (4 * ceil_div (N * 4) 8) <= n / (2 * N) /\ ceil_div (N * 4) 8 <= N)%nat.
Proof.
  destruct (ceil_half N HN) as [P [L G]].
  split; [exact P|]. split; [apply ceil_div_le; lia|]. split; [|exact L].
  apply Nat.div_le_compat_l. lia.
Qed.

(** The double kernel: [DotDouble] returns a single-precision number within
    [1e-7] of the exact dot product. *)
Lemma double_R :
  exists r,
    DotDouble T_float T_float (ScalableTag tg F32) (MakeSpan w n) 0 v n = r /\
    fint F32 r /\ 10000000 * Rabs (value r - X) <= Rabs X.
Proof.
  destruct lanes_half as [LP [LM [LD LN]]].
  pose proof K_le as KL. pose proof K_ge as KG. pose proof cond_R as CR.
  pose proof A_pos as AP. pose proof A_small as AS. pose proof X_large as XL.
  pose proof (dotR_le_absR (firstn n w) (firstn n v)) as XA.
  destruct (decoded_lists (convert F64) Good64 decode64 _ (forallb_ok _ Ow)) as [Gw Ew].
  destruct (decoded_lists (convert F64) Good64 decode64 _ (forallb_ok _ Ov)) as [Gv _].
  destruct (Ew _ (forallb_ok _ Ov)) as [EX EA].
  assert (HK : INR (steps n N) <= 1048576) by lra.
  assert (A64 : pow2 91 <= Amax64) by (apply pow2_le; lia).
  set (d64 := Repartition F64 (ScalableTag tg F32)).
  destruct (dac_run_inv DotKernelDouble Pd Good64 Amax64 (steps n N) d64
              LP LM Pd_mono Pd_nonneg Pd_zero Good64_zero
              (Pd_U1 (steps n N) HK d64) (Pd_U4 d64)
              (map (convert F64) w) (map (convert F64) v) n)
    with (w := w) (v := v) as (acc & k & E & Hk & Inv).
  - rewrite length_map. exact Hw.
  - rewrite length_map. exact Hv.
  - rewrite firstn_map. exact Gw.
  - rewrite firstn_map. exact Gv.
  - rewrite !firstn_map, EA. lra.
  - reflexivity.
  - reflexivity.
  - cbn [d64 Repartition Lanes ScalableTag tag_lane sizeof]. unfold steps. lia.
  - assert (KK : (k + 2 + Lanes d64 <= steps n N)%nat).
    { cbn [d64 Repartition Lanes ScalableTag tag_lane sizeof] in Hk |- *.
      unfold steps. lia. }
    destruct (DotKernelDouble_Reduce_R (steps n N) HK d64 k _ _ acc
                eq_refl LP Inv KK) as (D & ED & FD & BD).
    + rewrite !firstn_map, EA. lra.
    + rewrite !firstn_map, EX, EA in BD.
      exists (convert F32 D). split.
      { unfold DotDouble, DecompressAndCall. cbn [Raw State DotKernelDouble].
        fold d64. rewrite E. exact ED. }
      assert (Kk : INR (k + 2 + Lanes d64) <= K) by (apply le_INR; exact KK).
      pose proof (pos_INR (k + 2 + Lanes d64)) as Kp.
      pose proof u64_small as U. pose proof (pow2_pos (- prec F64)) as Up.
      fold (ulp_half F64) in Up.
      assert (B1 : Rabs (value D - X) <= / 67108864 * Rabs X).
      { assert (T1 : INR (k + 2 + Lanes d64) * A <= K * A) by (apply scale_le; lra).
        assert (T2 : K * A <= K * K * A).
        { replace (K * A) with (1 * (K * A)) by ring.
          rewrite Rmult_assoc. apply scale_le; [nra|lra]. }
        assert (T3 : ulp_half F64 * (INR (k + 2 + Lanes d64) * A)
                     <= / 4503599627370496 * (INR (k + 2 + Lanes d64) * A)).
        { apply scale_le; [nra|exact U]. }
        replace (2 * INR (k + 2 + Lanes d64) * ulp_half F64 * A)
          with (2 * (ulp_half F64 * (INR (k + 2 + Lanes d64) * A))) in BD by ring.
        lra. }
      assert (DX : Rabs (value D) <= Rabs X + / 67108864 * Rabs X).
      { replace (value D) with (X + (value D - X)) at 1 by ring.
        eapply Rle_trans; [apply Rabs_triang|]. lra. }
      assert (XD : Rabs X <= Rabs (value D) + / 67108864 * Rabs X).
      { replace X with (value D - (value D - X)) at 1 by ring.
        eapply Rle_trans; [apply Rabs_triang|]. rewrite Rabs_Ropp. lra. }
      destruct (convert_normal F32 D (proj1 FD)) as [FR BR].
      * change (emax F32 - 1)%Z with 127%Z.
        assert (2 * pow2 91 < pow2 127).
        { replace (2 * pow2 91) with (pow2 92)
            by (replace 92%Z with (1 + 91)%Z by lia; rewrite pow2_add, pow2_1; ring).
          apply pow2_lt; lia. }
        pose proof (Rabs_pos X). lra.
      * change (emin_of F32 + prec F32 - 1)%Z with (-126)%Z.
        assert (2 * pow2 (-126) <= pow2 (-110)).
        { replace (-110)%Z with (1 + -111)%Z by lia. rewrite pow2_add, pow2_1.
          assert (pow2 (-126) <= pow2 (-111)) by (apply pow2_le; lia).
          pose proof (pow2_pos (-126)). lra. }
        pose proof (pow2_pos (-126)). lra.
      * split; [exact FR|]. rewrite u32_eq in BR.
        assert (TR : Rabs (value (convert F32 D) - X)
                     <= Rabs (value (convert F32 D) - value D) + Rabs (value D - X)).
        { replace (value (convert F32 D) - X)
            with ((value (convert F32 D) - value D) + (value D - X)) by ring.
          apply Rabs_triang. }
        pose proof (Rabs_pos X). lra.
Qed.

(** The compensated kernel: the driver returns a single-precision number
    within [1e-5] of the exact dot product. *)
Lemma compensated_R :
  let r := DecompressAndCall T_float T_float (ScalableTag tg F32) (MakeSpan w n) 0
             (MakeSpan v n) DotKernelCompensated in
  fint F32 r /\ 100000 * Rabs (value r - X) <= Rabs X.
Proof.
  pose proof K_le as KL. pose proof K_ge as KG. pose proof cond_R as CR.
  pose proof A_pos as AP. pose proof A_small as AS. pose proof X_large as XL.
  pose proof (dotR_le_absR (firstn n w) (firstn n v)) as XA.
  destruct (decoded_lists (convert F32) Good32 decode32 _ (forallb_ok _ Ow)) as [Gw Ew].
  destruct (decoded_lists (convert F32) Good32 decode32 _ (forallb_ok _ Ov)) as [Gv _].
  destruct (Ew _ (forallb_ok _ Ov)) as [EX EA].
  assert (HK : INR (steps n N) + 1 <= 8192) by lra.
  assert (A32 : pow2 91 <= Amax32) by (apply pow2_le; lia).
  set (d := ScalableTag tg F32).
  assert (ER : DecompressAndCall T_float T_float d (MakeSpan w n) 0 (MakeSpan v n)
                 DotKernelCompensated
               = dac_run DotKernelCompensated d d (MakeSpan w n) 0 (MakeSpan v n)).
  { unfold DecompressAndCall. cbn [Raw State DotKernelCompensated IsF32 T_float orb].
    unfold Repartition. cbn [tag_lane Lanes MaxLanes d ScalableTag sizeof].
    rewrite !ceil_div_mul by lia. reflexivity. }
  cbv zeta. rewrite ER.
  destruct (dac_run_inv DotKernelCompensated Pc Good32 Amax32 (steps n N) d
              HN HM
              (fun k k' s c ga H => Cst_mono (S k) (S k') s c ga (le_n_S _ _ H))
              (fun k s c ga H => Cst_nonneg (S k) s c ga H)
              (Cst_zero 1) Good32_zero
              (fun k => Pc_U1 (steps n N) HK d k eq_refl)
              (fun w0 w1 w2 w3 v0 v1 v2 v3 acc =>
                 Pc_U4 d w0 w1 w2 w3 v0 v1 v2 v3 acc eq_refl)
              (map (convert F32) w) (map (convert F32) v) n)
    with (w := w) (v := v) as (acc & k & E & Hk & Inv).
  - rewrite length_map. exact Hw.
  - rewrite length_map. exact Hv.
  - rewrite firstn_map. exact Gw.
  - rewrite firstn_map. exact Gv.
  - rewrite !firstn_map, EA. lra.
  - reflexivity.
  - reflexivity.
  - cbn [d Lanes ScalableTag]. unfold steps.
    assert (n / (4 * N) <= n / (2 * N))%nat by (apply Nat.div_le_compat_l; lia). lia.
  - assert (KK : (k + 3 + Lanes d <= steps n N)%nat).
    { cbn [d Lanes ScalableTag] in Hk |- *. unfold steps.
      assert (n / (4 * N) <= n / (2 * N))%nat by (apply Nat.div_le_compat_l; lia). lia. }
    rewrite E. cbn [Reduce DotKernelCompensated].
    destruct (DotKernelCompensated_Reduce_R (steps n N) HK d k _ _ acc HN Inv KK)
      as [FR BR].
    + rewrite !firstn_map, EA. lra.
    + rewrite !firstn_map, EX, EA in BR. split; [exact FR|].
      assert (Kk : INR (k + 3 + Lanes d) <= K) by (apply le_INR; exact KK).
      pose proof (pos_INR (k + 3 + Lanes d)) as Kp.
      assert (T1 : INR (k + 3 + Lanes d) * INR (k + 3 + Lanes d) <= K * K) by nra.
      assert (T2 : INR (k + 3 + Lanes d) * INR (k + 3 + Lanes d) * A <= K * K * A)
        by (apply scale_le; lra).
      replace (11 * (INR (k + 3 + Lanes d) * INR (k + 3 + Lanes d))
                 * (/ 16777216 * / 16777216) * A)
        with (11 * (/ 16777216 * / 16777216)
                 * (INR (k + 3 + Lanes d) * INR (k + 3 + Lanes d) * A)) in BR by ring.
      pose proof (Rabs_pos X). lra.
Qed.

End Accuracy.

Close Scope R_scope.

(* ------------------------------------------------------------------ *)
(** ** The relative error of [Dot] *)



